(** * PFID: the TypeScript codec ([typescript/src/pfid.ts]), embedded and verified

    A PFID is a 160-bit identifier: a 48-bit millisecond timestamp, a 30-bit
    partition stored in a 32-bit field, and 80 bits of randomness.  Its text
    form is 32 characters of Crockford Base32.

    The development follows the source file top to bottom: the JavaScript
    primitives it relies on, the alphabet tables, the guards, the generator,
    the validator, the bit cursor ([readBits] / [writeBits]) and the
    public [encode] / [decode] / [extractPartition] entry points.  The
    theorems come after the definitions. *)

From Stdlib Require Import String Ascii.
From Stdlib Require Import ZArith List Lia Bool.
Import ListNotations.
Open Scope Z_scope.

(** ** JavaScript primitives *)

Module JS.

(** [ToInt32]: the operand conversion of every bitwise operator. *)
Definition toInt32 (z : Z) : Z := (z + 2 ^ 31) mod 2 ^ 32 - 2 ^ 31.

(** [a >> n], sign propagating, shift count taken modulo 32. *)
Definition shr (a n : Z) : Z := Z.shiftr (toInt32 a) (n mod 32).

(** [a << n], result wrapped to 32 bits. *)
Definition shl (a n : Z) : Z := toInt32 (Z.shiftl (toInt32 a) (n mod 32)).

(** [a & b] and [a | b]. *)
Definition band (a b : Z) : Z := Z.land (toInt32 a) (toInt32 b).
Definition bor (a b : Z) : Z := Z.lor (toInt32 a) (toInt32 b).

(** A [number].  The codec only ever computes with integers; every other
    value (a fraction, [NaN], an infinity) is told apart by
    [Number.isInteger] and nothing else is asked of it. *)
Inductive number : Type :=
| Integral (z : Z)
| NonIntegral.

(** A string is its sequence of UTF-16 code units. *)
Definition codeunit : Type := Z.
Definition jsstring : Type := list codeunit.

Definition code (a : ascii) : codeunit := Z.of_N (N_of_ascii a).

(** A string literal of the source. *)
Definition lit (s : string) : jsstring := map code (list_ascii_of_string s).

(** [s[i]]: [None] stands for [undefined]. *)
Definition charAt (s : jsstring) (i : Z) : option codeunit :=
  if i <? 0 then None else nth_error s (Z.to_nat i).

(** [s.substring(from, to)] for [0 <= from <= to]. *)
Definition substring (s : jsstring) (from to : nat) : jsstring :=
  firstn (to - from) (skipn from s).

(** [c.toLowerCase()] on a one-unit string, as far as a property lookup
    in [DECODE_MAP] can tell: exact whenever the lower-case form is an
    ASCII character, which happens for [A]-[Z] and for U+212A (KELVIN
    SIGN, lower case [k]).  Every other unit lower-cases to a string that
    is not a key of the table; such a unit is returned unchanged, and is
    not a key either. *)
Definition toLowerCase (c : codeunit) : codeunit :=
  if (code "A" <=? c) && (c <=? code "Z") then c + 32
  else if c =? 8490 then code "k"
  else c.

(** [c.toUpperCase()] on an ASCII character. *)
Definition toUpperCase (c : codeunit) : codeunit :=
  if (code "a" <=? c) && (c <=? code "z") then c - 32 else c.

(** A regular-expression character class [[...]] listing its members:
    does it match the unit [c]? *)
Definition inClass (members : jsstring) (c : codeunit) : bool :=
  existsb (Z.eqb c) members.

(** What a [throw] of the source carries, up to the message text. *)
Inductive exn : Type :=
| InvalidCharacter (c : codeunit)   (* Error(`Invalid character: ...`) *)
| InvalidPartition                  (* Error(`Invalid partition: ...`) *)
| InvalidTimestamp                  (* Error(`Invalid timestamp: ...`) *)
| TypeError                         (* a method call on [undefined] *)
| RangeError.                       (* Buffer write out of range *)

(** Computations that may throw. *)
Definition throws (A : Type) : Type := (exn + A)%type.
Definition ret {A} (a : A) : throws A := inr a.
Definition throw {A} (e : exn) : throws A := inl e.
Definition bind {A B} (m : throws A) (k : A -> throws B) : throws B :=
  match m with
  | inl e => inl e
  | inr a => k a
  end.

End JS.

Import JS.

Notation "x <- m ;; k" := (bind m (fun x => k))
  (at level 61, m at next level, right associativity).

(** ** Node.js buffers *)

Definition Buffer : Type := list Z.

(** Every element of a buffer is a byte. *)
Definition bytes (b : Buffer) : Prop := Forall (fun x => 0 <= x < 256) b.

(** [Buffer.alloc(size, fill)]. *)
Definition Buffer_alloc (size : nat) (fill : Z) : Buffer := repeat (fill mod 256) size.

(** [Buffer.allocUnsafe(size)]: the initial contents are unspecified; both
    callers overwrite every byte before the buffer is read. *)
Definition Buffer_allocUnsafe (size : nat) : Buffer := repeat 0 size.

(** [buffer[i]] in an arithmetic context: [undefined] counts as [0]. *)
Definition get (buffer : Buffer) (i : Z) : Z :=
  if i <? 0 then 0 else nth (Z.to_nat i) buffer 0.

Fixpoint set_nth (buffer : Buffer) (i : nat) (v : Z) : Buffer :=
  match buffer, i with
  | [], _ => []
  | _ :: rest, O => v :: rest
  | x :: rest, S i' => x :: set_nth rest i' v
  end.

(** [buffer[i] = v]: the value is stored modulo 256; a store past the end
    is ignored. *)
Definition set (buffer : Buffer) (i : Z) (v : Z) : Buffer :=
  if i <? 0 then buffer else set_nth buffer (Z.to_nat i) (v mod 256).

(** [buffer.writeUInt32BE(value, offset)]. *)
Definition writeUInt32BE (buffer : Buffer) (value : Z) (offset : Z) : throws Buffer :=
  if (value <? 0) || (2 ^ 32 <=? value) || (offset <? 0)
     || (Z.of_nat (length buffer) <? offset + 4)
  then throw RangeError
  else
    let buffer := set buffer offset (Z.shiftr value 24) in
    let buffer := set buffer (offset + 1) (Z.shiftr value 16) in
    let buffer := set buffer (offset + 2) (Z.shiftr value 8) in
    let buffer := set buffer (offset + 3) value in
    ret buffer.

(** [buffer.readUInt32BE(offset)] for an offset within range. *)
Definition readUInt32BE (buffer : Buffer) (offset : Z) : Z :=
  get buffer offset * 2 ^ 24 + get buffer (offset + 1) * 2 ^ 16
  + get buffer (offset + 2) * 2 ^ 8 + get buffer (offset + 3).

(** [source.copy(target, targetStart)]. *)
Fixpoint copy (source target : Buffer) (targetStart : Z) : Buffer :=
  match source with
  | [] => target
  | x :: rest => copy rest (set target targetStart x) (targetStart + 1)
  end.

(** ** Types and constants of the source *)

Definition BinaryPfid : Type := Buffer.
Definition Partition : Type := Z.
Definition Timestamp : Type := Z.
Definition Pfid : Type := jsstring.

Definition MAX_TIMESTAMP : Z := 281474976710655.
Definition MAX_PARTITION : Z := 1073741823.

(** [errors.ts]: the code of a [PfidError]; its message, a rendering of the
    offending input, is not represented. *)
Inductive PfidErrorCode : Type :=
| invalid_binary
| invalid_pfid
| invalid_partition.

(** The result pattern [{ ok: true; value } | { ok: false; error }]. *)
Inductive Result (T : Type) : Type :=
| Ok (value : T)
| Failure (error : PfidErrorCode).
Arguments Ok {T} value.
Arguments Failure {T} error.

(** ** Crockford Base32 tables *)

Definition ENCODE_CHARS : jsstring := lit "0123456789abcdefghjkmnpqrstvwxyz".

Definition DECODE_MAP : list (codeunit * Z) :=
  map (fun kv => (code (fst kv), snd kv))
    [ ("0", 0); ("1", 1); ("2", 2); ("3", 3); ("4", 4); ("5", 5); ("6", 6); ("7", 7);
      ("8", 8); ("9", 9); ("a", 10); ("b", 11); ("c", 12); ("d", 13); ("e", 14); ("f", 15);
      ("g", 16); ("h", 17); ("j", 18); ("k", 19); ("m", 20); ("n", 21); ("p", 22); ("q", 23);
      ("r", 24); ("s", 25); ("t", 26); ("v", 27); ("w", 28); ("x", 29); ("y", 30); ("z", 31)
    ]%char.

(** [DECODE_MAP[key]]. *)
Fixpoint lookup (table : list (codeunit * Z)) (key : codeunit) : option Z :=
  match table with
  | [] => None
  | (k, v) :: rest => if key =? k then Some v else lookup rest key
  end.

(** [ENCODE_CHARS[value]].  An index outside the table yields [undefined],
    which string concatenation renders as the text "undefined". *)
Definition encodeChar (value : Z) : jsstring :=
  match charAt ENCODE_CHARS value with
  | Some c => [c]
  | None => lit "undefined"
  end.

(** [decodeChar(char)], where [char] is [pfid[i]]. *)
Definition decodeChar (char : option codeunit) : throws Z :=
  match char with
  | None => throw TypeError
  | Some c =>
      match lookup DECODE_MAP (toLowerCase c) with
      | None => throw (InvalidCharacter c)
      | Some value => ret value
      end
  end.

(** ** Validation guards *)

Definition isValidTimestamp (timestamp : number) : bool :=
  match timestamp with
  | Integral t => (0 <=? t) && (t <=? MAX_TIMESTAMP)
  | NonIntegral => false
  end.

Definition isValidPartition (partition : number) : bool :=
  match partition with
  | Integral p => (0 <=? p) && (p <=? MAX_PARTITION)
  | NonIntegral => false
  end.

Definition zero : Pfid := lit "00000000000000000000000000000000".

(** ** Binary generation

    [random] is what [randomBytes(10)] returned. *)
Definition generateBinaryWithTimestamp
    (partition timestamp : number) (random : Buffer) : throws BinaryPfid :=
  if negb (isValidPartition partition) then throw InvalidPartition
  else if negb (isValidTimestamp timestamp) then throw InvalidTimestamp
  else
    match partition, timestamp with
    | Integral partition, Integral timestamp =>
        let buffer := Buffer_allocUnsafe 20 in
        let buffer := set buffer 0 (band (timestamp / 1099511627776) 255) in
        let buffer := set buffer 1 (band (timestamp / 4294967296) 255) in
        let buffer := set buffer 2 (band (shr timestamp 24) 255) in
        let buffer := set buffer 3 (band (shr timestamp 16) 255) in
        let buffer := set buffer 4 (band (shr timestamp 8) 255) in
        let buffer := set buffer 5 (band timestamp 255) in
        buffer <- writeUInt32BE buffer partition 6 ;;
        let buffer := copy random buffer 10 in
        ret buffer
    | _, _ => throw TypeError (* excluded by the two guards *)
    end.

(** ** Text validation *)

(** [/^[0-7][0-9abcdefghjkmnpqrstvwxyz]{31}$/.test(s)]. *)
Definition validPattern_test (s : jsstring) : bool :=
  match s with
  | [] => false
  | c :: rest =>
      inClass (lit "01234567") c
      && (length rest =? 31)%nat
      && forallb (inClass (lit "0123456789abcdefghjkmnpqrstvwxyz")) rest
  end.

(** [s[0] < '0' || s[0] > '7']; a comparison with [undefined] is false. *)
Definition firstOutOfRange (s : jsstring) : bool :=
  match charAt s 0 with
  | Some c => (c <? code "0") || (code "7" <? c)
  | None => false
  end.

Definition isPfid (s : jsstring) : bool :=
  if negb (length s =? 32)%nat then false
  else if firstOutOfRange s then false
  else validPattern_test s.

(** ** The bit cursor *)

(** The body of [readBits]: [n] iterations left, accumulator [value],
    cursor [bitOffset]. *)
Fixpoint readBits_loop (binary : Buffer) (n : nat) (value bitOffset : Z) : Z * Z :=
  match n with
  | O => (value, bitOffset)
  | S n' =>
      let byteIndex := bitOffset / 8 in
      let bitIndex := 7 - Z.rem bitOffset 8 in
      let bit := band (shr (get binary byteIndex) bitIndex) 1 in
      let value := bor (shl value 1) bit in
      readBits_loop binary n' value (bitOffset + 1)
  end.

(** [readBits(count)]: the value read and the advanced cursor. *)
Definition readBits (binary : Buffer) (count : nat) (bitOffset : Z) : Z * Z :=
  readBits_loop binary count 0 bitOffset.

Definition unsafeEncode (binary : Buffer) : Pfid :=
  let bitOffset := 0 in
  (* timestamp: 3 + 5*9 = 48 bits *)
  let '(t1, bitOffset) := readBits binary 3 bitOffset in
  let '(t2, bitOffset) := readBits binary 5 bitOffset in
  let '(t3, bitOffset) := readBits binary 5 bitOffset in
  let '(t4, bitOffset) := readBits binary 5 bitOffset in
  let '(t5, bitOffset) := readBits binary 5 bitOffset in
  let '(t6, bitOffset) := readBits binary 5 bitOffset in
  let '(t7, bitOffset) := readBits binary 5 bitOffset in
  let '(t8, bitOffset) := readBits binary 5 bitOffset in
  let '(t9, bitOffset) := readBits binary 5 bitOffset in
  let '(t10, bitOffset) := readBits binary 5 bitOffset in
  (* skip 2 padding bits *)
  let '(_, bitOffset) := readBits binary 2 bitOffset in
  (* partition: 5*6 = 30 bits *)
  let '(p1, bitOffset) := readBits binary 5 bitOffset in
  let '(p2, bitOffset) := readBits binary 5 bitOffset in
  let '(p3, bitOffset) := readBits binary 5 bitOffset in
  let '(p4, bitOffset) := readBits binary 5 bitOffset in
  let '(p5, bitOffset) := readBits binary 5 bitOffset in
  let '(p6, bitOffset) := readBits binary 5 bitOffset in
  (* randomness: 5*16 = 80 bits *)
  let '(r1, bitOffset) := readBits binary 5 bitOffset in
  let '(r2, bitOffset) := readBits binary 5 bitOffset in
  let '(r3, bitOffset) := readBits binary 5 bitOffset in
  let '(r4, bitOffset) := readBits binary 5 bitOffset in
  let '(r5, bitOffset) := readBits binary 5 bitOffset in
  let '(r6, bitOffset) := readBits binary 5 bitOffset in
  let '(r7, bitOffset) := readBits binary 5 bitOffset in
  let '(r8, bitOffset) := readBits binary 5 bitOffset in
  let '(r9, bitOffset) := readBits binary 5 bitOffset in
  let '(r10, bitOffset) := readBits binary 5 bitOffset in
  let '(r11, bitOffset) := readBits binary 5 bitOffset in
  let '(r12, bitOffset) := readBits binary 5 bitOffset in
  let '(r13, bitOffset) := readBits binary 5 bitOffset in
  let '(r14, bitOffset) := readBits binary 5 bitOffset in
  let '(r15, bitOffset) := readBits binary 5 bitOffset in
  let '(r16, _) := readBits binary 5 bitOffset in
  encodeChar t1 ++ encodeChar t2 ++ encodeChar t3 ++ encodeChar t4 ++ encodeChar t5 ++
  encodeChar t6 ++ encodeChar t7 ++ encodeChar t8 ++ encodeChar t9 ++ encodeChar t10 ++
  encodeChar p1 ++ encodeChar p2 ++ encodeChar p3 ++ encodeChar p4 ++ encodeChar p5 ++
  encodeChar p6 ++
  encodeChar r1 ++ encodeChar r2 ++ encodeChar r3 ++ encodeChar r4 ++ encodeChar r5 ++
  encodeChar r6 ++ encodeChar r7 ++ encodeChar r8 ++ encodeChar r9 ++ encodeChar r10 ++
  encodeChar r11 ++ encodeChar r12 ++ encodeChar r13 ++ encodeChar r14 ++ encodeChar r15 ++
  encodeChar r16.

(** The body of [writeBits]: the loop index [i] runs from [n - 1] down to
    [0]; the state is the buffer and the cursor. *)
Fixpoint writeBits_loop (value : Z) (n : nat) (st : Buffer * Z) : Buffer * Z :=
  match n with
  | O => st
  | S i =>
      let '(buffer, bitOffset) := st in
      let byteIndex := bitOffset / 8 in
      let bitIndex := 7 - Z.rem bitOffset 8 in
      let bit := band (shr value (Z.of_nat i)) 1 in
      let buffer := set buffer byteIndex (bor (get buffer byteIndex) (shl bit bitIndex)) in
      writeBits_loop value i (buffer, bitOffset + 1)
  end.

Definition writeBits (value : Z) (count : nat) (st : Buffer * Z) : Buffer * Z :=
  writeBits_loop value count st.

Definition unsafeDecode (pfid : jsstring) : throws BinaryPfid :=
  t1 <- decodeChar (charAt pfid 0) ;;
  t2 <- decodeChar (charAt pfid 1) ;;
  t3 <- decodeChar (charAt pfid 2) ;;
  t4 <- decodeChar (charAt pfid 3) ;;
  t5 <- decodeChar (charAt pfid 4) ;;
  t6 <- decodeChar (charAt pfid 5) ;;
  t7 <- decodeChar (charAt pfid 6) ;;
  t8 <- decodeChar (charAt pfid 7) ;;
  t9 <- decodeChar (charAt pfid 8) ;;
  t10 <- decodeChar (charAt pfid 9) ;;
  p1 <- decodeChar (charAt pfid 10) ;;
  p2 <- decodeChar (charAt pfid 11) ;;
  p3 <- decodeChar (charAt pfid 12) ;;
  p4 <- decodeChar (charAt pfid 13) ;;
  p5 <- decodeChar (charAt pfid 14) ;;
  p6 <- decodeChar (charAt pfid 15) ;;
  r1 <- decodeChar (charAt pfid 16) ;;
  r2 <- decodeChar (charAt pfid 17) ;;
  r3 <- decodeChar (charAt pfid 18) ;;
  r4 <- decodeChar (charAt pfid 19) ;;
  r5 <- decodeChar (charAt pfid 20) ;;
  r6 <- decodeChar (charAt pfid 21) ;;
  r7 <- decodeChar (charAt pfid 22) ;;
  r8 <- decodeChar (charAt pfid 23) ;;
  r9 <- decodeChar (charAt pfid 24) ;;
  r10 <- decodeChar (charAt pfid 25) ;;
  r11 <- decodeChar (charAt pfid 26) ;;
  r12 <- decodeChar (charAt pfid 27) ;;
  r13 <- decodeChar (charAt pfid 28) ;;
  r14 <- decodeChar (charAt pfid 29) ;;
  r15 <- decodeChar (charAt pfid 30) ;;
  r16 <- decodeChar (charAt pfid 31) ;;
  let st := (Buffer_alloc 20 0, 0) in
  (* timestamp: 3 + 5*9 = 48 bits *)
  let st := writeBits t1 3 st in
  let st := writeBits t2 5 st in
  let st := writeBits t3 5 st in
  let st := writeBits t4 5 st in
  let st := writeBits t5 5 st in
  let st := writeBits t6 5 st in
  let st := writeBits t7 5 st in
  let st := writeBits t8 5 st in
  let st := writeBits t9 5 st in
  let st := writeBits t10 5 st in
  (* 2 padding bits (0) *)
  let st := writeBits 0 2 st in
  (* partition: 5*6 = 30 bits *)
  let st := writeBits p1 5 st in
  let st := writeBits p2 5 st in
  let st := writeBits p3 5 st in
  let st := writeBits p4 5 st in
  let st := writeBits p5 5 st in
  let st := writeBits p6 5 st in
  (* randomness: 5*16 = 80 bits *)
  let st := writeBits r1 5 st in
  let st := writeBits r2 5 st in
  let st := writeBits r3 5 st in
  let st := writeBits r4 5 st in
  let st := writeBits r5 5 st in
  let st := writeBits r6 5 st in
  let st := writeBits r7 5 st in
  let st := writeBits r8 5 st in
  let st := writeBits r9 5 st in
  let st := writeBits r10 5 st in
  let st := writeBits r11 5 st in
  let st := writeBits r12 5 st in
  let st := writeBits r13 5 st in
  let st := writeBits r14 5 st in
  let st := writeBits r15 5 st in
  let st := writeBits r16 5 st in
  ret (fst st).

(** [decodePartition]: the six partition characters to the 30-bit value. *)
Definition decodePartition (partitionStr : jsstring) : Result Partition :=
  if negb (length partitionStr =? 6)%nat then Failure invalid_partition
  else
    let attempt : throws Partition :=
      p1 <- decodeChar (charAt partitionStr 0) ;;
      p2 <- decodeChar (charAt partitionStr 1) ;;
      p3 <- decodeChar (charAt partitionStr 2) ;;
      p4 <- decodeChar (charAt partitionStr 3) ;;
      p5 <- decodeChar (charAt partitionStr 4) ;;
      p6 <- decodeChar (charAt partitionStr 5) ;;
      let buffer := Buffer_allocUnsafe 4 in
      let buffer := set buffer 0 (bor (bor (shl 0 6) (shl p1 1)) (shr p2 4)) in
      let buffer := set buffer 1 (bor (shl (band p2 15) 4) (shr p3 1)) in
      let buffer := set buffer 2 (bor (bor (shl (band p3 1) 7) (shl p4 2)) (shr p5 3)) in
      let buffer := set buffer 3 (bor (shl (band p5 7) 5) (shr p6 0)) in
      ret (band (readUInt32BE buffer 0) 1073741823)
    in
    match attempt with
    | inr partition => Ok partition
    | inl _ => Failure invalid_partition
    end.

(** ** Public entry points *)

(** [generateWithTimestamp]; both guards run before the binary is built
    and before [unsafeEncode] is called. *)
Definition generateWithTimestamp
    (partition timestamp : number) (random : Buffer) : throws Pfid :=
  if negb (isValidPartition partition) then throw InvalidPartition
  else if negb (isValidTimestamp timestamp) then throw InvalidTimestamp
  else
    binary <- generateBinaryWithTimestamp partition timestamp random ;;
    ret (unsafeEncode binary).

(** [encode]: the argument is a buffer by its type; [unsafeEncode] raises
    nothing, so the [catch] branch has no counterpart. *)
Definition encode (binary : BinaryPfid) : Result Pfid :=
  if negb (length binary =? 20)%nat then Failure invalid_binary
  else
    let encoded := unsafeEncode binary in
    if isPfid encoded then Ok encoded else Failure invalid_binary.

Definition decode (pfid : jsstring) : Result BinaryPfid :=
  if negb (length pfid =? 32)%nat then Failure invalid_pfid
  else if firstOutOfRange pfid then Failure invalid_pfid
  else
    match unsafeDecode pfid with
    | inr binary => Ok binary
    | inl _ => Failure invalid_pfid
    end.

Definition extractPartition (pfid : jsstring) : Result Partition :=
  if negb (isPfid pfid) then Failure invalid_pfid
  else
    let partitionStr := substring pfid 10 16 in
    match decodePartition partitionStr with
    | Ok value => Ok value
    | Failure _ => Failure invalid_pfid
    end.

(** ** The remaining generators

    [now] is what [Date.now()] returned, an integral number of
    milliseconds; [random] is what [randomBytes] returned. *)

(** What a call may throw: a plain [Error] of [pfid.ts], or a [PfidError]. *)
Inductive thrown : Type :=
| ThrownError (e : exn)
| ThrownPfidError (code : PfidErrorCode).

Definition generateBinary (partition : number) (now : Z) (random : Buffer)
  : throws BinaryPfid :=
  if negb (isValidPartition partition) then throw InvalidPartition
  else
    let timestamp := Integral now in
    generateBinaryWithTimestamp partition timestamp random.

Definition generate (partition : number) (now : Z) (random : Buffer)
  : throws Pfid :=
  if negb (isValidPartition partition) then throw InvalidPartition
  else
    binary <- generateBinary partition now random ;;
    ret (unsafeEncode binary).

Definition generateExample (random : Buffer) : throws Pfid :=
  generateWithTimestamp (Integral 123456789) (Integral 1234567890000) random.

(** [extractPartitionOrThrow]: the value, or the [PfidError] thrown. *)
Definition extractPartitionOrThrow (pfid : jsstring) : PfidErrorCode + Partition :=
  match extractPartition pfid with
  | Ok value => inr value
  | Failure error => inl error
  end.

(** [generatePartition]; [random] is what [randomBytes(4)] returned. *)
Definition generatePartition (random : Buffer) : Partition :=
  let buffer := random in
  let buffer := set buffer 0 (band (get buffer 0) 63) in
  let partition := band (readUInt32BE buffer 0) 1073741823 in
  partition.

(** [generateRelated]: the argument [extractPartitionOrThrow(existingPfid)]
    is evaluated first, then [generate]. *)
Definition generateRelated (existingPfid : jsstring) (now : Z) (random : Buffer)
  : thrown + Pfid :=
  match extractPartitionOrThrow existingPfid with
  | inl code => inl (ThrownPfidError code)
  | inr partition =>
      match generate (Integral partition) now random with
      | inl e => inl (ThrownError e)
      | inr pfid => inr pfid
      end
  end.

(** [generateRoot]; [random4] is what [randomBytes(4)] returned inside
    [generatePartition]. *)
Definition generateRoot (random4 : Buffer) (now : Z) (random : Buffer)
  : throws Pfid :=
  generate (Integral (generatePartition random4)) now random.

(** * Notions used by the verification *)

(** Bit [k] of a buffer, counted from the most significant bit of byte 0:
    the bit that the cursor addresses at [bitOffset = k]. *)
Definition tb (b : Buffer) (k : Z) : bool :=
  Z.testbit (get b (k / 8)) (7 - k mod 8).

(** The value [readBits(n)] returns at cursor position [off]. *)
Definition rd (b : Buffer) (off : Z) (n : nat) : Z := fst (readBits b n off).

(** ** Sequences of fields
    Both directions of the codec run the cursor over the same sequence of
    bit fields.  A field is a value with its width; the text layout is ten
    timestamp fields, two padding bits, and twenty-two five-bit fields
    (six for the partition, sixteen for the randomness). *)

Definition field : Type := (Z * nat)%type.

Definition timestampWidths : list nat := [3; 5; 5; 5; 5; 5; 5; 5; 5; 5]%nat.
Definition tailWidths : list nat := repeat 5%nat 22.

Definition writeAll (fields : list field) (st : Buffer * Z) : Buffer * Z :=
  fold_left (fun st f => writeBits (fst f) (snd f) st) fields st.

Fixpoint widthSum (widths : list nat) : Z :=
  match widths with
  | [] => 0
  | n :: rest => Z.of_nat n + widthSum rest
  end.

Definition total (fields : list field) : Z := widthSum (map snd fields).

(** Bit [k] of the stream obtained by laying the fields end to end. *)
Fixpoint sbit (fields : list field) (k : Z) : bool :=
  match fields with
  | [] => false
  | (v, n) :: rest =>
      if k <? Z.of_nat n then Z.testbit v (Z.of_nat n - 1 - k)
      else sbit rest (k - Z.of_nat n)
  end.

(** The fields read from a buffer, cursor starting at [off]. *)
Fixpoint readFields (b : Buffer) (widths : list nat) (off : Z) : list field :=
  match widths with
  | [] => []
  | n :: rest => (rd b off n, n) :: readFields b rest (off + Z.of_nat n)
  end.

(** The fields [unsafeDecode] writes for the 32 decoded symbol values. *)
Definition fieldsOf (values : list Z) : list field :=
  combine (firstn 10 values) timestampWidths
  ++ [(0, 2%nat)]
  ++ combine (skipn 10 values) tailWidths.

Definition writable (fields : list field) : Prop :=
  Forall (fun f => 0 <= fst f < 2 ^ 31 /\ (snd f <= 31)%nat) fields.

Definition fitting (fields : list field) : Prop :=
  Forall (fun f => 0 <= fst f < 2 ^ Z.of_nat (snd f) /\ (snd f <= 31)%nat) fields.

Arguments rd : simpl never.
Arguments writeBits : simpl never.

(** The character of a symbol value, [ENCODE_CHARS[v]] for [0 <= v < 32]. *)
Definition symbol (v : Z) : codeunit := nth (Z.to_nat v) ENCODE_CHARS 0.

(** The value of a character that [decodeChar] accepts. *)
Definition valueOf (c : codeunit) : Z :=
  match lookup DECODE_MAP (toLowerCase c) with
  | Some v => v
  | None => 0
  end.

(** The 32 symbol values [unsafeEncode] reads from a buffer. *)
Definition values (b : Buffer) : list Z :=
  map fst (readFields b timestampWidths 0 ++ readFields b tailWidths 50).

(** The characters of a text decoded from left to right; the first
    failure is the one raised. *)
Fixpoint decodeAll (cs : jsstring) : throws (list Z) :=
  match cs with
  | [] => ret []
  | c :: rest =>
      v <- decodeChar (Some c) ;;
      vs <- decodeAll rest ;;
      ret (v :: vs)
  end.

(** The buffer with the two padding bits (the top two bits of byte 6)
    cleared. *)
Definition clearPadding (b : Buffer) : Buffer := set b 6 (Z.land (get b 6) 63).

(** The binary layout of the header comment of
    [generateBinaryWithTimestamp]: bytes 0-5 the timestamp, big-endian;
    bytes 6-9 the partition, big-endian; bytes 10-19 the randomness. *)
Definition packed (partition timestamp : Z) (random : Buffer) : Buffer :=
  [ (timestamp / 2 ^ 40) mod 256; (timestamp / 2 ^ 32) mod 256;
    (timestamp / 2 ^ 24) mod 256; (timestamp / 2 ^ 16) mod 256;
    (timestamp / 2 ^ 8) mod 256; timestamp mod 256;
    (partition / 2 ^ 24) mod 256; (partition / 2 ^ 16) mod 256;
    (partition / 2 ^ 8) mod 256; partition mod 256 ] ++ random.

(** The 48-bit big-endian integer in bytes 0-5. *)
Definition readTimestamp (b : Buffer) : Z :=
  get b 0 * 2 ^ 40 + get b 1 * 2 ^ 32 + get b 2 * 2 ^ 24
  + get b 3 * 2 ^ 16 + get b 4 * 2 ^ 8 + get b 5.

(** The partition read off the full decoding: bytes 6-9 of the decoded
    binary as a 32-bit big-endian integer, masked to its low 30 bits. *)
Definition partitionOfDecoded (pfid : jsstring) : Result Partition :=
  match decode pfid with
  | Ok binary => Ok (band (readUInt32BE binary 6) 1073741823)
  | Failure error => Failure error
  end.

(** Two outcomes agree when both are the same value or both are failures. *)
Definition sameOutcome {A} (x y : throws A) : Prop :=
  match x, y with
  | inr a, inr b => a = b
  | inl _, inl _ => True
  | _, _ => False
  end.

(** The buffer [unsafeDecode] builds for a text all of whose characters
    decode. *)
Definition decoded (s : jsstring) : Buffer :=
  fst (writeAll (fieldsOf (map valueOf s)) (Buffer_alloc 20 0, 0)).

(** ** Numbers, order and regions of the text *)

(** The number spelled by a sequence of fields, most significant first. *)
Fixpoint num (fields : list field) : Z :=
  match fields with
  | [] => 0
  | (v, n) :: rest => v * 2 ^ total rest + num rest
  end.

(** JavaScript's [a < b] on strings: code units compared from the left, a
    proper prefix being smaller. *)
Fixpoint string_ltb (a b : jsstring) : bool :=
  match a, b with
  | _, [] => false
  | [], _ :: _ => true
  | x :: a', y :: b' => (x <? y) || ((x =? y) && string_ltb a' b')
  end.

(** The widths of the partition fields and of the randomness fields, the
    two parts of [tailWidths]. *)
Definition partitionWidths : list nat := repeat 5%nat 6.
Definition randomWidths : list nat := repeat 5%nat 16.

(** The number a string spells in Crockford base 32, most significant
    character first. *)
Fixpoint base32 (cs : jsstring) : Z :=
  match cs with
  | [] => 0
  | c :: rest => valueOf c * 32 ^ Z.of_nat (length rest) + base32 rest
  end.

(** * Verification *)

(** ** 32-bit operators on small operands *)

Section Int32.

Lemma toInt32_small (z : Z) : - 2 ^ 31 <= z < 2 ^ 31 -> toInt32 z = z.
Proof.
  intros H. unfold toInt32.
  rewrite Z.mod_small by lia. lia.
Qed.

Lemma land_range (a b n : Z) :
  0 <= n -> 0 <= a -> 0 <= b < 2 ^ n -> 0 <= Z.land a b < 2 ^ n.
Proof.
  intros Hn Ha Hb.
  assert (H0 : 0 <= Z.land a b) by (apply Z.land_nonneg; lia).
  split; [exact H0|].
  destruct (Z.eq_dec (Z.land a b) 0) as [E|E]; [rewrite E; lia|].
  apply Z.log2_lt_pow2; [lia|].
  assert (Hb0 : b <> 0) by (intros ->; rewrite Z.land_0_r in E; lia).
  eapply Z.le_lt_trans; [apply Z.log2_land; lia|].
  eapply Z.le_lt_trans; [apply Z.le_min_r|].
  apply Z.log2_lt_pow2; lia.
Qed.

Lemma lor_range (a b n : Z) :
  0 <= n -> 0 <= a < 2 ^ n -> 0 <= b < 2 ^ n -> 0 <= Z.lor a b < 2 ^ n.
Proof.
  intros Hn Ha Hb.
  assert (H0 : 0 <= Z.lor a b) by (apply Z.lor_nonneg; lia).
  split; [exact H0|].
  destruct (Z.eq_dec (Z.lor a b) 0) as [E|E]; [rewrite E; lia|].
  apply Z.log2_lt_pow2; [lia|].
  rewrite Z.log2_lor by lia.
  destruct (Z.eq_dec a 0) as [->|Ha0]; destruct (Z.eq_dec b 0) as [->|Hb0];
    try (rewrite Z.lor_0_l in E); try (rewrite Z.lor_0_r in E); try lia.
  - rewrite Z.max_r by (apply Z.log2_nonneg). apply Z.log2_lt_pow2; lia.
  - rewrite Z.max_l by (apply Z.log2_nonneg). apply Z.log2_lt_pow2; lia.
  - apply Z.max_lub_lt; apply Z.log2_lt_pow2; lia.
Qed.

Lemma band_small (a b : Z) :
  0 <= a < 2 ^ 31 -> 0 <= b < 2 ^ 31 -> band a b = Z.land a b.
Proof.
  intros Ha Hb. unfold band. rewrite !toInt32_small by lia. reflexivity.
Qed.

Lemma bor_small (a b : Z) :
  0 <= a < 2 ^ 31 -> 0 <= b < 2 ^ 31 -> bor a b = Z.lor a b.
Proof.
  intros Ha Hb. unfold bor. rewrite !toInt32_small by lia. reflexivity.
Qed.

Lemma shr_small (a n : Z) :
  0 <= a < 2 ^ 31 -> 0 <= n < 32 -> shr a n = Z.shiftr a n.
Proof.
  intros Ha Hn. unfold shr.
  rewrite toInt32_small by lia. rewrite Z.mod_small by lia. reflexivity.
Qed.

Lemma shl_small (a n m : Z) :
  0 <= n -> 0 <= m -> n + m <= 31 -> 0 <= a < 2 ^ m ->
  shl a n = Z.shiftl a n /\ 0 <= Z.shiftl a n < 2 ^ (m + n).
Proof.
  intros Hn Hm Hnm Ha.
  assert (Hp : 2 ^ m <= 2 ^ 31) by (apply Z.pow_le_mono_r; lia).
  assert (Hq : 2 ^ (m + n) <= 2 ^ 31) by (apply Z.pow_le_mono_r; lia).
  assert (Hs : 0 <= Z.shiftl a n < 2 ^ (m + n)).
  { rewrite Z.shiftl_mul_pow2 by lia. rewrite Z.pow_add_r by lia.
    assert (0 < 2 ^ n) by (apply Z.pow_pos_nonneg; lia). nia. }
  split; [|exact Hs].
  unfold shl. rewrite (toInt32_small a) by lia.
  rewrite Z.mod_small by lia. apply toInt32_small. lia.
Qed.

Lemma shiftr_range (a n m : Z) :
  0 <= n -> 0 <= a < 2 ^ m -> 0 <= Z.shiftr a n < 2 ^ m.
Proof.
  intros Hn Ha. rewrite Z.shiftr_div_pow2 by lia.
  assert (0 < 2 ^ n) by (apply Z.pow_pos_nonneg; lia).
  split; [apply Z.div_pos; lia|].
  apply Z.div_lt_upper_bound; nia.
Qed.

(** A non-negative number below [2 ^ n] has no bit at or above [n]. *)
Lemma testbit_above (a n j : Z) :
  0 <= n -> 0 <= a < 2 ^ n -> n <= j -> Z.testbit a j = false.
Proof.
  intros Hn Ha Hj.
  destruct (Z.eq_dec a 0) as [->|E]; [apply Z.testbit_0_l|].
  apply Z.bits_above_log2; [lia|].
  assert (Z.log2 a < n) by (apply Z.log2_lt_pow2; lia). lia.
Qed.

(** Conversely, a number all of whose bits lie below [n] is below [2 ^ n]. *)
Lemma bits_bound (a n : Z) :
  0 <= n -> 0 <= a -> (forall j, n <= j -> Z.testbit a j = false) -> a < 2 ^ n.
Proof.
  intros Hn Ha H.
  destruct (Z.eq_dec a 0) as [->|E]; [apply Z.pow_pos_nonneg; lia|].
  apply Z.log2_lt_pow2; [lia|].
  destruct (Z_lt_le_dec (Z.log2 a) n) as [L|L]; [exact L|].
  specialize (H (Z.log2 a) L).
  rewrite Z.bit_log2 in H by lia. discriminate.
Qed.

(** The bit extracted by [(x >> j) & 1]. *)
Lemma bit_extract (x j : Z) :
  0 <= x < 2 ^ 31 -> 0 <= j < 32 ->
  band (shr x j) 1 = Z.b2z (Z.testbit x j).
Proof.
  intros Hx Hj. rewrite shr_small by lia.
  assert (Hr : 0 <= Z.shiftr x j < 2 ^ 31) by (apply shiftr_range; lia).
  rewrite band_small by lia.
  change 1 with (Z.ones 1). rewrite Z.land_ones by lia.
  rewrite Z.shiftr_div_pow2 by lia.
  change (2 ^ 1) with 2. rewrite Z.testbit_spec' by lia. reflexivity.
Qed.

End Int32.

(** ** Buffers and their bits *)

Section Buffers.

Lemma get_range (b : Buffer) (i : Z) : bytes b -> 0 <= get b i < 256.
Proof.
  intros Hb. unfold get. destruct (i <? 0); [lia|].
  destruct (nth_in_or_default (Z.to_nat i) b 0) as [H|H].
  - unfold bytes in Hb. rewrite Forall_forall in Hb. apply Hb, H.
  - rewrite H. lia.
Qed.

Lemma length_set_nth (b : Buffer) (i : nat) (v : Z) :
  length (set_nth b i v) = length b.
Proof.
  revert i. induction b as [|x b IH]; intros [|i]; simpl; auto.
Qed.

Lemma length_set (b : Buffer) (i v : Z) : length (set b i v) = length b.
Proof.
  unfold set. destruct (i <? 0); [reflexivity|apply length_set_nth].
Qed.

Lemma nth_set_nth_same (b : Buffer) (i : nat) (v : Z) :
  (i < length b)%nat -> nth i (set_nth b i v) 0 = v.
Proof.
  revert i. induction b as [|x b IH]; intros [|i] H; simpl in *; try lia.
  apply IH. lia.
Qed.

Lemma nth_set_nth_other (b : Buffer) (i j : nat) (v : Z) :
  i <> j -> nth j (set_nth b i v) 0 = nth j b 0.
Proof.
  revert i j. induction b as [|x b IH]; intros [|i] [|j] H; simpl; auto.
  contradiction.
Qed.

Lemma get_set_same (b : Buffer) (i v : Z) :
  0 <= i < Z.of_nat (length b) -> get (set b i v) i = v mod 256.
Proof.
  intros H. unfold get, set.
  destruct (i <? 0) eqn:E; [apply Z.ltb_lt in E; lia|].
  apply nth_set_nth_same. lia.
Qed.

Lemma get_set_other (b : Buffer) (i j v : Z) :
  0 <= j -> i <> j -> get (set b i v) j = get b j.
Proof.
  intros Hj Hij. unfold get, set.
  destruct (j <? 0) eqn:E; [apply Z.ltb_lt in E; lia|].
  destruct (i <? 0) eqn:E'; [reflexivity|].
  apply Z.ltb_ge in E'. apply nth_set_nth_other. lia.
Qed.

Lemma bytes_set_nth (b : Buffer) (i : nat) (v : Z) :
  0 <= v < 256 -> bytes b -> bytes (set_nth b i v).
Proof.
  intros Hv. revert i. induction b as [|x b IH]; intros [|i] Hb; simpl; auto.
  - inversion Hb; subst. constructor; assumption.
  - inversion Hb; subst. constructor; [assumption|]. apply IH. assumption.
Qed.

Lemma bytes_set (b : Buffer) (i v : Z) : bytes b -> bytes (set b i v).
Proof.
  intros Hb. unfold set. destruct (i <? 0); [exact Hb|].
  apply bytes_set_nth; [|exact Hb]. apply Z.mod_pos_bound. lia.
Qed.

Lemma bytes_repeat (x : Z) (n : nat) : 0 <= x < 256 -> bytes (repeat x n).
Proof.
  intros Hx. induction n; simpl; constructor; assumption.
Qed.

Lemma get_repeat_0 (n : nat) (i : Z) : get (repeat 0 n) i = 0.
Proof.
  unfold get. destruct (i <? 0); [reflexivity|].
  generalize (Z.to_nat i) as j. induction n; intros [|j]; simpl; auto.
Qed.

Lemma tb_alloc_0 (n : nat) (k : Z) : tb (Buffer_alloc n 0) k = false.
Proof.
  unfold tb, Buffer_alloc. change (0 mod 256) with 0.
  rewrite get_repeat_0. apply Z.testbit_0_l.
Qed.

(** Bytes are determined by their eight bits, buffers by all of theirs. *)
Lemma byte_ext (x y : Z) :
  0 <= x < 256 -> 0 <= y < 256 ->
  (forall j, 0 <= j < 8 -> Z.testbit x j = Z.testbit y j) -> x = y.
Proof.
  intros Hx Hy H. apply Z.bits_inj'. intros j Hj.
  destruct (Z_lt_le_dec j 8) as [L|L]; [apply H; lia|].
  rewrite (testbit_above x 8 j), (testbit_above y 8 j) by lia. reflexivity.
Qed.

Lemma tb_byte (b : Buffer) (i j : Z) :
  0 <= i -> 0 <= j < 8 -> Z.testbit (get b i) j = tb b (8 * i + (7 - j)).
Proof.
  intros Hi Hj. unfold tb.
  replace ((8 * i + (7 - j)) / 8) with i
    by (apply Z.div_unique with (r := 7 - j); lia).
  replace ((8 * i + (7 - j)) mod 8) with (7 - j)
    by (apply Z.mod_unique with (q := i); lia).
  f_equal. lia.
Qed.

Lemma buffer_ext (b b' : Buffer) :
  bytes b -> bytes b' -> length b = length b' ->
  (forall k, 0 <= k < 8 * Z.of_nat (length b) -> tb b k = tb b' k) ->
  b = b'.
Proof.
  intros Hb Hb' Hlen H.
  apply nth_ext with (d := 0) (d' := 0); [exact Hlen|].
  intros n Hn.
  assert (G : forall c : Buffer, nth n c 0 = get c (Z.of_nat n)).
  { intros c. unfold get.
    destruct (Z.of_nat n <? 0) eqn:E; [apply Z.ltb_lt in E; lia|].
    rewrite Nat2Z.id. reflexivity. }
  rewrite !G.
  apply byte_ext; try (apply get_range; assumption).
  intros j Hj. rewrite !tb_byte by lia. apply H. lia.
Qed.

(** One iteration of [writeBits]: or-ing a single bit into the buffer. *)
Lemma tb_set_bit (buf : Buffer) (off : Z) (bit : bool) (k : Z) :
  bytes buf -> 0 <= off < 8 * Z.of_nat (length buf) -> 0 <= k ->
  tb (set buf (off / 8)
        (bor (get buf (off / 8)) (shl (Z.b2z bit) (7 - Z.rem off 8)))) k
  = if k =? off then tb buf k || bit else tb buf k.
Proof.
  intros Hb Hoff Hk.
  rewrite Z.rem_mod_nonneg by lia.
  pose proof (get_range buf (off / 8) Hb) as Hx.
  pose proof (Z.mod_pos_bound off 8 ltac:(lia)) as Hm.
  pose proof (Z.mod_pos_bound k 8 ltac:(lia)) as Hm'.
  assert (Hbit : 0 <= Z.b2z bit < 2 ^ 1) by (destruct bit; simpl; lia).
  destruct (shl_small (Z.b2z bit) (7 - off mod 8) 1) as [Hs Hsr]; try lia.
  assert (Hp : 2 ^ (1 + (7 - off mod 8)) <= 2 ^ 8)
    by (apply Z.pow_le_mono_r; lia).
  rewrite Hs, bor_small by lia.
  pose proof (lor_range (get buf (off / 8))
                (Z.shiftl (Z.b2z bit) (7 - off mod 8)) 8) as Hl.
  specialize (Hl ltac:(lia) ltac:(lia) ltac:(lia)).
  assert (Hidx : 0 <= off / 8 < Z.of_nat (length buf)).
  { split; [apply Z.div_pos; lia|apply Z.div_lt_upper_bound; lia]. }
  unfold tb at 1.
  destruct (Z.eq_dec (k / 8) (off / 8)) as [E|E].
  - rewrite E, get_set_same by exact Hidx.
    rewrite Z.mod_small by (change (2 ^ 8) with 256 in Hl; lia).
    rewrite Z.lor_spec, Z.shiftl_spec by lia.
    unfold tb. rewrite E.
    destruct (Z.eqb_spec k off) as [->|N].
    + replace (7 - off mod 8 - (7 - off mod 8)) with 0 by lia.
      rewrite Z.b2z_bit0. reflexivity.
    + assert (k mod 8 <> off mod 8).
      { intros C. apply N.
        rewrite (Z.div_mod k 8), (Z.div_mod off 8) by lia. lia. }
      destruct (Z_lt_le_dec (7 - k mod 8 - (7 - off mod 8)) 0) as [L|L].
      * rewrite (Z.testbit_neg_r _ _ L). apply orb_false_r.
      * rewrite (testbit_above (Z.b2z bit) 1) by lia. apply orb_false_r.
  - rewrite get_set_other by (try apply Z.div_pos; lia).
    destruct (Z.eqb_spec k off) as [->|N]; [contradiction|]. reflexivity.
Qed.

End Buffers.

(** ** The cursor loops *)

Section Cursor.

Lemma readBits_loop_spec (b : Buffer) (n : nat) :
  bytes b ->
  forall value off m,
    0 <= off -> 0 <= m -> m + Z.of_nat n <= 31 -> 0 <= value < 2 ^ m ->
    snd (readBits_loop b n value off) = off + Z.of_nat n
    /\ 0 <= fst (readBits_loop b n value off) < 2 ^ (m + Z.of_nat n)
    /\ forall j, 0 <= j ->
         Z.testbit (fst (readBits_loop b n value off)) j
         = if j <? Z.of_nat n then tb b (off + Z.of_nat n - 1 - j)
           else Z.testbit value (j - Z.of_nat n).
Proof.
  intros Hb. induction n as [|n IH]; intros value off m Hoff Hm Hmn Hv.
  - simpl. rewrite !Z.add_0_r. repeat split; try lia.
    intros j Hj. destruct (Z.ltb_spec j 0); [lia|].
    rewrite Z.sub_0_r. reflexivity.
  - cbn [readBits_loop].
    pose proof (get_range b (off / 8) Hb) as Hx.
    pose proof (Z.mod_pos_bound off 8 ltac:(lia)) as Hmod.
    rewrite Z.rem_mod_nonneg by lia.
    rewrite bit_extract by lia.
    fold (tb b off).
    assert (Hp : 2 ^ m <= 2 ^ 30) by (apply Z.pow_le_mono_r; lia).
    assert (Hp' : 2 ^ (m + 1) <= 2 ^ 31) by (apply Z.pow_le_mono_r; lia).
    destruct (shl_small value 1 m) as [Hs Hsr]; try lia.
    assert (Hbit : 0 <= Z.b2z (tb b off) < 2 ^ (m + 1)).
    { assert (2 ^ 0 <= 2 ^ m) by (apply Z.pow_le_mono_r; lia).
      rewrite Z.pow_add_r by lia. change (2 ^ 0) with 1 in *.
      destruct (tb b off); simpl; lia. }
    rewrite Hs, bor_small by lia.
    pose proof (lor_range (Z.shiftl value 1) (Z.b2z (tb b off)) (m + 1)
                  ltac:(lia) Hsr Hbit) as Hl.
    destruct (IH (Z.lor (Z.shiftl value 1) (Z.b2z (tb b off))) (off + 1) (m + 1))
      as (IH1 & IH2 & IH3); try lia.
    rewrite Nat2Z.inj_succ.
    split; [lia|]. split.
    { replace (m + Z.succ (Z.of_nat n)) with (m + 1 + Z.of_nat n) by lia.
      exact IH2. }
    intros j Hj. rewrite IH3 by lia.
    destruct (Z.ltb_spec j (Z.of_nat n)) as [L|L].
    + destruct (Z.ltb_spec j (Z.succ (Z.of_nat n))); [|lia].
      f_equal. lia.
    + rewrite Z.lor_spec.
      destruct (Z.ltb_spec j (Z.succ (Z.of_nat n))) as [L'|L'].
      * replace (j - Z.of_nat n) with 0 by lia.
        rewrite Z.shiftl_spec_low by lia. rewrite Z.b2z_bit0.
        simpl. f_equal. lia.
      * rewrite Z.shiftl_spec by lia.
        rewrite (testbit_above (Z.b2z (tb b off)) 1) by
          (try (destruct (tb b off); simpl); lia).
        rewrite orb_false_r. f_equal. lia.
Qed.

(** [readBits] on a well-formed buffer: the cursor advances by [n], the
    value is below [2 ^ n], and its bits are the [n] buffer bits from the
    cursor on, most significant first. *)
Lemma readBits_eq (b : Buffer) (n : nat) (off : Z) :
  bytes b -> 0 <= off -> (n <= 31)%nat ->
  readBits b n off = (rd b off n, off + Z.of_nat n).
Proof.
  intros Hb Hoff Hn. unfold rd, readBits.
  destruct (readBits_loop_spec b n Hb 0 off 0) as (H1 & _); try lia.
  rewrite <- H1. destruct (readBits_loop b n 0 off); reflexivity.
Qed.

Lemma rd_range (b : Buffer) (n : nat) (off : Z) :
  bytes b -> 0 <= off -> (n <= 31)%nat -> 0 <= rd b off n < 2 ^ Z.of_nat n.
Proof.
  intros Hb Hoff Hn. unfold rd, readBits.
  destruct (readBits_loop_spec b n Hb 0 off 0) as (_ & H2 & _); try lia.
  exact H2.
Qed.

Lemma rd_testbit (b : Buffer) (n : nat) (off j : Z) :
  bytes b -> 0 <= off -> (n <= 31)%nat -> 0 <= j ->
  Z.testbit (rd b off n) j
  = (j <? Z.of_nat n) && tb b (off + Z.of_nat n - 1 - j).
Proof.
  intros Hb Hoff Hn Hj. unfold rd, readBits.
  destruct (readBits_loop_spec b n Hb 0 off 0) as (_ & _ & H3); try lia.
  rewrite H3 by lia.
  destruct (j <? Z.of_nat n); [reflexivity|apply Z.testbit_0_l].
Qed.

Lemma writeBits_loop_spec (value : Z) (n : nat) :
  0 <= value < 2 ^ 31 -> (n <= 31)%nat ->
  forall buf off,
    bytes buf -> 0 <= off -> off + Z.of_nat n <= 8 * Z.of_nat (length buf) ->
    snd (writeBits_loop value n (buf, off)) = off + Z.of_nat n
    /\ bytes (fst (writeBits_loop value n (buf, off)))
    /\ length (fst (writeBits_loop value n (buf, off))) = length buf
    /\ forall k, 0 <= k ->
         tb (fst (writeBits_loop value n (buf, off))) k
         = if (off <=? k) && (k <? off + Z.of_nat n)
           then tb buf k || Z.testbit value (Z.of_nat n - 1 - (k - off))
           else tb buf k.
Proof.
  intros Hv. induction n as [|n IH]; intros Hn buf off Hb Hoff Hlen.
  - simpl. rewrite Z.add_0_r. repeat split; auto.
    intros k Hk.
    destruct (Z.leb_spec off k); destruct (Z.ltb_spec k off); simpl; auto; lia.
  - cbn [writeBits_loop].
    rewrite bit_extract by lia.
    set (buf' := set buf (off / 8) _).
    assert (Hb' : bytes buf') by (apply bytes_set; exact Hb).
    assert (Hl' : length buf' = length buf) by apply length_set.
    destruct (IH ltac:(lia) buf' (off + 1)) as (IH1 & IH2 & IH3 & IH4);
      try assumption; try lia.
    rewrite Nat2Z.inj_succ.
    split; [lia|]. split; [exact IH2|]. split; [congruence|].
    intros k Hk. rewrite IH4 by lia.
    unfold buf'. rewrite tb_set_bit by (try assumption; lia).
    replace (Z.succ (Z.of_nat n) - 1 - (k - off))
      with (Z.of_nat n - (k - off)) by lia.
    replace (Z.of_nat n - 1 - (k - (off + 1)))
      with (Z.of_nat n - (k - off)) by lia.
    destruct (Z.eqb_spec k off) as [->|N].
    + destruct (Z.leb_spec (off + 1) off); [lia|].
      destruct (Z.leb_spec off off); [|lia].
      destruct (Z.ltb_spec off (off + Z.succ (Z.of_nat n))); [|lia].
      simpl. do 2 f_equal. lia.
    + destruct (Z.leb_spec (off + 1) k); destruct (Z.leb_spec off k); try lia;
        destruct (Z.ltb_spec k (off + 1 + Z.of_nat n));
        destruct (Z.ltb_spec k (off + Z.succ (Z.of_nat n))); try lia;
        reflexivity.
Qed.

End Cursor.

Section Fields.

Lemma widthSum_nonneg (ws : list nat) : 0 <= widthSum ws.
Proof. induction ws; simpl; lia. Qed.

Lemma total_app (f1 f2 : list field) : total (f1 ++ f2) = total f1 + total f2.
Proof.
  unfold total. induction f1 as [|f f1 IH]; simpl; [reflexivity|].
  rewrite IH. lia.
Qed.

Lemma total_readFields (b : Buffer) (ws : list nat) (off : Z) :
  total (readFields b ws off) = widthSum ws.
Proof.
  unfold total. revert off. induction ws as [|n ws IH]; intros off; simpl;
    [reflexivity|]. rewrite IH. reflexivity.
Qed.

Lemma fitting_writable (fs : list field) : fitting fs -> writable fs.
Proof.
  unfold fitting, writable. intros H.
  eapply Forall_impl; [|exact H]. cbv beta. intros [v n] [Hv Hn]. simpl in *.
  split; [|exact Hn].
  assert (2 ^ Z.of_nat n <= 2 ^ 31) by (apply Z.pow_le_mono_r; lia). lia.
Qed.

Lemma sbit_beyond (fs : list field) (k : Z) :
  total fs <= k -> sbit fs k = false.
Proof.
  unfold total. revert k. induction fs as [|[v n] fs IH]; intros k Hk;
    simpl in *; [reflexivity|].
  pose proof (widthSum_nonneg (map snd fs)).
  destruct (Z.ltb_spec k (Z.of_nat n)); [lia|]. apply IH. lia.
Qed.

Lemma sbit_app (f1 f2 : list field) (k : Z) :
  0 <= k ->
  sbit (f1 ++ f2) k
  = if k <? total f1 then sbit f1 k else sbit f2 (k - total f1).
Proof.
  unfold total. revert k. induction f1 as [|[v n] f1 IH]; intros k Hk; simpl.
  - destruct (Z.ltb_spec k 0); [lia|]. f_equal. lia.
  - pose proof (widthSum_nonneg (map snd f1)).
    destruct (Z.ltb_spec k (Z.of_nat n)).
    + destruct (Z.ltb_spec k (Z.of_nat n + widthSum (map snd f1))); [|lia].
      reflexivity.
    + rewrite IH by lia.
      destruct (Z.ltb_spec (k - Z.of_nat n) (widthSum (map snd f1)));
        destruct (Z.ltb_spec k (Z.of_nat n + widthSum (map snd f1)));
        try lia; [reflexivity|]. f_equal. lia.
Qed.

(** Writing a sequence of fields lays their bits end to end from the
    cursor on, and touches nothing else. *)
Lemma writeAll_spec (fs : list field) :
  writable fs ->
  forall buf off,
    bytes buf -> 0 <= off -> off + total fs <= 8 * Z.of_nat (length buf) ->
    snd (writeAll fs (buf, off)) = off + total fs
    /\ bytes (fst (writeAll fs (buf, off)))
    /\ length (fst (writeAll fs (buf, off))) = length buf
    /\ forall k, 0 <= k ->
         tb (fst (writeAll fs (buf, off))) k
         = if (off <=? k) && (k <? off + total fs)
           then tb buf k || sbit fs (k - off)
           else tb buf k.
Proof.
  unfold total.
  induction fs as [|[v n] fs IH]; intros Hw buf off Hb Hoff Hlen.
  - simpl. rewrite Z.add_0_r. repeat split; auto.
    intros k Hk. rewrite orb_false_r. destruct (_ && _); reflexivity.
  - inversion Hw as [|? ? [Hv Hn] Hw']; subst.
    cbn [fst snd] in Hv, Hn. cbn [map snd widthSum] in Hlen.
    pose proof (widthSum_nonneg (map snd fs)) as Hs.
    destruct (writeBits_loop_spec v n Hv Hn buf off Hb Hoff)
      as (W1 & W2 & W3 & W4); [lia|].
    change (writeAll ((v, n) :: fs) (buf, off))
      with (writeAll fs (writeBits_loop v n (buf, off))).
    cbn [map snd widthSum].
    rewrite (surjective_pairing (writeBits_loop v n (buf, off))), W1.
    destruct (IH Hw' (fst (writeBits_loop v n (buf, off))) (off + Z.of_nat n))
      as (I1 & I2 & I3 & I4); try assumption; try lia.
    split; [lia|]. split; [exact I2|]. split; [congruence|].
    intros k Hk. rewrite I4, W4 by lia. cbn [sbit].
    destruct (Z.leb_spec off k); destruct (Z.leb_spec (off + Z.of_nat n) k);
      destruct (Z.ltb_spec k (off + Z.of_nat n));
      destruct (Z.ltb_spec k (off + Z.of_nat n + widthSum (map snd fs)));
      destruct (Z.ltb_spec k (off + (Z.of_nat n + widthSum (map snd fs))));
      destruct (Z.ltb_spec (k - off) (Z.of_nat n));
      try lia; cbn [andb]; try reflexivity.
    f_equal. f_equal. lia.
Qed.

(** The buffer [unsafeDecode] builds: from an all-zero buffer, its bits
    are exactly the stream of the fields. *)
Lemma writeAll_fresh (fs : list field) :
  writable fs -> total fs <= 160 ->
  bytes (fst (writeAll fs (Buffer_alloc 20 0, 0)))
  /\ length (fst (writeAll fs (Buffer_alloc 20 0, 0))) = 20%nat
  /\ forall k, 0 <= k ->
       tb (fst (writeAll fs (Buffer_alloc 20 0, 0))) k = sbit fs k.
Proof.
  intros Hw Ht.
  destruct (writeAll_spec fs Hw (Buffer_alloc 20 0) 0) as (_ & H2 & H3 & H4).
  - apply bytes_repeat. change (0 mod 256) with 0. lia.
  - lia.
  - unfold Buffer_alloc. rewrite repeat_length. lia.
  - split; [exact H2|]. split.
    + rewrite H3. apply repeat_length.
    + intros k Hk. rewrite H4 by lia. rewrite tb_alloc_0, Z.sub_0_r.
      destruct (Z.leb_spec 0 k); [|lia].
      destruct (Z.ltb_spec k (0 + total fs)); cbn [andb orb]; [reflexivity|].
      symmetry. apply sbit_beyond. lia.
Qed.

(** Reading back: the stream of the fields read from a buffer is the
    buffer's own bit sequence. *)
Lemma sbit_readFields (b : Buffer) (ws : list nat) :
  bytes b -> Forall (fun n => (n <= 31)%nat) ws ->
  forall off k,
    0 <= off -> 0 <= k < widthSum ws ->
    sbit (readFields b ws off) k = tb b (off + k).
Proof.
  intros Hb Hws. induction Hws as [|n ws Hn Hws IH]; intros off k Hoff Hk;
    simpl in *; [lia|].
  destruct (Z.ltb_spec k (Z.of_nat n)).
  - rewrite rd_testbit by (try assumption; lia).
    destruct (Z.ltb_spec (Z.of_nat n - 1 - k) (Z.of_nat n)); [|lia].
    simpl. f_equal. lia.
  - rewrite IH by lia. f_equal. lia.
Qed.

(** Reading what was written: if the buffer's bits from [off] on are the
    stream of fields that fit their widths, the cursor reads those very
    fields. *)
Lemma readFields_written (buf : Buffer) (fs : list field) :
  bytes buf -> fitting fs ->
  forall off,
    0 <= off ->
    (forall k, 0 <= k < total fs -> tb buf (off + k) = sbit fs k) ->
    readFields buf (map snd fs) off = fs.
Proof.
  unfold total.
  intros Hb Hf. induction Hf as [|[v n] fs [Hv Hn] Hf IH]; intros off Hoff H;
    simpl in *; [reflexivity|].
  pose proof (widthSum_nonneg (map snd fs)) as Hs.
  f_equal.
  - f_equal. apply Z.bits_inj'. intros j Hj.
    rewrite rd_testbit by (try assumption; lia).
    destruct (Z.ltb_spec j (Z.of_nat n)) as [L|L]; simpl.
    + replace (off + Z.of_nat n - 1 - j) with (off + (Z.of_nat n - 1 - j))
        by lia.
      rewrite H by lia.
      destruct (Z.ltb_spec (Z.of_nat n - 1 - j) (Z.of_nat n)); [|lia].
      f_equal. lia.
    + symmetry. apply testbit_above with (n := Z.of_nat n); lia.
  - apply IH; [lia|]. intros k Hk.
    replace (off + Z.of_nat n + k) with (off + (Z.of_nat n + k)) by lia.
    rewrite H by lia.
    destruct (Z.ltb_spec (Z.of_nat n + k) (Z.of_nat n)); [lia|].
    f_equal. lia.
Qed.

End Fields.

(** ** The alphabet *)

Section Alphabet.

(** Case analysis on a symbol value. *)
Lemma symbol_cases (P : Z -> Prop) :
  (forall n : nat, (n < 32)%nat -> P (Z.of_nat n)) ->
  forall v, 0 <= v < 32 -> P v.
Proof.
  intros H v Hv. rewrite <- (Z2Nat.id v) by lia. apply H. lia.
Qed.

Ltac each_symbol n Hn tac :=
  do 32 (destruct n as [|n]; [tac|]); exfalso; lia.

Lemma encodeChar_symbol (v : Z) : 0 <= v < 32 -> encodeChar v = [symbol v].
Proof.
  revert v. apply symbol_cases. intros n Hn.
  each_symbol n Hn ltac:(reflexivity).
Qed.

Lemma decodeChar_symbol (v : Z) :
  0 <= v < 32 -> decodeChar (Some (symbol v)) = inr v.
Proof.
  revert v. apply symbol_cases. intros n Hn.
  each_symbol n Hn ltac:(reflexivity).
Qed.

Lemma valueOf_symbol (v : Z) : 0 <= v < 32 -> valueOf (symbol v) = v.
Proof.
  revert v. apply symbol_cases. intros n Hn.
  each_symbol n Hn ltac:(reflexivity).
Qed.

Lemma symbol_lower (v : Z) :
  0 <= v < 32 -> inClass (lit "0123456789abcdefghjkmnpqrstvwxyz") (symbol v) = true.
Proof.
  revert v. apply symbol_cases. intros n Hn.
  each_symbol n Hn ltac:(reflexivity).
Qed.

Lemma symbol_octal (v : Z) :
  0 <= v < 8 ->
  inClass (lit "01234567") (symbol v) = true
  /\ code "0" <= symbol v <= code "7".
Proof.
  intros Hv. rewrite <- (Z2Nat.id v) by lia.
  assert (Hn : (Z.to_nat v < 8)%nat) by lia.
  revert Hn. generalize (Z.to_nat v) as n. intros n Hn.
  do 8 (destruct n as [|n]; [vm_compute; intuition discriminate|]).
  exfalso; lia.
Qed.

Lemma inClass_In (members : jsstring) (c : codeunit) :
  inClass members c = true <-> In c members.
Proof.
  unfold inClass. rewrite existsb_exists. split.
  - intros (x & Hx & E). apply Z.eqb_eq in E. subst. exact Hx.
  - intros H. exists c. split; [exact H|apply Z.eqb_refl].
Qed.

(** Every member of the lower-case class is the character of a symbol. *)
Lemma lower_symbol (c : codeunit) :
  inClass (lit "0123456789abcdefghjkmnpqrstvwxyz") c = true ->
  0 <= valueOf c < 32 /\ symbol (valueOf c) = c
  /\ decodeChar (Some c) = inr (valueOf c).
Proof.
  intros H. apply inClass_In in H.
  apply (In_nth _ _ 0) in H. destruct H as (n & Hn & <-).
  change (length _) with 32%nat in Hn.
  each_symbol n Hn ltac:(vm_compute; intuition congruence).
Qed.

Lemma octal_symbol (c : codeunit) :
  inClass (lit "01234567") c = true -> 0 <= valueOf c < 8.
Proof.
  intros H. apply inClass_In in H.
  apply (In_nth _ _ 0) in H. destruct H as (n & Hn & <-).
  change (length _) with 8%nat in Hn.
  do 8 (destruct n as [|n]; [vm_compute; intuition congruence|]).
  exfalso; lia.
Qed.

Lemma flat_map_encodeChar (vs : list Z) :
  Forall (fun v => 0 <= v < 32) vs ->
  flat_map encodeChar vs = map symbol vs.
Proof.
  induction 1 as [|v vs Hv _ IH]; simpl; [reflexivity|].
  rewrite encodeChar_symbol, IH by exact Hv. reflexivity.
Qed.

Lemma map_valueOf_symbol (vs : list Z) :
  Forall (fun v => 0 <= v < 32) vs -> map valueOf (map symbol vs) = vs.
Proof.
  induction 1 as [|v vs Hv _ IH]; simpl; [reflexivity|].
  rewrite valueOf_symbol, IH by exact Hv. reflexivity.
Qed.

Lemma map_symbol_valueOf (cs : jsstring) :
  Forall (fun c => inClass (lit "0123456789abcdefghjkmnpqrstvwxyz") c = true) cs ->
  map symbol (map valueOf cs) = cs.
Proof.
  induction 1 as [|c cs Hc _ IH]; simpl; [reflexivity|].
  destruct (lower_symbol c Hc) as (_ & -> & _). rewrite IH. reflexivity.
Qed.

(** A text made of symbol characters, the first one below 8, is valid. *)
Lemma isPfid_symbols (vs : list Z) :
  length vs = 32%nat ->
  Forall (fun v => 0 <= v < 32) vs ->
  0 <= hd 0 vs < 8 ->
  isPfid (map symbol vs) = true.
Proof.
  intros Hlen Hvs Hhd.
  destruct vs as [|v0 rest]; [discriminate|]. simpl in Hhd.
  inversion Hvs as [|? ? Hv0 Hrest]; subst.
  destruct (symbol_octal v0 Hhd) as [Ho Hr].
  unfold isPfid. rewrite length_map, Hlen. cbn [Nat.eqb negb].
  unfold firstOutOfRange. cbn [map charAt Z.ltb Z.compare Z.to_nat nth_error].
  destruct (Z.ltb_spec (symbol v0) (code "0")); [lia|].
  destruct (Z.ltb_spec (code "7") (symbol v0)); [lia|].
  cbn [orb validPattern_test]. rewrite Ho, length_map.
  simpl in Hlen. injection Hlen as ->. cbn [Nat.eqb andb].
  apply forallb_forall. intros c Hc. apply in_map_iff in Hc.
  destruct Hc as (v & <- & Hv). apply symbol_lower.
  rewrite Forall_forall in Hrest. apply Hrest, Hv.
Qed.

(** What a valid text is made of. *)
Lemma isPfid_inv (s : jsstring) :
  isPfid s = true ->
  length s = 32%nat
  /\ Forall (fun c => inClass (lit "0123456789abcdefghjkmnpqrstvwxyz") c = true) s
  /\ inClass (lit "01234567") (hd 0 s) = true.
Proof.
  unfold isPfid. destruct (Nat.eqb_spec (length s) 32) as [Hlen|]; [|discriminate].
  cbn [negb]. destruct (firstOutOfRange s); [discriminate|].
  destruct s as [|c rest]; [discriminate|]. cbn [validPattern_test hd].
  intros H. apply andb_true_iff in H. destruct H as [H Hall].
  apply andb_true_iff in H. destruct H as [Hc _].
  split; [exact Hlen|]. split; [|exact Hc].
  constructor.
  - apply inClass_In. apply inClass_In in Hc.
    revert Hc. apply incl_Forall_in_iff.
    repeat (constructor; [vm_compute; tauto|]). constructor.
  - apply Forall_forall. rewrite forallb_forall in Hall. exact Hall.
Qed.

End Alphabet.

(** ** The straight-line code, as field sequences *)

Section Bridge.

Lemma widths_ok :
  Forall (fun n => (n <= 31)%nat) timestampWidths
  /\ Forall (fun n => (n <= 31)%nat) tailWidths.
Proof.
  split; unfold timestampWidths, tailWidths; cbn [repeat];
    repeat (constructor; [lia|]); constructor.
Qed.

Lemma fitting_readFields (b : Buffer) (ws : list nat) :
  bytes b -> Forall (fun n => (n <= 31)%nat) ws ->
  forall off, 0 <= off -> fitting (readFields b ws off).
Proof.
  intros Hb Hws. unfold fitting.
  induction Hws as [|n ws Hn _ IH]; intros off Hoff; simpl; constructor.
  - cbn [fst snd]. split; [apply rd_range; assumption|exact Hn].
  - apply IH. lia.
Qed.

Lemma unsafeEncode_eq (b : Buffer) :
  bytes b -> unsafeEncode b = flat_map encodeChar (values b).
Proof.
  intros Hb. unfold unsafeEncode. cbv zeta.
  repeat (rewrite readBits_eq by (first [exact Hb | lia]); cbv beta iota).
  unfold values, timestampWidths, tailWidths.
  cbn [repeat readFields app map fst flat_map].
  rewrite app_nil_r. reflexivity.
Qed.

Lemma values_length (b : Buffer) : length (values b) = 32%nat.
Proof. reflexivity. Qed.

Lemma values_range (b : Buffer) :
  bytes b ->
  Forall (fun v => 0 <= v < 32) (values b) /\ 0 <= hd 0 (values b) < 8.
Proof.
  intros Hb. destruct widths_ok as [W1 W2]. split.
  - unfold values. rewrite map_app. apply Forall_app.
    pose proof (fitting_readFields b _ Hb W1 0 ltac:(lia)) as F1.
    pose proof (fitting_readFields b _ Hb W2 50 ltac:(lia)) as F2.
    assert (G : forall fs, fitting fs ->
                Forall (fun f => (snd f <= 5)%nat) fs ->
                Forall (fun v => 0 <= v < 32) (map fst fs)).
    { intros fs Hf. induction Hf as [|[v n] fs [Hv _] _ IH]; intros Hs;
        simpl; constructor.
      - inversion Hs; subst. cbn [fst snd] in *.
        assert (2 ^ Z.of_nat n <= 2 ^ 5) by (apply Z.pow_le_mono_r; lia). lia.
      - apply IH. inversion Hs; assumption. }
    split; apply G; try assumption;
      unfold timestampWidths, tailWidths; cbn [repeat readFields];
      repeat (constructor; [cbn [snd]; lia|]); constructor.
  - change (hd 0 (values b)) with (rd b 0 3).
    apply (rd_range b 3 0); [exact Hb|lia|lia].
Qed.

Lemma fieldsOf_values (b : Buffer) :
  fieldsOf (values b)
  = readFields b timestampWidths 0 ++ [(0, 2%nat)] ++ readFields b tailWidths 50.
Proof. reflexivity. Qed.

(** [unsafeDecode] on a 32-character text: the characters are decoded
    from left to right, the first failure is raised, and otherwise the
    fields are written. *)
Lemma unsafeDecode_decodeAll (cs : jsstring) :
  length cs = 32%nat ->
  unsafeDecode cs
  = (vs <- decodeAll cs ;;
     ret (fst (writeAll (fieldsOf vs) (Buffer_alloc 20 0, 0)))).
Proof.
  intros Hlen.
  do 32 (destruct cs as [|? cs]; [discriminate|]).
  destruct cs; [|discriminate]. clear Hlen.
  unfold unsafeDecode.
  repeat match goal with
         | |- context [charAt ?l ?i] =>
             let r := eval vm_compute in (charAt l i) in
             change (charAt l i) with r
         end.
  cbn [decodeAll].
  do 32 (match goal with
         | |- context [decodeChar (Some ?c)] =>
             destruct (decodeChar (Some c)) as [?|?];
             cbn [bind]; [reflexivity|]
         end).
  unfold fieldsOf, timestampWidths, tailWidths, writeAll, ret.
  cbn [map firstn skipn combine repeat app fold_left fst snd bind].
  reflexivity.
Qed.

Lemma decodeAll_inr (cs : jsstring) (vs : list Z) :
  Forall2 (fun c v => decodeChar (Some c) = inr v) cs vs ->
  decodeAll cs = inr vs.
Proof.
  induction 1 as [|c v cs vs E _ IH]; cbn [decodeAll]; [reflexivity|].
  rewrite E, IH. reflexivity.
Qed.

Lemma decodeAll_inv (cs : jsstring) (vs : list Z) :
  decodeAll cs = inr vs ->
  Forall2 (fun c v => decodeChar (Some c) = inr v) cs vs.
Proof.
  revert vs. induction cs as [|c cs IH]; intros vs; cbn [decodeAll].
  - intros E. injection E as <-. constructor.
  - destruct (decodeChar (Some c)) as [e|v] eqn:E; [discriminate|].
    cbn [bind]. destruct (decodeAll cs) as [e|vs'] eqn:E'; [discriminate|].
    cbn [bind]. intros H. injection H as <-.
    constructor; [exact E|]. apply IH. reflexivity.
Qed.

(** [unsafeDecode] on 32 characters that all decode. *)
Lemma unsafeDecode_eq (cs : jsstring) :
  length cs = 32%nat ->
  Forall (fun c => decodeChar (Some c) = inr (valueOf c)) cs ->
  unsafeDecode cs
  = inr (fst (writeAll (fieldsOf (map valueOf cs)) (Buffer_alloc 20 0, 0))).
Proof.
  intros Hlen HF. rewrite unsafeDecode_decodeAll by exact Hlen.
  rewrite (decodeAll_inr cs (map valueOf cs)); [reflexivity|].
  clear Hlen. induction HF; cbn [map]; constructor; assumption.
Qed.

End Bridge.

(** ** The two round trips *)

Section RoundTrips.

Lemma isPfid_first (s : jsstring) : isPfid s = true -> firstOutOfRange s = false.
Proof.
  unfold isPfid. destruct (negb _); [discriminate|].
  destruct (firstOutOfRange s); [discriminate|reflexivity].
Qed.

Lemma tb_clearPadding (b : Buffer) (k : Z) :
  bytes b -> length b = 20%nat -> 0 <= k ->
  tb (clearPadding b) k = if (48 <=? k) && (k <? 50) then false else tb b k.
Proof.
  intros Hb Hlen Hk. unfold clearPadding, tb.
  pose proof (get_range b 6 Hb) as Hx.
  pose proof (Z.mod_pos_bound k 8 ltac:(lia)) as Hm.
  pose proof (Z.div_mod k 8 ltac:(lia)) as Hd.
  destruct (Z.eq_dec (k / 8) 6) as [E|E].
  - rewrite E, get_set_same by (rewrite Hlen; lia).
    pose proof (land_range (get b 6) 63 8 ltac:(lia) ltac:(lia) ltac:(lia)) as Hl.
    rewrite Z.mod_small by (change (2 ^ 8) with 256 in Hl; lia).
    rewrite Z.land_spec. change 63 with (Z.ones 6).
    rewrite Z.testbit_ones_nonneg by lia.
    destruct (Z.leb_spec 48 k); [|lia].
    destruct (Z.ltb_spec k 50); destruct (Z.ltb_spec (7 - k mod 8) 6);
      try lia; cbn [andb]; [apply andb_false_r|apply andb_true_r].
  - rewrite get_set_other by (try apply Z.div_pos; lia).
    destruct (Z.leb_spec 48 k); destruct (Z.ltb_spec k 50);
      cbn [andb]; try reflexivity. lia.
Qed.

Lemma bytes_clearPadding (b : Buffer) : bytes b -> bytes (clearPadding b).
Proof. apply bytes_set. Qed.

(** A buffer whose byte 6 is below 64 has no padding bit set. *)
Lemma clearPadding_id (b : Buffer) :
  bytes b -> length b = 20%nat -> get b 6 < 64 -> clearPadding b = b.
Proof.
  intros Hb Hlen H6.
  apply buffer_ext; [apply bytes_clearPadding, Hb|exact Hb|apply length_set|].
  intros k Hk. rewrite tb_clearPadding by (try assumption; lia).
  destruct (Z.leb_spec 48 k); destruct (Z.ltb_spec k 50);
    cbn [andb]; try reflexivity.
  unfold tb.
  replace (k / 8) with 6 by (apply Z.div_unique with (r := k - 48); lia).
  symmetry. apply testbit_above with (n := 6).
  - lia.
  - pose proof (get_range b 6 Hb). change (2 ^ 6) with 64. lia.
  - replace (k mod 8) with (k - 48)
      by (apply Z.mod_unique with (q := 6); lia). lia.
Qed.

Lemma fieldsOf_values_writable (b : Buffer) :
  bytes b -> writable (fieldsOf (values b)) /\ total (fieldsOf (values b)) = 160.
Proof.
  intros Hb. destruct widths_ok as [W1 W2]. rewrite fieldsOf_values. split.
  - apply fitting_writable. unfold fitting.
    apply Forall_app; split; [|apply Forall_app; split].
    + apply (fitting_readFields b _ Hb W1 0). lia.
    + constructor; [cbn; lia|constructor].
    + apply (fitting_readFields b _ Hb W2 50). lia.
  - rewrite !total_app, !total_readFields. reflexivity.
Qed.

(** Decoding the text of a 20-byte buffer gives the buffer back, padding
    bits cleared. *)
Lemma unsafeDecode_unsafeEncode (b : Buffer) :
  bytes b -> length b = 20%nat ->
  unsafeEncode b = map symbol (values b)
  /\ isPfid (unsafeEncode b) = true
  /\ unsafeDecode (unsafeEncode b) = inr (clearPadding b).
Proof.
  intros Hb Hlen.
  destruct (values_range b Hb) as [Hr Hhd].
  destruct widths_ok as [W1 W2].
  assert (E : unsafeEncode b = map symbol (values b)).
  { rewrite unsafeEncode_eq by exact Hb. apply flat_map_encodeChar, Hr. }
  split; [exact E|]. split.
  { rewrite E. apply isPfid_symbols; [apply values_length|exact Hr|exact Hhd]. }
  rewrite E, unsafeDecode_eq.
  - rewrite map_valueOf_symbol by exact Hr. f_equal.
    destruct (fieldsOf_values_writable b Hb) as [Hw Ht].
    destruct (writeAll_fresh (fieldsOf (values b)) Hw ltac:(lia))
      as (R1 & R2 & R3).
    apply buffer_ext;
      [exact R1|apply bytes_clearPadding, Hb
      |unfold clearPadding; rewrite length_set; congruence|].
    rewrite R2. intros k Hk.
    rewrite R3, tb_clearPadding by (try assumption; lia).
    rewrite fieldsOf_values, sbit_app, total_readFields by lia.
    change (widthSum timestampWidths) with 48.
    destruct (Z.ltb_spec k 48).
    + rewrite sbit_readFields by (try assumption; change (widthSum timestampWidths) with 48; lia).
      destruct (Z.leb_spec 48 k); [lia|]. reflexivity.
    + cbn [app sbit Z.of_nat Pos.of_succ_nat Pos.succ].
      destruct (Z.leb_spec 48 k); [|lia].
      destruct (Z.ltb_spec (k - 48) 2); destruct (Z.ltb_spec k 50);
        try lia; cbn [andb].
      * apply Z.testbit_0_l.
      * rewrite sbit_readFields
          by (try assumption; change (widthSum tailWidths) with 110; lia).
        f_equal. lia.
  - rewrite length_map. apply values_length.
  - apply Forall_forall. intros c Hc. apply in_map_iff in Hc.
    destruct Hc as (v & <- & Hv). rewrite Forall_forall in Hr.
    rewrite valueOf_symbol by (apply Hr, Hv).
    apply decodeChar_symbol, Hr, Hv.
Qed.

Lemma fitting_combine (vs : list Z) (ws : list nat) (n : nat) :
  (n <= 31)%nat ->
  Forall (fun v => 0 <= v < 2 ^ Z.of_nat n) vs ->
  Forall (fun w => w = n) ws ->
  fitting (combine vs ws).
Proof.
  intros Hn Hvs. revert ws. unfold fitting.
  induction Hvs as [|v vs Hv _ IH]; intros ws Hws; [constructor|].
  destruct ws as [|w ws]; [constructor|].
  inversion Hws; subst. simpl. constructor; [split; assumption|].
  apply IH. assumption.
Qed.

Lemma map_snd_combine (vs : list Z) (ws : list nat) :
  (length ws <= length vs)%nat -> map snd (combine vs ws) = ws.
Proof.
  revert ws. induction vs as [|v vs IH]; intros [|w ws] H; simpl in *;
    try reflexivity; try lia.
  rewrite IH by lia. reflexivity.
Qed.

Lemma map_fst_combine (vs : list Z) (ws : list nat) :
  (length vs <= length ws)%nat -> map fst (combine vs ws) = vs.
Proof.
  revert ws. induction vs as [|v vs IH]; intros [|w ws] H; simpl in *;
    try reflexivity; try lia.
  rewrite IH by lia. reflexivity.
Qed.

Lemma Forall_take {A} (P : A -> Prop) (n : nat) (l : list A) :
  Forall P l -> Forall P (firstn n l).
Proof.
  intros H. revert n. induction H; intros [|n]; simpl; constructor; auto.
Qed.

Lemma Forall_drop {A} (P : A -> Prop) (n : nat) (l : list A) :
  Forall P l -> Forall P (skipn n l).
Proof.
  intros H. revert n. induction H; intros [|n]; simpl; auto.
Qed.

End RoundTrips.

Section TextRoundTrip.

Variable s : jsstring.
Hypothesis Hvalid : isPfid s = true.

Lemma valid_values :
  length (map valueOf s) = 32%nat
  /\ Forall (fun v => 0 <= v < 32) (map valueOf s)
  /\ 0 <= hd 0 (map valueOf s) < 8.
Proof.
  destruct (isPfid_inv s Hvalid) as (Hlen & Hall & Hhd).
  split; [rewrite length_map; exact Hlen|]. split.
  - apply Forall_forall. intros v Hv. apply in_map_iff in Hv.
    destruct Hv as (c & <- & Hc). rewrite Forall_forall in Hall.
    apply lower_symbol, Hall, Hc.
  - destruct s as [|c rest]; [discriminate|]. simpl in *.
    apply octal_symbol, Hhd.
Qed.

Lemma valid_fields :
  fitting (combine (firstn 10 (map valueOf s)) timestampWidths)
  /\ fitting (combine (skipn 10 (map valueOf s)) tailWidths)
  /\ map snd (combine (firstn 10 (map valueOf s)) timestampWidths) = timestampWidths
  /\ map snd (combine (skipn 10 (map valueOf s)) tailWidths) = tailWidths.
Proof.
  destruct valid_values as (Hlen & Hr & Hhd).
  assert (F5 : forall l, Forall (fun v => 0 <= v < 32) l ->
               Forall (fun v => 0 <= v < 2 ^ Z.of_nat 5) l)
    by (intros l; apply Forall_impl; intros v; cbn; lia).
  repeat split.
  - destruct (map valueOf s) as [|v0 rest]; [discriminate|].
    inversion Hr; subst. cbn [hd] in Hhd.
    change (firstn 10 (v0 :: rest)) with (v0 :: firstn 9 rest).
    unfold timestampWidths. cbn [combine].
    constructor; [cbn; lia|].
    apply fitting_combine with (n := 5%nat); [lia| |repeat constructor].
    apply F5, Forall_take. assumption.
  - apply fitting_combine with (n := 5%nat); [lia| |].
    + apply F5, Forall_drop, Hr.
    + unfold tailWidths. apply Forall_forall. intros w Hw.
      apply repeat_spec in Hw. exact Hw.
  - apply map_snd_combine. rewrite length_firstn, Hlen. cbn. lia.
  - apply map_snd_combine. rewrite length_skipn, Hlen. cbn. lia.
Qed.

Lemma valid_buffer :
  bytes (decoded s) /\ length (decoded s) = 20%nat
  /\ forall k, 0 <= k -> tb (decoded s) k = sbit (fieldsOf (map valueOf s)) k.
Proof.
  destruct valid_fields as (F1 & F2 & S1 & S2).
  apply writeAll_fresh.
  - apply fitting_writable. unfold fieldsOf, fitting.
    apply Forall_app; split; [exact F1|]. apply Forall_app; split; [|exact F2].
    constructor; [cbn; lia|constructor].
  - unfold fieldsOf, total. rewrite !map_app, S1, S2. cbn. lia.
Qed.

(** The cursor reads from [(decoded s)] the symbol values it was built from. *)
Lemma values_valid : values (decoded s) = map valueOf s.
Proof.
  destruct valid_values as (Hlen & Hr & Hhd).
  destruct valid_fields as (F1 & F2 & S1 & S2).
  destruct valid_buffer as (B1 & B2 & B3).
  assert (T1 : total (combine (firstn 10 (map valueOf s)) timestampWidths) = 48)
    by (unfold total; rewrite S1; reflexivity).
  assert (T2 : total (combine (skipn 10 (map valueOf s)) tailWidths) = 110)
    by (unfold total; rewrite S2; reflexivity).
  unfold values.
  rewrite <- S1 at 1. rewrite <- S2 at 1.
  rewrite !readFields_written; try assumption; try lia.
  - rewrite map_app, !map_fst_combine.
    + apply firstn_skipn.
    + rewrite length_skipn, Hlen. cbn. lia.
    + rewrite length_firstn, Hlen. cbn. lia.
  - intros k Hk. rewrite T2 in Hk. rewrite B3 by lia. unfold fieldsOf.
    rewrite sbit_app, T1 by lia.
    destruct (Z.ltb_spec (50 + k) 48); [lia|].
    cbn [app sbit Z.of_nat Pos.of_succ_nat Pos.succ].
    destruct (Z.ltb_spec (50 + k - 48) 2); [lia|]. f_equal. lia.
  - intros k Hk. rewrite T1 in Hk. rewrite B3 by lia. unfold fieldsOf.
    rewrite sbit_app, T1 by lia.
    destruct (Z.ltb_spec (0 + k) 48); [|lia]. f_equal.
Qed.

Lemma unsafeDecode_valid : unsafeDecode s = inr (decoded s).
Proof.
  destruct (isPfid_inv s Hvalid) as (Hlen & Hall & _).
  apply unsafeDecode_eq; [exact Hlen|].
  eapply Forall_impl; [|exact Hall]. intros c Hc. apply lower_symbol, Hc.
Qed.

Lemma unsafeEncode_valid : unsafeEncode (decoded s) = s.
Proof.
  destruct (isPfid_inv s Hvalid) as (_ & Hall & _).
  destruct valid_values as (_ & Hr & _).
  destruct valid_buffer as (B1 & _).
  rewrite unsafeEncode_eq by exact B1.
  rewrite values_valid, flat_map_encodeChar by exact Hr.
  apply map_symbol_valueOf, Hall.
Qed.

(** Decoding a valid text succeeds, and encoding the result gives the
    text back. *)
Lemma encode_decode_valid :
  decode s = Ok (decoded s) /\ bytes (decoded s) /\ length (decoded s) = 20%nat /\ encode (decoded s) = Ok s.
Proof.
  destruct (isPfid_inv s Hvalid) as (Hlen & _).
  destruct valid_buffer as (B1 & B2 & _).
  split; [|split; [exact B1|split; [exact B2|]]].
  - unfold decode. rewrite Hlen, (isPfid_first s Hvalid), unsafeDecode_valid.
    reflexivity.
  - unfold encode. rewrite B2. cbn [Nat.eqb negb].
    rewrite unsafeEncode_valid, Hvalid. reflexivity.
Qed.

End TextRoundTrip.

(** ** The generator *)

Section Generator.

Lemma toInt32_range (t : Z) : - 2 ^ 31 <= toInt32 t < 2 ^ 31.
Proof.
  unfold toInt32. pose proof (Z.mod_pos_bound (t + 2 ^ 31) (2 ^ 32)). lia.
Qed.

Lemma toInt32_mod (t k : Z) :
  0 <= k <= 32 -> toInt32 t mod 2 ^ k = t mod 2 ^ k.
Proof.
  intros Hk. unfold toInt32.
  pose proof (Z.div_mod (t + 2 ^ 31) (2 ^ 32) ltac:(lia)) as E.
  assert (P : 2 ^ 32 = 2 ^ (32 - k) * 2 ^ k)
    by (rewrite <- Z.pow_add_r by lia; f_equal; lia).
  rewrite P in E at 1.
  set (q := (t + 2 ^ 31) / 2 ^ 32) in *.
  set (m := (t + 2 ^ 31) mod 2 ^ 32) in *.
  replace (m - 2 ^ 31) with (t + (- (2 ^ (32 - k) * q)) * 2 ^ k) by lia.
  apply Z.mod_add. apply Z.pow_nonzero; lia.
Qed.

Lemma band_255 (a : Z) : band a 255 = a mod 256.
Proof.
  unfold band. rewrite (toInt32_small 255) by lia.
  change 255 with (Z.ones 8). rewrite Z.land_ones by lia.
  apply (toInt32_mod a 8). lia.
Qed.

(** Byte [k / 8] of a number, as [(t >> k) & 0xff] computes it. *)
Lemma shr_mod (t k : Z) :
  0 <= k <= 24 -> shr t k mod 256 = (t / 2 ^ k) mod 256.
Proof.
  intros Hk. unfold shr.
  rewrite (Z.mod_small k 32) by lia. rewrite Z.shiftr_div_pow2 by lia.
  assert (Hp : 0 < 2 ^ k) by (apply Z.pow_pos_nonneg; lia).
  pose proof (Z.rem_mul_r (toInt32 t) (2 ^ k) 256 ltac:(lia) ltac:(lia)) as E1.
  pose proof (Z.rem_mul_r t (2 ^ k) 256 ltac:(lia) ltac:(lia)) as E2.
  replace (2 ^ k * 256) with (2 ^ (k + 8)) in E1, E2
    by (rewrite Z.pow_add_r by lia; reflexivity).
  rewrite (toInt32_mod t (k + 8)), (toInt32_mod t k) in E1 by lia. nia.
Qed.

Lemma writeUInt32BE_ok (buffer : Buffer) (value offset : Z) :
  0 <= value < 2 ^ 32 -> 0 <= offset ->
  offset + 4 <= Z.of_nat (length buffer) ->
  writeUInt32BE buffer value offset
  = inr (set (set (set (set buffer offset (Z.shiftr value 24))
                     (offset + 1) (Z.shiftr value 16))
                (offset + 2) (Z.shiftr value 8))
           (offset + 3) value).
Proof.
  intros Hv Ho Hl. unfold writeUInt32BE.
  destruct (Z.ltb_spec value 0); [lia|].
  destruct (Z.leb_spec (2 ^ 32) value); [lia|].
  destruct (Z.ltb_spec offset 0); [lia|].
  destruct (Z.ltb_spec (Z.of_nat (length buffer)) (offset + 4)); [lia|].
  reflexivity.
Qed.

Lemma valid_partition (p : Z) :
  isValidPartition (Integral p) = true <-> 0 <= p < 2 ^ 30.
Proof.
  unfold isValidPartition, MAX_PARTITION.
  rewrite andb_true_iff, Z.leb_le, Z.leb_le. change (2 ^ 30) with 1073741824. lia.
Qed.

Lemma valid_timestamp (t : Z) :
  isValidTimestamp (Integral t) = true <-> 0 <= t < 2 ^ 48.
Proof.
  unfold isValidTimestamp, MAX_TIMESTAMP.
  rewrite andb_true_iff, Z.leb_le, Z.leb_le.
  change (2 ^ 48) with 281474976710656. lia.
Qed.

(** On valid arguments the generator returns the documented layout. *)
Lemma generate_packed (p t : Z) (r : Buffer) :
  0 <= p < 2 ^ 30 -> 0 <= t < 2 ^ 48 -> length r = 10%nat -> bytes r ->
  generateBinaryWithTimestamp (Integral p) (Integral t) r = inr (packed p t r).
Proof.
  intros Hp Ht Hlen Hr.
  unfold generateBinaryWithTimestamp.
  rewrite (proj2 (valid_partition p) Hp), (proj2 (valid_timestamp t) Ht).
  cbn [negb].
  rewrite writeUInt32BE_ok;
    [|lia|lia|rewrite !length_set; cbn; lia].
  cbn [bind].
  do 10 (destruct r as [|? r]; [discriminate|]).
  destruct r; [|discriminate]. clear Hlen.
  cbn [copy].
  repeat match goal with
         | |- context [set ?l ?i ?v] =>
             lazymatch l with
             | context [set] => fail
             | _ => idtac
             end;
             let x := fresh "x" in
             remember (v mod 256) as x;
             change (set l i v)
               with (if i <? 0 then l else set_nth l (Z.to_nat i) (v mod 256));
             match goal with E : x = v mod 256 |- _ => rewrite <- E end;
             let i' := eval vm_compute in (Z.to_nat i) in
             let b' := eval vm_compute in (i <? 0) in
             change (Z.to_nat i) with i'; change (i <? 0) with b';
             cbv beta iota; cbn [set_nth Buffer_allocUnsafe repeat]
         end.
  unfold ret, packed. subst.
  rewrite !band_255, !Zmod_mod, !shr_mod by lia.
  rewrite !Z.shiftr_div_pow2 by lia.
  unfold bytes in Hr.
  repeat match goal with
         | H : Forall _ (_ :: _) |- _ =>
             let A := fresh "A" in
             apply Forall_cons_iff in H; destruct H as [A H];
             rewrite (Z.mod_small _ 256 A)
         end.
  reflexivity.
Qed.

End Generator.

Section Packed.

Variables (p t : Z) (r : Buffer).
Hypothesis Hp : 0 <= p < 2 ^ 30.
Hypothesis Ht : 0 <= t < 2 ^ 48.
Hypothesis Hlen : length r = 10%nat.
Hypothesis Hr : bytes r.

Lemma packed_length : length (packed p t r) = 20%nat.
Proof. unfold packed. rewrite length_app, Hlen. reflexivity. Qed.

Lemma packed_bytes : bytes (packed p t r).
Proof.
  unfold packed, bytes. apply Forall_app. split; [|exact Hr].
  repeat (constructor; [apply Z.mod_pos_bound; lia|]). constructor.
Qed.

Lemma packed_padding : get (packed p t r) 6 < 64.
Proof.
  change (get (packed p t r) 6) with ((p / 2 ^ 24) mod 256).
  assert (0 <= p / 2 ^ 24 < 64).
  { split; [apply Z.div_pos; lia|apply Z.div_lt_upper_bound; lia]. }
  rewrite Z.mod_small; lia.
Qed.

(** Bytes 6-9 hold the partition itself. *)
Lemma packed_partition : readUInt32BE (packed p t r) 6 = p.
Proof.
  change (readUInt32BE (packed p t r) 6)
    with ((p / 2 ^ 24) mod 256 * 2 ^ 24 + (p / 2 ^ 16) mod 256 * 2 ^ 16
          + (p / 2 ^ 8) mod 256 * 2 ^ 8 + p mod 256).
  pose proof (Z.div_mod p 256 ltac:(lia)) as E0.
  pose proof (Z.div_mod (p / 2 ^ 8) 256 ltac:(lia)) as E1.
  pose proof (Z.div_mod (p / 2 ^ 16) 256 ltac:(lia)) as E2.
  change 256 with (2 ^ 8) in E0 at 1 2. change 256 with (2 ^ 8) in E1 at 1 2.
  change 256 with (2 ^ 8) in E2 at 1 2.
  rewrite Z.div_div in E1, E2 by lia.
  change (2 ^ 8 * 2 ^ 8) with (2 ^ 16) in E1.
  change (2 ^ 16 * 2 ^ 8) with (2 ^ 24) in E2.
  assert (0 <= p / 2 ^ 24 < 256).
  { split; [apply Z.div_pos; lia|apply Z.div_lt_upper_bound; lia]. }
  rewrite (Z.mod_small (p / 2 ^ 24)) by lia. lia.
Qed.

(** Bytes 0-5 hold the timestamp itself. *)
Lemma packed_timestamp : readTimestamp (packed p t r) = t.
Proof.
  change (readTimestamp (packed p t r))
    with ((t / 2 ^ 40) mod 256 * 2 ^ 40 + (t / 2 ^ 32) mod 256 * 2 ^ 32
          + (t / 2 ^ 24) mod 256 * 2 ^ 24 + (t / 2 ^ 16) mod 256 * 2 ^ 16
          + (t / 2 ^ 8) mod 256 * 2 ^ 8 + t mod 256).
  pose proof (Z.div_mod t 256 ltac:(lia)) as E0.
  pose proof (Z.div_mod (t / 2 ^ 8) 256 ltac:(lia)) as E1.
  pose proof (Z.div_mod (t / 2 ^ 16) 256 ltac:(lia)) as E2.
  pose proof (Z.div_mod (t / 2 ^ 24) 256 ltac:(lia)) as E3.
  pose proof (Z.div_mod (t / 2 ^ 32) 256 ltac:(lia)) as E4.
  change 256 with (2 ^ 8) in E0 at 1 2. change 256 with (2 ^ 8) in E1 at 1 2.
  change 256 with (2 ^ 8) in E2 at 1 2. change 256 with (2 ^ 8) in E3 at 1 2.
  change 256 with (2 ^ 8) in E4 at 1 2.
  rewrite Z.div_div in E1, E2, E3, E4 by lia.
  change (2 ^ 8 * 2 ^ 8) with (2 ^ 16) in E1.
  change (2 ^ 16 * 2 ^ 8) with (2 ^ 24) in E2.
  change (2 ^ 24 * 2 ^ 8) with (2 ^ 32) in E3.
  change (2 ^ 32 * 2 ^ 8) with (2 ^ 40) in E4.
  assert (0 <= t / 2 ^ 40 < 256).
  { split; [apply Z.div_pos; lia|apply Z.div_lt_upper_bound; lia]. }
  rewrite (Z.mod_small (t / 2 ^ 40)) by lia. lia.
Qed.

Lemma packed_random : skipn 10 (packed p t r) = r.
Proof. reflexivity. Qed.

End Packed.

(** ** Bits of the 32-bit operators *)

Section Int32Bits.

Lemma toInt32_testbit (a j : Z) :
  0 <= j < 32 -> Z.testbit (toInt32 a) j = Z.testbit a j.
Proof.
  intros Hj.
  rewrite <- (Z.mod_pow2_bits_low (toInt32 a) 32 j) by lia.
  rewrite (toInt32_mod a 32) by lia.
  apply Z.mod_pow2_bits_low. lia.
Qed.

Lemma bor_testbit (a b j : Z) :
  0 <= j < 32 -> Z.testbit (bor a b) j = Z.testbit a j || Z.testbit b j.
Proof.
  intros Hj. unfold bor. rewrite Z.lor_spec, !toInt32_testbit by lia.
  reflexivity.
Qed.

Lemma band_testbit (a b j : Z) :
  0 <= j < 32 -> Z.testbit (band a b) j = Z.testbit a j && Z.testbit b j.
Proof.
  intros Hj. unfold band. rewrite Z.land_spec, !toInt32_testbit by lia.
  reflexivity.
Qed.

Lemma shl_testbit (a n j : Z) :
  0 <= n < 32 -> 0 <= j < 32 ->
  Z.testbit (shl a n) j = if j <? n then false else Z.testbit a (j - n).
Proof.
  intros Hn Hj. unfold shl. rewrite toInt32_testbit by lia.
  rewrite Z.mod_small by lia. rewrite Z.shiftl_spec by lia.
  destruct (Z.ltb_spec j n).
  - apply Z.testbit_neg_r. lia.
  - apply toInt32_testbit. lia.
Qed.

Lemma shr_testbit (a n j : Z) :
  0 <= n -> 0 <= j -> j + n < 32 ->
  Z.testbit (shr a n) j = Z.testbit a (j + n).
Proof.
  intros Hn Hj Hjn. unfold shr.
  rewrite Z.mod_small by lia. rewrite Z.shiftr_spec by lia.
  apply toInt32_testbit. lia.
Qed.

Lemma byte_testbit (a j : Z) :
  0 <= j < 8 -> Z.testbit (a mod 256) j = Z.testbit a j.
Proof.
  intros Hj. change 256 with (2 ^ 8). apply Z.mod_pow2_bits_low. lia.
Qed.

Lemma symbol_high_bits (v m : Z) :
  0 <= v < 32 -> 5 <= m -> Z.testbit v m = false.
Proof.
  intros Hv Hm. apply testbit_above with (n := 5); [lia|exact Hv|exact Hm].
Qed.

End Int32Bits.

(** ** The two ways to the partition *)

Section PartitionPaths.

Ltac high_bits :=
  repeat match goal with
         | H : 0 <= ?v < 32 |- context [Z.testbit ?v ?m] =>
             rewrite (symbol_high_bits v m H) by lia
         end.

(** Bytes 6-9 of the decoded binary are the four bytes [decodePartition]
    assembles from the six partition characters. *)
Lemma partition_bytes (buf : Buffer) (values : list Z) (p1 p2 p3 p4 p5 p6 : Z) :
  bytes buf ->
  (forall k, 0 <= k -> tb buf k = sbit (fieldsOf values) k) ->
  length values = 32%nat ->
  firstn 6 (skipn 10 values) = [p1; p2; p3; p4; p5; p6] ->
  0 <= p1 < 32 -> 0 <= p2 < 32 -> 0 <= p3 < 32 ->
  0 <= p4 < 32 -> 0 <= p5 < 32 -> 0 <= p6 < 32 ->
  get buf 6 = (bor (bor (shl 0 6) (shl p1 1)) (shr p2 4)) mod 256
  /\ get buf 7 = (bor (shl (band p2 15) 4) (shr p3 1)) mod 256
  /\ get buf 8 = (bor (bor (shl (band p3 1) 7) (shl p4 2)) (shr p5 3)) mod 256
  /\ get buf 9 = (bor (shl (band p5 7) 5) (shr p6 0)) mod 256.
Proof.
  intros Hb Htb Hlen Hps H1 H2 H3 H4 H5 H6.
  do 32 (destruct values as [|? values]; [discriminate|]).
  destruct values; [|discriminate]. clear Hlen.
  cbn [skipn firstn] in Hps. injection Hps as -> -> -> -> -> ->.
  assert (S : forall k, 48 <= k < 80 ->
            tb buf k
            = sbit [(0, 2%nat); (p1, 5%nat); (p2, 5%nat); (p3, 5%nat);
                    (p4, 5%nat); (p5, 5%nat); (p6, 5%nat)] (k - 48)).
  { intros k Hk. rewrite Htb by lia. unfold fieldsOf.
    rewrite sbit_app by lia.
    change (total (combine _ timestampWidths)) with 48.
    destruct (Z.ltb_spec k 48); [lia|].
    change (skipn 10 _) with
      (p1 :: p2 :: p3 :: p4 :: p5 :: p6 ::
       [z15; z16; z17; z18; z19; z20; z21; z22; z23; z24; z25; z26; z27; z28;
        z29; z30]).
    change ([(0, 2%nat)] ++ combine _ tailWidths)
      with ([(0, 2%nat); (p1, 5%nat); (p2, 5%nat); (p3, 5%nat);
             (p4, 5%nat); (p5, 5%nat); (p6, 5%nat)]
            ++ combine [z15; z16; z17; z18; z19; z20; z21; z22; z23; z24; z25;
                        z26; z27; z28; z29; z30] (repeat 5%nat 16)).
    rewrite sbit_app by lia.
    change (total [(0, 2%nat); (p1, 5%nat); (p2, 5%nat); (p3, 5%nat);
                   (p4, 5%nat); (p5, 5%nat); (p6, 5%nat)]) with 32.
    destruct (Z.ltb_spec (k - 48) 32); [reflexivity|lia]. }
  repeat split;
    (apply byte_ext;
     [ apply get_range, Hb
     | apply Z.mod_pos_bound; lia
     | intros j Hj; rewrite tb_byte by lia; rewrite S by lia ]).
  all: match goal with
       | Hj : 0 <= ?j < 8 |- _ =>
           assert (E : j = 0 \/ j = 1 \/ j = 2 \/ j = 3 \/ j = 4 \/ j = 5
                       \/ j = 6 \/ j = 7) by lia;
           clear Hj;
           destruct E as [->|[->|[->|[->|[->|[->|[->| ->]]]]]]]
       end.
  all: rewrite byte_testbit by lia.
  all: repeat first
         [ rewrite bor_testbit by lia
         | rewrite band_testbit by lia
         | rewrite shl_testbit by lia
         | rewrite shr_testbit by lia ].
  all: cbn -[Z.testbit].
  all: rewrite ?Z.testbit_0_l.
  all: high_bits.
  all: rewrite ?orb_false_r, ?andb_true_r, ?orb_false_l; reflexivity.
Qed.

End PartitionPaths.

Section Partition.

Lemma decodePartition_eq (c1 c2 c3 c4 c5 c6 : codeunit) (p1 p2 p3 p4 p5 p6 : Z) :
  decodeChar (Some c1) = inr p1 -> decodeChar (Some c2) = inr p2 ->
  decodeChar (Some c3) = inr p3 -> decodeChar (Some c4) = inr p4 ->
  decodeChar (Some c5) = inr p5 -> decodeChar (Some c6) = inr p6 ->
  decodePartition [c1; c2; c3; c4; c5; c6]
  = Ok (band (readUInt32BE
                [ (bor (bor (shl 0 6) (shl p1 1)) (shr p2 4)) mod 256;
                  (bor (shl (band p2 15) 4) (shr p3 1)) mod 256;
                  (bor (bor (shl (band p3 1) 7) (shl p4 2)) (shr p5 3)) mod 256;
                  (bor (shl (band p5 7) 5) (shr p6 0)) mod 256 ] 0)
          1073741823).
Proof.
  intros E1 E2 E3 E4 E5 E6. unfold decodePartition.
  cbn [length Nat.eqb negb].
  repeat match goal with
         | |- context [charAt ?l ?i] =>
             let r := eval vm_compute in (charAt l i) in
             change (charAt l i) with r
         end.
  rewrite E1, E2, E3, E4, E5, E6. cbn [bind]. reflexivity.
Qed.

Lemma readUInt32BE_four (a b c d : Z) :
  readUInt32BE [a; b; c; d] 0 = a * 2 ^ 24 + b * 2 ^ 16 + c * 2 ^ 8 + d.
Proof. reflexivity. Qed.

Lemma partitionOfDecoded_ok (s : jsstring) (b : Buffer) :
  decode s = Ok b ->
  partitionOfDecoded s = Ok (band (readUInt32BE b 6) 1073741823).
Proof.
  intros H. unfold partitionOfDecoded. rewrite H. reflexivity.
Qed.

Lemma mask30 (p : Z) : 0 <= p < 2 ^ 30 -> band p 1073741823 = p.
Proof.
  intros Hp. rewrite band_small by lia.
  change 1073741823 with (Z.ones 30). rewrite Z.land_ones by lia.
  apply Z.mod_small. exact Hp.
Qed.

(** On a valid text both ways succeed, with the same partition, and
    [extractPartition] returns it. *)
Lemma partition_of_valid (s : jsstring) :
  isPfid s = true ->
  exists p,
    decodePartition (substring s 10 16) = Ok p
    /\ partitionOfDecoded s = Ok p
    /\ extractPartition s = Ok p.
Proof.
  intros Hvalid.
  destruct (encode_decode_valid s Hvalid) as (Hdec & Hb & Hl & _).
  destruct (valid_buffer s Hvalid) as (_ & _ & Htb).
  destruct (valid_values s Hvalid) as (Hlen & Hr & _).
  destruct (isPfid_inv s Hvalid) as (Hlen' & Hall & _).
  set (buf := decoded s) in *.
  clearbody buf.
  do 32 (destruct s as [|? s]; [discriminate|]).
  destruct s; [|discriminate].
  repeat match goal with
         | H : Forall _ (_ :: _) |- _ =>
             let A := fresh "A" in
             apply Forall_cons_iff in H; destruct H as [A H]; try cbv beta in A
         end.
  destruct (partition_bytes buf _ (valueOf c9) (valueOf c10) (valueOf c11)
              (valueOf c12) (valueOf c13) (valueOf c14) Hb Htb Hlen eq_refl)
    as (B6 & B7 & B8 & B9);
    try (apply lower_symbol; assumption).
  eexists. split; [|split].
  - unfold substring. cbn [Nat.sub skipn firstn].
    apply decodePartition_eq; apply lower_symbol; assumption.
  - unfold partitionOfDecoded. rewrite Hdec. do 2 f_equal.
    rewrite readUInt32BE_four. unfold readUInt32BE.
    change (6 + 1) with 7. change (6 + 2) with 8. change (6 + 3) with 9.
    rewrite B6, B7, B8, B9. reflexivity.
  - unfold extractPartition. rewrite Hvalid. cbn [negb].
    unfold substring. cbn [Nat.sub skipn firstn].
    erewrite decodePartition_eq by (apply lower_symbol; assumption).
    reflexivity.
Qed.

End Partition.

(** ** Case and the alphabet *)

Section Case.

Lemma toLowerCase_idem (c : codeunit) :
  toLowerCase (toLowerCase c) = toLowerCase c.
Proof.
  unfold toLowerCase. change (code "A") with 65. change (code "Z") with 90.
  change (code "k") with 107.
  destruct (Z.leb_spec 65 c); destruct (Z.leb_spec c 90); cbn [andb];
    repeat match goal with
           | |- context [Z.leb ?a ?b] => destruct (Z.leb_spec a b); cbn [andb]
           | |- context [Z.eqb ?a ?b] => destruct (Z.eqb_spec a b)
           end; lia.
Qed.

Lemma firstOutOfRange_lower (s : jsstring) :
  firstOutOfRange (map toLowerCase s) = firstOutOfRange s.
Proof.
  destruct s as [|c rest]; [reflexivity|].
  unfold firstOutOfRange.
  change (charAt (map toLowerCase (c :: rest)) 0) with (Some (toLowerCase c)).
  change (charAt (c :: rest) 0) with (Some c).
  unfold toLowerCase. change (code "A") with 65. change (code "Z") with 90.
  change (code "k") with 107. change (code "0") with 48.
  change (code "7") with 55.
  destruct (Z.leb_spec 65 c); destruct (Z.leb_spec c 90); cbn [andb];
    try destruct (Z.eqb_spec c 8490);
    repeat match goal with
           | |- context [Z.ltb ?a ?b] => destruct (Z.ltb_spec a b)
           end; cbn [orb]; try reflexivity; lia.
Qed.

Lemma decodeChar_lower (c : codeunit) :
  sameOutcome (decodeChar (Some (toLowerCase c))) (decodeChar (Some c)).
Proof.
  unfold decodeChar. rewrite toLowerCase_idem.
  destruct (lookup DECODE_MAP (toLowerCase c)); simpl; auto.
Qed.

Lemma decodeAll_lower (s : jsstring) :
  sameOutcome (decodeAll (map toLowerCase s)) (decodeAll s).
Proof.
  induction s as [|c s IH]; cbn [map decodeAll]; [reflexivity|].
  pose proof (decodeChar_lower c) as Hc.
  destruct (decodeChar (Some (toLowerCase c)));
    destruct (decodeChar (Some c)); simpl in Hc; try contradiction;
    cbn [bind sameOutcome]; [exact I|]. subst.
  destruct (decodeAll (map toLowerCase s)); destruct (decodeAll s);
    simpl in IH; try contradiction; cbn [bind sameOutcome ret];
    [exact I|]. subst. reflexivity.
Qed.

Lemma decode_lower (s : jsstring) : decode (map toLowerCase s) = decode s.
Proof.
  unfold decode. rewrite length_map, firstOutOfRange_lower.
  destruct (Nat.eqb_spec (length s) 32) as [Hlen|]; [|reflexivity].
  cbn [negb]. destruct (firstOutOfRange s); [reflexivity|].
  rewrite !unsafeDecode_decodeAll by (rewrite ?length_map; exact Hlen).
  pose proof (decodeAll_lower s) as H.
  destruct (decodeAll (map toLowerCase s)); destruct (decodeAll s);
    simpl in H; try contradiction; cbn [bind]; [reflexivity|].
  subst. reflexivity.
Qed.

Lemma lookup_keys (table : list (codeunit * Z)) (key : codeunit) (v : Z) :
  lookup table key = Some v -> In key (map fst table).
Proof.
  induction table as [|[k x] table IH]; cbn [lookup map fst]; [discriminate|].
  destruct (Z.eqb_spec key k) as [->|]; [left; reflexivity|].
  intros H. right. apply IH, H.
Qed.

Lemma keys_lookup (table : list (codeunit * Z)) (key : codeunit) :
  In key (map fst table) -> exists v, lookup table key = Some v.
Proof.
  induction table as [|[k x] table IH]; cbn [lookup map fst]; [contradiction|].
  destruct (Z.eqb_spec key k) as [->|N]; [eexists; reflexivity|].
  intros [E|H]; [congruence|apply IH, H].
Qed.

Lemma keys_are_alphabet : map fst DECODE_MAP = ENCODE_CHARS.
Proof. reflexivity. Qed.

(** [decodeChar] accepts a character exactly when its lower-case form is
    one of the 32 symbols. *)
Lemma decodeChar_accepts (c : codeunit) :
  (exists v, decodeChar (Some c) = inr v) <-> In (toLowerCase c) ENCODE_CHARS.
Proof.
  unfold decodeChar. rewrite <- keys_are_alphabet. split.
  - intros [v H].
    destruct (lookup DECODE_MAP (toLowerCase c)) eqn:E; [|discriminate].
    eapply lookup_keys, E.
  - intros H. destruct (keys_lookup _ _ H) as [v ->]. eexists. reflexivity.
Qed.

(** The characters whose lower-case form is a symbol: the symbols, the
    upper-case ASCII forms of the letters among them, and U+212A. *)
Lemma alphabet_ignoring_case (c : codeunit) :
  In (toLowerCase c) ENCODE_CHARS
  <-> In c ENCODE_CHARS \/ In c (lit "ABCDEFGHJKMNPQRSTVWXYZ") \/ c = 8490.
Proof.
  unfold toLowerCase. change (code "A") with 65. change (code "Z") with 90.
  change (code "k") with 107.
  destruct (Z.leb_spec 65 c); destruct (Z.leb_spec c 90); cbn [andb];
    try destruct (Z.eqb_spec c 8490);
    cbv [ENCODE_CHARS lit map list_ascii_of_string code N_of_ascii
         N_of_digits Z.of_N N.add N.mul Pos.add Pos.mul Pos.succ In];
    lia.
Qed.

Lemma decode_rejects (s : jsstring) (c : codeunit) :
  In c s -> ~ In (toLowerCase c) ENCODE_CHARS -> decode s = Failure invalid_pfid.
Proof.
  intros Hin Hc. unfold decode.
  destruct (Nat.eqb_spec (length s) 32) as [Hlen|]; [|reflexivity].
  cbn [negb]. destruct (firstOutOfRange s); [reflexivity|].
  rewrite unsafeDecode_decodeAll by exact Hlen.
  destruct (decodeAll s) as [e|vs] eqn:E; [reflexivity|].
  exfalso. apply Hc. apply decodeChar_accepts.
  apply decodeAll_inv in E. clear Hlen.
  induction E as [|c' v cs vs' H _ IH]; [contradiction|].
  destruct Hin as [->|Hin]; [exists v; exact H|apply IH, Hin].
Qed.

Lemma decode_accepts (s : jsstring) :
  length s = 32%nat -> firstOutOfRange s = false ->
  Forall (fun c => In (toLowerCase c) ENCODE_CHARS) s ->
  exists binary, decode s = Ok binary.
Proof.
  intros Hlen Hf Hall. unfold decode. rewrite Hlen, Hf. cbn [Nat.eqb negb].
  rewrite unsafeDecode_decodeAll by exact Hlen.
  assert (H : exists vs, decodeAll s = inr vs).
  { clear Hlen Hf. induction Hall as [|c cs Hc _ IH]; [eexists; reflexivity|].
    apply decodeChar_accepts in Hc. destruct Hc as [v Hv].
    destruct IH as [vs Hvs]. exists (v :: vs).
    cbn [decodeAll]. rewrite Hv, Hvs. reflexivity. }
  destruct H as [vs ->]. eexists. reflexivity.
Qed.

End Case.

(** * The specification's claims *)

Section EncodeDecode.

Lemma decode_unsafeEncode (b : Buffer) :
  bytes b -> length b = 20%nat ->
  encode b = Ok (unsafeEncode b)
  /\ length (unsafeEncode b) = 32%nat
  /\ decode (unsafeEncode b) = Ok (clearPadding b).
Proof.
  intros Hb Hlen.
  destruct (unsafeDecode_unsafeEncode b Hb Hlen) as (E & Hv & Hd).
  destruct (isPfid_inv _ Hv) as (L & _).
  split; [|split; [exact L|]].
  - unfold encode. rewrite Hlen, Hv. reflexivity.
  - unfold decode. rewrite L, (isPfid_first _ Hv), Hd. reflexivity.
Qed.

(** The first character depends on the top three bits of byte 0 only. *)
Lemma first_symbol (b : Buffer) :
  bytes b -> rd b 0 3 = Z.shiftr (get b 0) 5.
Proof.
  intros Hb. pose proof (get_range b 0 Hb) as Hx.
  apply Z.bits_inj'. intros j Hj.
  rewrite rd_testbit, Z.shiftr_spec by (try assumption; lia).
  destruct (Z.ltb_spec j (Z.of_nat 3)) as [L|L]; cbn [andb].
  - change (Z.of_nat 3) with 3 in *.
    replace (0 + 3 - 1 - j) with (8 * 0 + (7 - (j + 5))) by lia.
    rewrite <- tb_byte by lia. reflexivity.
  - change (Z.of_nat 3) with 3 in *. symmetry.
    apply testbit_above with (n := 8); [lia|exact Hx|lia].
Qed.

Lemma first_char (b : Buffer) :
  bytes b -> length b = 20%nat ->
  hd 0 (unsafeEncode b) = symbol (Z.shiftr (get b 0) 5)
  /\ code "0" <= hd 0 (unsafeEncode b) <= code "7".
Proof.
  intros Hb Hlen.
  destruct (unsafeDecode_unsafeEncode b Hb Hlen) as (Ev & _ & _).
  pose proof (rd_range b 3 0 Hb ltac:(lia) ltac:(lia)) as Hhd.
  change (2 ^ Z.of_nat 3) with 8 in Hhd.
  assert (Hfirst : hd 0 (map symbol (values b)) = symbol (rd b 0 3))
    by reflexivity.
  rewrite Ev, Hfirst. split.
  - rewrite first_symbol by exact Hb. reflexivity.
  - destruct (symbol_octal _ Hhd) as [_ Ho]. exact Ho.
Qed.

Lemma clearPadding_changes (b : Buffer) :
  bytes b -> length b = 20%nat -> 64 <= get b 6 -> clearPadding b <> b.
Proof.
  intros Hb Hlen H6 C.
  assert (G : get (clearPadding b) 6 = get b 6) by (rewrite C; reflexivity).
  unfold clearPadding in G. rewrite get_set_same in G by (rewrite Hlen; lia).
  pose proof (get_range b 6 Hb) as Hx.
  pose proof (land_range (get b 6) 63 6 ltac:(lia) ltac:(lia) ltac:(lia)) as Hl.
  change (2 ^ 6) with 64 in Hl. rewrite Z.mod_small in G by lia. lia.
Qed.

End EncodeDecode.

(** C1.  Round trip on packed binaries: for every partition in
    [0, 2^30 - 1], timestamp in [0, 2^48 - 1] and 10 bytes of randomness,
    packing succeeds with a 20-byte binary, encoding it succeeds with a
    32-character text, and decoding that text succeeds and returns exactly
    the packed binary. *)
Theorem decode_encode_packed (p t : Z) (r : Buffer) :
  0 <= p <= 2 ^ 30 - 1 -> 0 <= t <= 2 ^ 48 - 1 ->
  length r = 10%nat -> bytes r ->
  exists binary text,
    generateBinaryWithTimestamp (Integral p) (Integral t) r = inr binary
    /\ length binary = 20%nat
    /\ encode binary = Ok text
    /\ length text = 32%nat
    /\ decode text = Ok binary.
Proof.
  intros Hp Ht Hlen Hr.
  assert (Hp' : 0 <= p < 2 ^ 30) by lia.
  assert (Ht' : 0 <= t < 2 ^ 48) by lia.
  pose proof (packed_bytes p t r Hlen Hr) as Hb.
  pose proof (packed_length p t r Hlen) as Hl.
  destruct (decode_unsafeEncode _ Hb Hl) as (E & L & D).
  exists (packed p t r), (unsafeEncode (packed p t r)).
  split; [apply generate_packed; assumption|].
  split; [exact Hl|]. split; [exact E|]. split; [exact L|].
  rewrite D. f_equal.
  apply clearPadding_id; [exact Hb|exact Hl|apply packed_padding; assumption].
Qed.

Lemma decode_encode_packed_witness :
  exists binary text,
    generateBinaryWithTimestamp (Integral 5) (Integral 1700000000000) (repeat 255 10)
    = inr binary
    /\ length binary = 20%nat
    /\ encode binary = Ok text
    /\ length text = 32%nat
    /\ decode text = Ok binary.
Proof.
  apply (decode_encode_packed 5 1700000000000 (repeat 255 10)).
  - lia.
  - lia.
  - reflexivity.
  - apply bytes_repeat. lia.
Defined.

(** C2 (as the code has it).  Packing timestamp 1,234,567,890,000,
    partition 123,456,789 and ten zero bytes yields the binary
    01 1F 71 FB 04 50 07 5B CD 15 00 ... 00; its text is
    013xrzp12g3nqk8n0000000000000000, which [isPfid] accepts, whose
    partition is 123456789, and which decodes to the binary and re-encodes
    to itself. *)
Theorem example_scenario :
  let binary := [1; 31; 113; 251; 4; 80; 7; 91; 205; 21;
                 0; 0; 0; 0; 0; 0; 0; 0; 0; 0] in
  let text := lit "013xrzp12g3nqk8n0000000000000000" in
  generateBinaryWithTimestamp
    (Integral 123456789) (Integral 1234567890000) (repeat 0 10) = inr binary
  /\ encode binary = Ok text
  /\ isPfid text = true
  /\ extractPartition text = Ok 123456789
  /\ decode text = Ok binary.
Proof.
  cbv zeta. repeat split; vm_compute; reflexivity.
Qed.

(** C2, the binary as the specification prints it
    (00 00 01 1F 71 FB 07 07 5B CD 15 00 ... 00) is not what packing
    returns. *)
Lemma example_scenario_counterexample :
  generateBinaryWithTimestamp
    (Integral 123456789) (Integral 1234567890000) (repeat 0 10)
  <> inr [0; 0; 1; 31; 113; 251; 7; 7; 91; 205; 21; 0; 0; 0; 0; 0; 0; 0; 0; 0].
Proof.
  vm_compute. discriminate.
Qed.

(** The strings [isPfid] accepts. *)
Lemma isPfid_iff (s : jsstring) :
  isPfid s = true
  <-> length s = 32%nat
      /\ code "0" <= hd 0 s <= code "7"
      /\ Forall (fun c => In c ENCODE_CHARS) s.
Proof.
  revert s.
  intros s. split.
    - intros H. destruct (isPfid_inv s H) as (Hlen & Hall & Hhd).
      split; [exact Hlen|]. split.
      + apply inClass_In in Hhd. revert Hhd. generalize (hd 0 s). intros c.
        cbv [lit map list_ascii_of_string code N_of_ascii N_of_digits Z.of_N
             N.add N.mul Pos.add Pos.mul Pos.succ In].
        lia.
      + eapply Forall_impl; [|exact Hall]. intros c Hc.
        apply inClass_In in Hc. exact Hc.
    - intros (Hlen & Hhd & Hall). unfold isPfid. rewrite Hlen.
      cbn [Nat.eqb negb].
      destruct s as [|c rest]; [discriminate|]. cbn [hd] in Hhd.
      unfold firstOutOfRange. change (charAt (c :: rest) 0) with (Some c).
      cbv beta iota.
      destruct (Z.ltb_spec c (code "0")); [lia|].
      destruct (Z.ltb_spec (code "7") c); [lia|]. cbn [orb validPattern_test].
      inversion Hall as [|? ? Hc Hrest]; subst.
      apply andb_true_iff. split; [apply andb_true_iff; split|].
      + apply inClass_In. revert Hhd. clear.
        cbv [lit map list_ascii_of_string code N_of_ascii N_of_digits Z.of_N
             N.add N.mul Pos.add Pos.mul Pos.succ In].
        lia.
      + simpl in Hlen. apply Nat.eqb_eq. lia.
      + apply forallb_forall. intros x Hx. apply inClass_In.
        rewrite Forall_forall in Hrest. apply Hrest, Hx.
Qed.

(** C3 (as the code has it).  [isPfid] returns true exactly for the strings
    of exactly 32 characters whose first character is in '0'-'7' and whose
    every character is one of the 32 lower-case symbols.  The match is
    case-sensitive: a string with an upper-case ASCII letter anywhere is
    rejected. *)
Theorem isPfid_exactly :
  (forall s,
     isPfid s = true
     <-> length s = 32%nat
         /\ code "0" <= hd 0 s <= code "7"
         /\ Forall (fun c => In c ENCODE_CHARS) s)
  /\ (forall s c,
        In c s -> code "A" <= c <= code "Z" -> isPfid s = false).
Proof.
  assert (Hiff := isPfid_iff).
  split; [exact Hiff|].
  intros s c Hin Hc. destruct (isPfid s) eqn:E; [|reflexivity].
  apply Hiff in E. destruct E as (_ & _ & Hall).
  rewrite Forall_forall in Hall. specialize (Hall c Hin). exfalso.
  revert Hall Hc. clear.
  cbv [ENCODE_CHARS lit map list_ascii_of_string code N_of_ascii N_of_digits
       Z.of_N N.add N.mul Pos.add Pos.mul Pos.succ In].
  lia.
Qed.

Lemma isPfid_exactly_witness :
  isPfid (lit "0AAAAAAAAAAAAAAAAAAAAAAAAAAAAAAA") = false.
Proof.
  apply (proj2 isPfid_exactly _ (code "A")).
  - right. left. reflexivity.
  - vm_compute. split; discriminate.
Defined.

(** C3, as stated, fails: the text 0a00...0 is accepted while the same text
    with its letter in upper case, 0A00...0, is rejected, although it has
    32 characters, begins with '0' and consists of alphabet characters up
    to case. *)
Lemma isPfid_exactly_counterexample :
  let lower := lit "0a000000000000000000000000000000" in
  let upper := map toUpperCase lower in
  isPfid lower = true
  /\ upper = lit "0A000000000000000000000000000000"
  /\ length upper = 32%nat
  /\ code "0" <= hd 0 upper <= code "7"
  /\ Forall (fun c => In (toLowerCase c) ENCODE_CHARS) upper
  /\ isPfid upper = false.
Proof.
  cbv zeta. repeat split; try (vm_compute; reflexivity);
    try (vm_compute; discriminate).
  change (map toUpperCase (lit "0a000000000000000000000000000000"))
    with (lit "0A000000000000000000000000000000").
  apply Forall_forall. intros c Hc. apply alphabet_ignoring_case.
  revert Hc.
  cbv [ENCODE_CHARS lit map list_ascii_of_string code N_of_ascii N_of_digits
       Z.of_N N.add N.mul Pos.add Pos.mul Pos.succ In].
  lia.
Qed.

(** C4.  Text round trip: for every string accepted by [isPfid], decoding
    succeeds with a 20-byte binary, and encoding that binary succeeds and
    returns the string itself. *)
Theorem encode_decode_text (s : jsstring) :
  isPfid s = true ->
  exists binary,
    decode s = Ok binary /\ length binary = 20%nat /\ encode binary = Ok s.
Proof.
  intros H. destruct (encode_decode_valid s H) as (D & _ & L & E).
  eexists. split; [exact D|]. split; [exact L|exact E].
Qed.

Lemma encode_decode_text_witness :
  exists binary,
    decode (lit "013xrzp12g3nqk8n0000000000000000") = Ok binary
    /\ length binary = 20%nat
    /\ encode binary = Ok (lit "013xrzp12g3nqk8n0000000000000000").
Proof.
  apply (encode_decode_text (lit "013xrzp12g3nqk8n0000000000000000")).
  vm_compute. reflexivity.
Defined.

(** C5.  Partition consistency: for every partition in [0, 2^30 - 1],
    timestamp in [0, 2^48 - 1] and 10 bytes of randomness,
    [extractPartition] applied to the encoding of the packed binary
    succeeds and returns exactly the partition. *)
Theorem extractPartition_packed (p t : Z) (r : Buffer) :
  0 <= p <= 2 ^ 30 - 1 -> 0 <= t <= 2 ^ 48 - 1 ->
  length r = 10%nat -> bytes r ->
  exists binary text,
    generateBinaryWithTimestamp (Integral p) (Integral t) r = inr binary
    /\ encode binary = Ok text
    /\ extractPartition text = Ok p.
Proof.
  intros Hp Ht Hlen Hr.
  assert (Hp' : 0 <= p < 2 ^ 30) by lia.
  assert (Ht' : 0 <= t < 2 ^ 48) by lia.
  pose proof (packed_bytes p t r Hlen Hr) as Hb.
  pose proof (packed_length p t r Hlen) as Hl.
  destruct (decode_unsafeEncode _ Hb Hl) as (E & L & D).
  destruct (unsafeDecode_unsafeEncode _ Hb Hl) as (_ & Hv & _).
  exists (packed p t r), (unsafeEncode (packed p t r)).
  split; [apply generate_packed; assumption|]. split; [exact E|].
  destruct (partition_of_valid _ Hv) as (q & _ & Hq & Hx).
  rewrite Hx. rewrite <- Hq.
  rewrite (partitionOfDecoded_ok _ _ D).
  rewrite clearPadding_id
    by (try assumption; apply packed_padding; assumption).
  rewrite packed_partition, mask30 by assumption.
  reflexivity.
Qed.

Lemma extractPartition_packed_witness :
  exists binary text,
    generateBinaryWithTimestamp
      (Integral 1073741823) (Integral 281474976710655) (repeat 170 10)
    = inr binary
    /\ encode binary = Ok text
    /\ extractPartition text = Ok 1073741823.
Proof.
  apply (extractPartition_packed 1073741823 281474976710655 (repeat 170 10)).
  - lia.
  - lia.
  - reflexivity.
  - apply bytes_repeat. lia.
Defined.

(** C6.  The two partition paths agree: for every string accepted by
    [isPfid], [decodePartition] on the six characters at offsets [10, 16)
    succeeds, the full decoding succeeds, and the value of the former is
    bytes 6-9 of the decoded binary read as a 32-bit big-endian integer and
    masked to 30 bits. *)
Theorem partition_paths_agree (s : jsstring) :
  isPfid s = true ->
  exists p,
    decodePartition (substring s 10 16) = Ok p
    /\ partitionOfDecoded s = Ok p.
Proof.
  intros H. destruct (partition_of_valid s H) as (p & H1 & H2 & _).
  exists p. split; assumption.
Qed.

Lemma partition_paths_agree_witness :
  exists p,
    decodePartition (substring (lit "7zzzzzzzzzabcdefzzzzzzzzzzzzzzzz") 10 16) = Ok p
    /\ partitionOfDecoded (lit "7zzzzzzzzzabcdefzzzzzzzzzzzzzzzz") = Ok p.
Proof.
  apply (partition_paths_agree (lit "7zzzzzzzzzabcdefzzzzzzzzzzzzzzzz")).
  vm_compute. reflexivity.
Defined.

(** ** Generation outside the domains *)








(** C8.  [isPfid] returns false for the empty string; for every string
    whose length is not 32; for every string whose first character is '8',
    '9' or any character that is not one of the 32 symbols; and for every
    string with a character that is not one of the 32 symbols at any
    position. *)
Theorem isPfid_rejects :
  isPfid [] = false
  /\ (forall s, length s <> 32%nat -> isPfid s = false)
  /\ (forall c rest,
        c = code "8" \/ c = code "9" \/ ~ In c ENCODE_CHARS ->
        isPfid (c :: rest) = false)
  /\ (forall s c, In c s -> ~ In c ENCODE_CHARS -> isPfid s = false).
Proof.
  assert (Hiff := isPfid_iff).
  split; [reflexivity|]. split; [|split].
  - intros s Hlen. destruct (isPfid s) eqn:E; [|reflexivity].
    apply Hiff in E. tauto.
  - intros c rest Hc. destruct (isPfid (c :: rest)) eqn:E; [|reflexivity].
    apply Hiff in E. destruct E as (_ & Hhd & Hall). cbn [hd] in Hhd.
    inversion Hall; subst. exfalso.
    destruct Hc as [-> | [-> | Hc]]; [revert Hhd|revert Hhd|tauto];
      vm_compute; intuition congruence.
  - intros s c Hin Hc. destruct (isPfid s) eqn:E; [|reflexivity].
    apply Hiff in E. destruct E as (_ & _ & Hall).
    rewrite Forall_forall in Hall. exfalso. apply Hc, Hall, Hin.
Qed.

Lemma isPfid_rejects_witness :
  isPfid (lit "0123456789abcdefghjkmnpqrstvwxy") = false
  /\ isPfid (lit "80000000000000000000000000000000") = false
  /\ isPfid (lit "0000000000000000000000000000000u") = false.
Proof.
  destruct isPfid_rejects as (_ & R2 & R3 & R4).
  split; [|split].
  - apply R2. vm_compute. discriminate.
  - apply (R3 (code "8")). left. reflexivity.
  - apply (R4 _ (code "u")).
    + vm_compute. tauto.
    + vm_compute. intuition discriminate.
Defined.

(** C9.  [decode] and letter case, as the code has it.  Decoding a string
    and decoding its lower-case form give the same result, the same binary
    or the same failure (in particular for every 32-character string whose
    first character is in '0'-'7'); the upper-case form of every symbol
    decodes to the same 5-bit value as the symbol; a character that is
    none of the 32 symbols, none of the 22 upper-case letters of the
    alphabet and not U+212A makes [decode] fail; and a 32-character string
    beginning in '0'-'7' all of whose characters are symbols, upper-case
    letters of the alphabet or U+212A decodes.  U+212A KELVIN SIGN is
    accepted because JavaScript's [toLowerCase] maps it to k: [decodeChar]
    gives it the value 19 of k. *)
Theorem decode_case_insensitive :
  (forall s, decode (map toLowerCase s) = decode s)
  /\ (forall v, 0 <= v < 32 ->
        decodeChar (Some (symbol v)) = inr v
        /\ decodeChar (Some (toUpperCase (symbol v))) = inr v)
  /\ (forall s c,
        In c s ->
        ~ In c ENCODE_CHARS -> ~ In c (lit "ABCDEFGHJKMNPQRSTVWXYZ") ->
        c <> 8490 ->
        decode s = Failure invalid_pfid)
  /\ (forall s,
        length s = 32%nat -> code "0" <= hd 0 s <= code "7" ->
        Forall (fun c => In c ENCODE_CHARS
                         \/ In c (lit "ABCDEFGHJKMNPQRSTVWXYZ")
                         \/ c = 8490) s ->
        exists binary, decode s = Ok binary)
  /\ (toLowerCase 8490 = code "k"
      /\ decodeChar (Some 8490) = decodeChar (Some (code "k"))
      /\ decodeChar (Some 8490) = inr 19).
Proof.
  split; [exact decode_lower|]. split; [|split; [|split]].
  - intros v Hv. split; [apply decodeChar_symbol, Hv|].
    revert v Hv. apply symbol_cases. intros n Hn.
    do 32 (destruct n as [|n]; [reflexivity|]). exfalso; lia.
  - intros s c Hin H1 H2 H3. apply (decode_rejects s c Hin).
    intros H. apply alphabet_ignoring_case in H. tauto.
  - intros s Hlen Hhd Hall. apply decode_accepts; try assumption.
    + destruct s as [|c rest]; [discriminate|]. cbn [hd] in Hhd.
      unfold firstOutOfRange. change (charAt (c :: rest) 0) with (Some c).
      cbv beta iota.
      destruct (Z.ltb_spec c (code "0")); [lia|].
      destruct (Z.ltb_spec (code "7") c); [lia|]. reflexivity.
    + apply Forall_forall. intros c Hc. rewrite Forall_forall in Hall.
      apply alphabet_ignoring_case, Hall, Hc.
  - split; [reflexivity|]. split; reflexivity.
Qed.

Lemma decode_case_insensitive_witness :
  (decodeChar (Some (symbol 19)) = inr 19
   /\ decodeChar (Some (toUpperCase (symbol 19))) = inr 19)
  /\ decode (lit "0000000000000000000000000000000U") = Failure invalid_pfid
  /\ exists binary, decode (lit "7ZZZZZZZZZABCDEFzzzzzzzzzzzzzzzz") = Ok binary.
Proof.
  destruct decode_case_insensitive as (_ & D2 & D3 & D4 & _).
  split; [|split].
  - apply D2. lia.
  - apply (D3 _ (code "U")).
    + vm_compute. tauto.
    + vm_compute. intuition discriminate.
    + vm_compute. intuition discriminate.
    + vm_compute. discriminate.
  - apply D4.
    + reflexivity.
    + vm_compute. split; discriminate.
    + apply Forall_forall. intros c.
      cbv [ENCODE_CHARS lit map list_ascii_of_string code N_of_ascii
           N_of_digits Z.of_N N.add N.mul Pos.add Pos.mul Pos.succ In].
      lia.
Defined.

(** C9, as stated, fails at U+212A.  The 32-character string 0, U+212A, then
    thirty 0 begins with '0' and holds a character that is neither one of
    the 32 symbols nor an upper-case letter of the alphabet, and [decode]
    returns the binary of 0k000..., while [isPfid] rejects the string; so
    it is not the case that every character outside the alphabet, case
    ignored, makes [decode] fail. *)
Lemma decode_case_insensitive_counterexample :
  let s := code "0" :: 8490 :: repeat (code "0") 30 in
  (length s = 32%nat /\ code "0" <= hd 0 s <= code "7"
   /\ In 8490 s
   /\ ~ In 8490 ENCODE_CHARS /\ ~ In 8490 (lit "ABCDEFGHJKMNPQRSTVWXYZ")
   /\ decode s = Ok (19 :: repeat 0 19)
   /\ decode s = decode (lit "0k000000000000000000000000000000")
   /\ isPfid s = false)
  /\ ~ (forall s c,
          length s = 32%nat -> code "0" <= hd 0 s <= code "7" ->
          In c s ->
          ~ In c ENCODE_CHARS -> ~ In c (lit "ABCDEFGHJKMNPQRSTVWXYZ") ->
          exists e, decode s = Failure e).
Proof.
  cbv zeta.
  assert (N1 : ~ In 8490 ENCODE_CHARS) by (vm_compute; intuition discriminate).
  assert (N2 : ~ In 8490 (lit "ABCDEFGHJKMNPQRSTVWXYZ"))
    by (vm_compute; intuition discriminate).
  assert (D : decode (code "0" :: 8490 :: repeat (code "0") 30)
              = Ok (19 :: repeat 0 19)) by (vm_compute; reflexivity).
  split.
  - split; [reflexivity|]. split; [vm_compute; split; discriminate|].
    split; [right; left; reflexivity|]. split; [exact N1|]. split; [exact N2|].
    split; [exact D|]. split; vm_compute; reflexivity.
  - intros H.
    destruct (H (code "0" :: 8490 :: repeat (code "0") 30) 8490) as [e He];
      try assumption; try reflexivity.
    + vm_compute. split; discriminate.
    + right. left. reflexivity.
    + rewrite D in He. discriminate.
Qed.

(** C10.  [encode] on arbitrary 20-byte buffers.  For every buffer of
    exactly 20 bytes, padding bits set or not, [encode] returns ok: the
    first character is the symbol of the top three bits of byte 0 and so
    lies in '0'-'7', which is all the self-check can object to.  Decoding
    the text returns the buffer with the two padding bits cleared, and the
    buffer with the padding bits cleared has the same text; so the padding
    bits are dropped without notice, and [encode] is not injective: a
    buffer with a padding bit set differs from its cleared form. *)
Theorem encode_drops_padding (b : Buffer) :
  bytes b -> length b = 20%nat ->
  exists text,
    encode b = Ok text
    /\ hd 0 text = symbol (Z.shiftr (get b 0) 5)
    /\ code "0" <= hd 0 text <= code "7"
    /\ decode text = Ok (clearPadding b)
    /\ encode (clearPadding b) = Ok text
    /\ (64 <= get b 6 -> clearPadding b <> b).
Proof.
  intros Hb Hlen.
  destruct (decode_unsafeEncode b Hb Hlen) as (E & L & D).
  destruct (unsafeDecode_unsafeEncode b Hb Hlen) as (_ & Hv & _).
  destruct (first_char b Hb Hlen) as (F1 & F2).
  exists (unsafeEncode b).
  split; [exact E|]. split; [exact F1|]. split; [exact F2|].
  split; [exact D|]. split.
  - destruct (encode_decode_valid _ Hv) as (D' & _ & _ & E').
    assert (Eq : decoded (unsafeEncode b) = clearPadding b) by congruence.
    rewrite <- Eq. exact E'.
  - apply clearPadding_changes; assumption.
Qed.

Lemma encode_drops_padding_witness :
  let b := [255; 255; 255; 255; 255; 255; 192; 0; 0; 0;
            0; 0; 0; 0; 0; 0; 0; 0; 0; 1] in
  exists text,
    encode b = Ok text
    /\ hd 0 text = symbol (Z.shiftr (get b 0) 5)
    /\ code "0" <= hd 0 text <= code "7"
    /\ decode text = Ok (clearPadding b)
    /\ encode (clearPadding b) = Ok text
    /\ (64 <= get b 6 -> clearPadding b <> b).
Proof.
  cbv zeta. apply encode_drops_padding.
  - repeat (constructor; [lia|]). constructor.
  - reflexivity.
Defined.

(** * Further properties of the library *)

(** ** Generated identifiers *)

Section Generated.

Variables (p t : Z) (r : Buffer).
Hypothesis Hp : 0 <= p <= 2 ^ 30 - 1.
Hypothesis Ht : 0 <= t <= 2 ^ 48 - 1.
Hypothesis Hlen : length r = 10%nat.
Hypothesis Hr : bytes r.

(** The text of a packed binary: accepted by [isPfid], decoded to the
    binary, with the partition [extractPartition] returns. *)
Lemma packed_text :
  isPfid (unsafeEncode (packed p t r)) = true
  /\ decode (unsafeEncode (packed p t r)) = Ok (packed p t r)
  /\ extractPartition (unsafeEncode (packed p t r)) = Ok p.
Proof.
  assert (Hp' : 0 <= p < 2 ^ 30) by lia.
  pose proof (packed_bytes p t r Hlen Hr) as Hb.
  pose proof (packed_length p t r Hlen) as Hl.
  destruct (decode_unsafeEncode _ Hb Hl) as (_ & _ & D).
  destruct (unsafeDecode_unsafeEncode _ Hb Hl) as (_ & Hv & _).
  rewrite clearPadding_id in D
    by (try assumption; apply packed_padding; assumption).
  split; [exact Hv|]. split; [exact D|].
  destruct (partition_of_valid _ Hv) as (q & _ & Hq & Hx).
  rewrite Hx, <- Hq, (partitionOfDecoded_ok _ _ D).
  rewrite packed_partition, mask30 by assumption. reflexivity.
Qed.

End Generated.

Lemma generateWithTimestamp_packed (p t : Z) (r : Buffer) :
  0 <= p <= 2 ^ 30 - 1 -> 0 <= t <= 2 ^ 48 - 1 ->
  length r = 10%nat -> bytes r ->
  generateWithTimestamp (Integral p) (Integral t) r
  = inr (unsafeEncode (packed p t r)).
Proof.
  intros Hp Ht Hlen Hr.
  assert (Hp' : 0 <= p < 2 ^ 30) by lia.
  assert (Ht' : 0 <= t < 2 ^ 48) by lia.
  unfold generateWithTimestamp.
  rewrite (proj2 (valid_partition p) Hp'), (proj2 (valid_timestamp t) Ht').
  cbn [negb]. rewrite generate_packed by assumption. reflexivity.
Qed.

Lemma generate_eq (p now : Z) (r : Buffer) :
  0 <= p <= 2 ^ 30 - 1 -> 0 <= now <= 2 ^ 48 - 1 ->
  length r = 10%nat -> bytes r ->
  generateBinary (Integral p) now r = inr (packed p now r)
  /\ generate (Integral p) now r = inr (unsafeEncode (packed p now r)).
Proof.
  intros Hp Ht Hlen Hr.
  assert (Hp' : 0 <= p < 2 ^ 30) by lia.
  assert (Ht' : 0 <= now < 2 ^ 48) by lia.
  assert (G : generateBinary (Integral p) now r = inr (packed p now r)).
  { unfold generateBinary. rewrite (proj2 (valid_partition p) Hp').
    cbn [negb]. apply generate_packed; assumption. }
  split; [exact G|].
  unfold generate. rewrite (proj2 (valid_partition p) Hp'), G. reflexivity.
Qed.

(** X1.  Every identifier [generateWithTimestamp] returns is well formed and
    carries its three fields. *)
Theorem generateWithTimestamp_fields (p t : Z) (r : Buffer) :
  0 <= p <= 2 ^ 30 - 1 -> 0 <= t <= 2 ^ 48 - 1 ->
  length r = 10%nat -> bytes r ->
  exists text binary,
    generateWithTimestamp (Integral p) (Integral t) r = inr text
    /\ isPfid text = true
    /\ extractPartition text = Ok p
    /\ decode text = Ok binary
    /\ readTimestamp binary = t
    /\ readUInt32BE binary 6 = p
    /\ skipn 10 binary = r.
Proof.
  intros Hp Ht Hlen Hr.
  assert (Hp' : 0 <= p < 2 ^ 30) by lia.
  assert (Ht' : 0 <= t < 2 ^ 48) by lia.
  destruct (packed_text p t r Hp Hlen Hr) as (V & D & X).
  exists (unsafeEncode (packed p t r)), (packed p t r).
  split; [apply generateWithTimestamp_packed; assumption|].
  split; [exact V|]. split; [exact X|]. split; [exact D|].
  split; [apply packed_timestamp; assumption|].
  split; [apply packed_partition; assumption|reflexivity].
Qed.

Lemma generateWithTimestamp_fields_witness :
  exists text binary,
    generateWithTimestamp (Integral 42) (Integral 1700000000000) (repeat 7 10)
    = inr text
    /\ isPfid text = true
    /\ extractPartition text = Ok 42
    /\ decode text = Ok binary
    /\ readTimestamp binary = 1700000000000
    /\ readUInt32BE binary 6 = 42
    /\ skipn 10 binary = repeat 7 10.
Proof.
  apply (generateWithTimestamp_fields 42 1700000000000 (repeat 7 10)).
  - lia.
  - lia.
  - reflexivity.
  - apply bytes_repeat. lia.
Defined.

(** X2.  [generate] and [generateBinary] at clock time [now]: for a valid
    partition and a clock within the timestamp domain [generateBinary]
    returns a 20-byte binary and [generate] its text, well formed and
    carrying the partition, the clock time and the random bytes. *)
Theorem generate_fields (p now : Z) (r : Buffer) :
  0 <= p <= 2 ^ 30 - 1 -> 0 <= now <= 2 ^ 48 - 1 ->
  length r = 10%nat -> bytes r ->
  exists text binary,
    generateBinary (Integral p) now r = inr binary
    /\ length binary = 20%nat
    /\ generate (Integral p) now r = inr text
    /\ encode binary = Ok text
    /\ isPfid text = true
    /\ extractPartition text = Ok p
    /\ decode text = Ok binary
    /\ readTimestamp binary = now
    /\ readUInt32BE binary 6 = p
    /\ skipn 10 binary = r.
Proof.
  intros Hp Ht Hlen Hr.
  assert (Hp' : 0 <= p < 2 ^ 30) by lia.
  assert (Ht' : 0 <= now < 2 ^ 48) by lia.
  destruct (packed_text p now r Hp Hlen Hr) as (V & D & X).
  pose proof (packed_bytes p now r Hlen Hr) as Hb.
  pose proof (packed_length p now r Hlen) as Hl.
  destruct (decode_unsafeEncode _ Hb Hl) as (E & _ & _).
  destruct (generate_eq p now r Hp Ht Hlen Hr) as (G & G').
  exists (unsafeEncode (packed p now r)), (packed p now r).
  split; [exact G|]. split; [exact Hl|]. split; [exact G'|].
  split; [exact E|]. split; [exact V|]. split; [exact X|]. split; [exact D|].
  split; [apply packed_timestamp; assumption|].
  split; [apply packed_partition; assumption|reflexivity].
Qed.

Lemma generate_fields_witness :
  exists text binary,
    generateBinary (Integral 123456789) 1700000000000 (repeat 255 10) = inr binary
    /\ length binary = 20%nat
    /\ generate (Integral 123456789) 1700000000000 (repeat 255 10) = inr text
    /\ encode binary = Ok text
    /\ isPfid text = true
    /\ extractPartition text = Ok 123456789
    /\ decode text = Ok binary
    /\ readTimestamp binary = 1700000000000
    /\ readUInt32BE binary 6 = 123456789
    /\ skipn 10 binary = repeat 255 10.
Proof.
  apply (generate_fields 123456789 1700000000000 (repeat 255 10)).
  - lia.
  - lia.
  - reflexivity.
  - apply bytes_repeat. lia.
Defined.

(** X3.  [generate] and [generateBinary] refuse an invalid partition before
    they look at the clock, and refuse a clock outside the timestamp
    domain; neither wraps a value into range. *)
Theorem generate_errors (partition : number) (now : Z) (random : Buffer) :
  (isValidPartition partition = false ->
   generate partition now random = inl InvalidPartition
   /\ generateBinary partition now random = inl InvalidPartition)
  /\ (isValidPartition partition = true -> ~ 0 <= now <= 2 ^ 48 - 1 ->
      generate partition now random = inl InvalidTimestamp
      /\ generateBinary partition now random = inl InvalidTimestamp).
Proof.
  unfold generate, generateBinary, generateBinaryWithTimestamp.
  split.
  - intros ->. split; reflexivity.
  - intros -> Hnow. cbn [negb].
    assert (E : isValidTimestamp (Integral now) = false).
    { destruct (isValidTimestamp (Integral now)) eqn:E; [|reflexivity].
      apply valid_timestamp in E. lia. }
    rewrite E. split; reflexivity.
Qed.

Lemma generate_errors_witness :
  (generate (Integral 1073741824) 5 [] = inl InvalidPartition
   /\ generateBinary (Integral 1073741824) 5 [] = inl InvalidPartition)
  /\ (generate (Integral 1) 281474976710656 (repeat 0 10) = inl InvalidTimestamp
      /\ generateBinary (Integral 1) 281474976710656 (repeat 0 10)
         = inl InvalidTimestamp).
Proof.
  destruct (generate_errors (Integral 1073741824) 5 []) as (G1 & _).
  destruct (generate_errors (Integral 1) 281474976710656 (repeat 0 10))
    as (_ & G2).
  split.
  - apply G1. reflexivity.
  - apply G2; [reflexivity|lia].
Defined.

(** X4.  Identifiers do not collide: the text determines the partition, the
    timestamp and the random bytes it was generated from. *)
Theorem generateWithTimestamp_injective
    (p t p' t' : Z) (r r' : Buffer) :
  0 <= p <= 2 ^ 30 - 1 -> 0 <= t <= 2 ^ 48 - 1 ->
  length r = 10%nat -> bytes r ->
  0 <= p' <= 2 ^ 30 - 1 -> 0 <= t' <= 2 ^ 48 - 1 ->
  length r' = 10%nat -> bytes r' ->
  generateWithTimestamp (Integral p) (Integral t) r
  = generateWithTimestamp (Integral p') (Integral t') r' ->
  p = p' /\ t = t' /\ r = r'.
Proof.
  intros Hp Ht Hlen Hr Hp' Ht' Hlen' Hr' E.
  rewrite !generateWithTimestamp_packed in E by assumption.
  assert (E' : unsafeEncode (packed p t r) = unsafeEncode (packed p' t' r'))
    by congruence.
  destruct (packed_text p t r Hp Hlen Hr) as (_ & D1 & _).
  destruct (packed_text p' t' r' Hp' Hlen' Hr') as (_ & D2 & _).
  rewrite E' in D1.
  assert (D : packed p t r = packed p' t' r') by congruence.
  assert (P : readUInt32BE (packed p t r) 6 = readUInt32BE (packed p' t' r') 6)
    by (rewrite D; reflexivity).
  assert (T : readTimestamp (packed p t r) = readTimestamp (packed p' t' r'))
    by (rewrite D; reflexivity).
  assert (R : skipn 10 (packed p t r) = skipn 10 (packed p' t' r'))
    by (rewrite D; reflexivity).
  rewrite !packed_partition in P by (assumption || lia).
  rewrite !packed_timestamp in T by (assumption || lia).
  split; [exact P|]. split; [exact T|exact R].
Qed.

Lemma generateWithTimestamp_injective_witness :
  1 = 1 /\ 2 = 2 /\ repeat 3 10 = repeat 3 10.
Proof.
  apply (generateWithTimestamp_injective 1 2 1 2 (repeat 3 10) (repeat 3 10));
    try lia; try reflexivity; apply bytes_repeat; lia.
Defined.


(** ** Partitions *)

Section Partitions.

Lemma mask30_range (n : Z) : 0 <= band n 1073741823 < 2 ^ 30.
Proof.
  unfold band. rewrite (toInt32_small 1073741823) by lia.
  change 1073741823 with (Z.ones 30). rewrite Z.land_ones by lia.
  apply Z.mod_pos_bound. lia.
Qed.

Lemma generatePartition_eq (b0 b1 b2 b3 : Z) :
  0 <= b0 < 256 -> 0 <= b1 < 256 -> 0 <= b2 < 256 -> 0 <= b3 < 256 ->
  generatePartition [b0; b1; b2; b3]
  = (b0 mod 64) * 2 ^ 24 + b1 * 2 ^ 16 + b2 * 2 ^ 8 + b3.
Proof.
  intros H0 H1 H2 H3. unfold generatePartition. cbv zeta.
  change (get [b0; b1; b2; b3] 0) with b0.
  rewrite (band_small b0 63) by lia.
  change 63 with (Z.ones 6). rewrite Z.land_ones by lia. change (2 ^ 6) with 64.
  pose proof (Z.mod_pos_bound b0 64 ltac:(lia)) as Hm.
  change (set [b0; b1; b2; b3] 0 (b0 mod 64))
    with [(b0 mod 64) mod 256; b1; b2; b3].
  rewrite readUInt32BE_four, (Z.mod_small (b0 mod 64) 256) by lia.
  apply mask30. lia.
Qed.

End Partitions.

(** X5.  [generatePartition] returns a valid partition for every four random
    bytes: the low 30 bits of their big-endian value, the top two bits of
    the first byte being dropped. *)
Theorem generatePartition_valid (random : Buffer) :
  length random = 4%nat -> bytes random ->
  isValidPartition (Integral (generatePartition random)) = true
  /\ 0 <= generatePartition random <= 2 ^ 30 - 1
  /\ generatePartition random = readUInt32BE random 0 mod 2 ^ 30.
Proof.
  intros Hlen Hb.
  do 4 (destruct random as [|? random]; [discriminate|]).
  destruct random; [|discriminate].
  unfold bytes in Hb.
  repeat match goal with
         | H : Forall _ (_ :: _) |- _ =>
             let A := fresh "A" in
             apply Forall_cons_iff in H; destruct H as [A H]
         end.
  rewrite generatePartition_eq, readUInt32BE_four by assumption.
  pose proof (Z.mod_pos_bound z 64 ltac:(lia)) as Hm.
  assert (R : 0 <= z mod 64 * 2 ^ 24 + z0 * 2 ^ 16 + z1 * 2 ^ 8 + z2 < 2 ^ 30)
    by lia.
  split; [apply valid_partition; exact R|]. split; [lia|].
  apply Z.mod_unique with (q := z / 64); [lia|].
  pose proof (Z.div_mod z 64 ltac:(lia)). lia.
Qed.

Lemma generatePartition_valid_witness :
  isValidPartition (Integral (generatePartition [255; 255; 255; 255])) = true
  /\ 0 <= generatePartition [255; 255; 255; 255] <= 2 ^ 30 - 1
  /\ generatePartition [255; 255; 255; 255]
     = readUInt32BE [255; 255; 255; 255] 0 mod 2 ^ 30.
Proof.
  apply (generatePartition_valid [255; 255; 255; 255]).
  - reflexivity.
  - repeat (constructor; [lia|]). constructor.
Defined.

(** X6.  Every valid partition is the outcome of [generatePartition] on some
    four random bytes, namely its own big-endian bytes. *)
Theorem generatePartition_onto (p : Z) :
  0 <= p <= 2 ^ 30 - 1 ->
  generatePartition
    [(p / 2 ^ 24) mod 256; (p / 2 ^ 16) mod 256; (p / 2 ^ 8) mod 256; p mod 256]
  = p.
Proof.
  intros Hp.
  rewrite generatePartition_eq by (apply Z.mod_pos_bound; lia).
  assert (H24 : 0 <= p / 2 ^ 24 < 64).
  { split; [apply Z.div_pos; lia|apply Z.div_lt_upper_bound; lia]. }
  rewrite (Z.mod_small (p / 2 ^ 24) 256), (Z.mod_small (p / 2 ^ 24) 64) by lia.
  pose proof (packed_partition p 0 (repeat 0 10) ltac:(lia) eq_refl) as E.
  rewrite <- E at 5.
  change (readUInt32BE (packed p 0 (repeat 0 10)) 6)
    with ((p / 2 ^ 24) mod 256 * 2 ^ 24 + (p / 2 ^ 16) mod 256 * 2 ^ 16
          + (p / 2 ^ 8) mod 256 * 2 ^ 8 + p mod 256).
  rewrite (Z.mod_small (p / 2 ^ 24) 256) by lia. reflexivity.
Qed.

Lemma generatePartition_onto_witness :
  generatePartition
    [(123456789 / 2 ^ 24) mod 256; (123456789 / 2 ^ 16) mod 256;
     (123456789 / 2 ^ 8) mod 256; 123456789 mod 256]
  = 123456789.
Proof.
  apply (generatePartition_onto 123456789). lia.
Defined.

Lemma extractPartition_valid (s : jsstring) :
  isPfid s = true ->
  exists p, extractPartition s = Ok p /\ 0 <= p <= 2 ^ 30 - 1.
Proof.
  intros H. destruct (partition_of_valid s H) as (p & _ & Hq & Hx).
  exists p. split; [exact Hx|].
  destruct (encode_decode_valid s H) as (D & _).
  rewrite (partitionOfDecoded_ok _ _ D) in Hq. injection Hq as <-.
  pose proof (mask30_range (readUInt32BE (decoded s) 6)). lia.
Qed.

Lemma extractPartition_invalid (s : jsstring) :
  isPfid s = false -> extractPartition s = Failure invalid_pfid.
Proof.
  intros H. unfold extractPartition. rewrite H. reflexivity.
Qed.

(** X7.  [extractPartition] succeeds exactly on the strings [isPfid] accepts,
    with a partition in [0, 2^30 - 1]; on every other string it fails with
    the code [invalid_pfid], never with [invalid_partition].
    [extractPartitionOrThrow] returns the same value or throws the same
    error. *)
Theorem extractPartition_outcome (s : jsstring) :
  (isPfid s = true ->
   exists p,
     extractPartition s = Ok p /\ extractPartitionOrThrow s = inr p
     /\ 0 <= p <= 2 ^ 30 - 1)
  /\ (isPfid s = false ->
      extractPartition s = Failure invalid_pfid
      /\ extractPartitionOrThrow s = inl invalid_pfid).
Proof.
  split.
  - intros H. destruct (extractPartition_valid s H) as (p & E & R).
    exists p. unfold extractPartitionOrThrow. rewrite E. auto.
  - intros H. unfold extractPartitionOrThrow.
    rewrite (extractPartition_invalid s H). auto.
Qed.

Lemma extractPartition_outcome_witness :
  (exists p,
     extractPartition (lit "7zzzzzzzzzzzzzzzzzzzzzzzzzzzzzzz") = Ok p
     /\ extractPartitionOrThrow (lit "7zzzzzzzzzzzzzzzzzzzzzzzzzzzzzzz") = inr p
     /\ 0 <= p <= 2 ^ 30 - 1)
  /\ (extractPartition (lit "invalid") = Failure invalid_pfid
      /\ extractPartitionOrThrow (lit "invalid") = inl invalid_pfid).
Proof.
  split.
  - apply (proj1 (extractPartition_outcome (lit "7zzzzzzzzzzzzzzzzzzzzzzzzzzzzzzz"))).
    vm_compute. reflexivity.
  - apply (proj2 (extractPartition_outcome (lit "invalid"))).
    vm_compute. reflexivity.
Defined.

(** X8.  [generateRelated]: on a string that is not a valid identifier it throws
    the [PfidError] [invalid_pfid] whatever the clock and the random bytes;
    on a valid one, with the clock in the timestamp domain, it returns a
    valid identifier with the same partition; with the clock outside the
    domain it throws the invalid-timestamp error. *)
Theorem generateRelated_outcome (existing : jsstring) (now : Z) (r : Buffer) :
  (isPfid existing = false ->
   generateRelated existing now r = inl (ThrownPfidError invalid_pfid))
  /\ (isPfid existing = true -> 0 <= now <= 2 ^ 48 - 1 ->
      length r = 10%nat -> bytes r ->
      exists text,
        generateRelated existing now r = inr text
        /\ isPfid text = true
        /\ extractPartition text = extractPartition existing)
  /\ (isPfid existing = true -> ~ 0 <= now <= 2 ^ 48 - 1 ->
      generateRelated existing now r = inl (ThrownError InvalidTimestamp)).
Proof.
  unfold generateRelated, extractPartitionOrThrow. split; [|split].
  - intros H. rewrite (extractPartition_invalid _ H). reflexivity.
  - intros H Hnow Hlen Hr.
    destruct (extractPartition_valid _ H) as (p & E & R). rewrite E.
    destruct (generate_eq p now r R Hnow Hlen Hr) as (_ & G). rewrite G.
    destruct (packed_text p now r R Hlen Hr) as (V & _ & X).
    eexists. split; [reflexivity|]. split; [exact V|exact X].
  - intros H Hnow.
    destruct (extractPartition_valid _ H) as (p & E & R). rewrite E.
    unfold generate, generateBinary, generateBinaryWithTimestamp.
    rewrite (proj2 (valid_partition p)) by lia. cbn [negb].
    assert (Et : isValidTimestamp (Integral now) = false).
    { destruct (isValidTimestamp (Integral now)) eqn:Et; [|reflexivity].
      apply valid_timestamp in Et. lia. }
    rewrite Et. reflexivity.
Qed.

Lemma generateRelated_outcome_witness :
  generateRelated (lit "not an id") 0 [] = inl (ThrownPfidError invalid_pfid)
  /\ (exists text,
        generateRelated (lit "013xrzp12g3nqk8n0000000000000000")
          1700000000000 (repeat 9 10) = inr text
        /\ isPfid text = true
        /\ extractPartition text
           = extractPartition (lit "013xrzp12g3nqk8n0000000000000000"))
  /\ generateRelated (lit "013xrzp12g3nqk8n0000000000000000") (-1) []
     = inl (ThrownError InvalidTimestamp).
Proof.
  split; [|split].
  - apply (proj1 (generateRelated_outcome (lit "not an id") 0 [])).
    vm_compute. reflexivity.
  - apply (proj1 (proj2 (generateRelated_outcome
                           (lit "013xrzp12g3nqk8n0000000000000000")
                           1700000000000 (repeat 9 10)))).
    + vm_compute. reflexivity.
    + lia.
    + reflexivity.
    + apply bytes_repeat. lia.
  - apply (proj2 (proj2 (generateRelated_outcome
                           (lit "013xrzp12g3nqk8n0000000000000000") (-1) []))).
    + vm_compute. reflexivity.
    + lia.
Defined.

(** X9.  [generateRoot] never fails on its partition: whatever four bytes the
    partition is drawn from, with the clock in the timestamp domain it
    returns a valid identifier whose partition is the one drawn. *)
Theorem generateRoot_valid (random4 : Buffer) (now : Z) (r : Buffer) :
  0 <= now <= 2 ^ 48 - 1 -> length r = 10%nat -> bytes r ->
  exists text,
    generateRoot random4 now r = inr text
    /\ isPfid text = true
    /\ extractPartition text = Ok (generatePartition random4).
Proof.
  intros Hnow Hlen Hr. unfold generateRoot.
  assert (R : 0 <= generatePartition random4 <= 2 ^ 30 - 1).
  { unfold generatePartition. cbv zeta.
    pose proof (mask30_range
                  (readUInt32BE (set random4 0 (band (get random4 0) 63)) 0)).
    lia. }
  destruct (generate_eq _ now r R Hnow Hlen Hr) as (_ & G). rewrite G.
  destruct (packed_text _ now r R Hlen Hr) as (V & _ & X).
  eexists. split; [reflexivity|]. split; [exact V|exact X].
Qed.

Lemma generateRoot_valid_witness :
  exists text,
    generateRoot [255; 255; 255; 255] 1700000000000 (repeat 1 10) = inr text
    /\ isPfid text = true
    /\ extractPartition text = Ok (generatePartition [255; 255; 255; 255]).
Proof.
  apply (generateRoot_valid [255; 255; 255; 255] 1700000000000 (repeat 1 10)).
  - lia.
  - reflexivity.
  - apply bytes_repeat. lia.
Defined.

(** ** The layout of the text *)

Section Layout.

Lemma rd_ext (b b' : Buffer) (off : Z) (n : nat) :
  bytes b -> bytes b' -> 0 <= off -> (n <= 31)%nat ->
  (forall k, off <= k < off + Z.of_nat n -> tb b k = tb b' k) ->
  rd b off n = rd b' off n.
Proof.
  intros Hb Hb' Hoff Hn H. apply Z.bits_inj'. intros j Hj.
  rewrite !rd_testbit by (try assumption; lia).
  destruct (Z.ltb_spec j (Z.of_nat n)); [|reflexivity].
  cbn [andb]. apply H. lia.
Qed.

Lemma readFields_ext (b b' : Buffer) (ws : list nat) :
  bytes b -> bytes b' -> Forall (fun n => (n <= 31)%nat) ws ->
  forall off,
    0 <= off ->
    (forall k, off <= k < off + widthSum ws -> tb b k = tb b' k) ->
    readFields b ws off = readFields b' ws off.
Proof.
  intros Hb Hb' Hws. induction Hws as [|n ws Hn _ IH]; intros off Hoff H;
    cbn [readFields widthSum] in *; [reflexivity|].
  pose proof (widthSum_nonneg ws) as Hs.
  rewrite (rd_ext b b' off n) by (try assumption; intros; apply H; lia).
  f_equal. apply IH; [lia|]. intros k Hk. apply H. lia.
Qed.

Lemma get_cons (x : Z) (l : Buffer) (i : Z) :
  0 < i -> get (x :: l) i = get l (i - 1).
Proof.
  intros Hi. unfold get.
  destruct (Z.ltb_spec i 0); [lia|]. destruct (Z.ltb_spec (i - 1) 0); [lia|].
  replace (Z.to_nat i) with (S (Z.to_nat (i - 1))) by lia. reflexivity.
Qed.

(** The three regions of a packed binary, bit by bit. *)
Lemma tb_packed (p t : Z) (r : Buffer) (k : Z) :
  0 <= k ->
  tb (packed p t r) k
  = if k <? 48 then Z.testbit t (47 - k)
    else if k <? 80 then Z.testbit p (79 - k)
    else tb r (k - 80).
Proof.
  intros Hk. unfold tb.
  pose proof (Z.div_mod k 8 ltac:(lia)) as Hd.
  pose proof (Z.mod_pos_bound k 8 ltac:(lia)) as Hm.
  assert (Hq : 0 <= k / 8) by (apply Z.div_pos; lia).
  assert (B : forall x s, 0 <= s ->
            Z.testbit ((x / 2 ^ s) mod 256) (7 - k mod 8)
            = Z.testbit x (7 - k mod 8 + s)).
  { intros x s Hs. rewrite byte_testbit by lia. apply Z.div_pow2_bits; lia. }
  assert (B0 : forall x,
            Z.testbit (x mod 256) (7 - k mod 8) = Z.testbit x (7 - k mod 8)).
  { intros x. apply byte_testbit. lia. }
  destruct (Z.ltb_spec k 48); [|destruct (Z.ltb_spec k 80)].
  - assert (E : k / 8 = 0 \/ k / 8 = 1 \/ k / 8 = 2 \/ k / 8 = 3 \/ k / 8 = 4
                \/ k / 8 = 5) by lia.
    destruct E as [E|[E|[E|[E|[E|E]]]]]; rewrite E.
    + change (get (packed p t r) 0) with ((t / 2 ^ 40) mod 256).
      rewrite B by lia. f_equal. lia.
    + change (get (packed p t r) 1) with ((t / 2 ^ 32) mod 256).
      rewrite B by lia. f_equal. lia.
    + change (get (packed p t r) 2) with ((t / 2 ^ 24) mod 256).
      rewrite B by lia. f_equal. lia.
    + change (get (packed p t r) 3) with ((t / 2 ^ 16) mod 256).
      rewrite B by lia. f_equal. lia.
    + change (get (packed p t r) 4) with ((t / 2 ^ 8) mod 256).
      rewrite B by lia. f_equal. lia.
    + change (get (packed p t r) 5) with (t mod 256).
      rewrite B0. f_equal. lia.
  - assert (E : k / 8 = 6 \/ k / 8 = 7 \/ k / 8 = 8 \/ k / 8 = 9) by lia.
    destruct E as [E|[E|[E|E]]]; rewrite E.
    + change (get (packed p t r) 6) with ((p / 2 ^ 24) mod 256).
      rewrite B by lia. f_equal. lia.
    + change (get (packed p t r) 7) with ((p / 2 ^ 16) mod 256).
      rewrite B by lia. f_equal. lia.
    + change (get (packed p t r) 8) with ((p / 2 ^ 8) mod 256).
      rewrite B by lia. f_equal. lia.
    + change (get (packed p t r) 9) with (p mod 256).
      rewrite B0. f_equal. lia.
  - unfold packed. cbn [app].
    do 10 (rewrite get_cons by lia).
    replace (k / 8 - 1 - 1 - 1 - 1 - 1 - 1 - 1 - 1 - 1 - 1) with ((k - 80) / 8)
      by (symmetry; apply Z.div_unique with (r := k mod 8); lia).
    replace ((k - 80) mod 8) with (k mod 8)
      by (apply Z.mod_unique with (q := k / 8 - 10); lia).
    reflexivity.
Qed.

End Layout.

Section Regions.

Lemma values_regions (b : Buffer) :
  values b
  = map fst (readFields b timestampWidths 0)
    ++ map fst (readFields b partitionWidths 50)
    ++ map fst (readFields b randomWidths 80).
Proof. reflexivity. Qed.

Lemma region_widths :
  Forall (fun n => (n <= 31)%nat) partitionWidths
  /\ Forall (fun n => (n <= 31)%nat) randomWidths.
Proof.
  split; unfold partitionWidths, randomWidths; cbn [repeat];
    repeat (constructor; [lia|]); constructor.
Qed.

Variables (p t : Z) (r : Buffer).
Hypothesis Hp : 0 <= p <= 2 ^ 30 - 1.
Hypothesis Ht : 0 <= t <= 2 ^ 48 - 1.
Hypothesis Hlen : length r = 10%nat.
Hypothesis Hr : bytes r.

Lemma packed_symbols :
  unsafeEncode (packed p t r) = map symbol (values (packed p t r))
  /\ Forall (fun v => 0 <= v < 32) (values (packed p t r)).
Proof.
  pose proof (packed_bytes p t r Hlen Hr) as Hb.
  pose proof (packed_length p t r Hlen) as Hl.
  destruct (unsafeDecode_unsafeEncode _ Hb Hl) as (E & _ & _).
  destruct (values_range _ Hb) as (R & _).
  split; assumption.
Qed.

(** The fields of the three regions depend on the timestamp, the
    partition and the random bytes respectively, and on nothing else. *)
Lemma region_fields (p' t' : Z) (r' : Buffer) :
  length r' = 10%nat -> bytes r' ->
  (t = t' ->
   readFields (packed p t r) timestampWidths 0
   = readFields (packed p' t' r') timestampWidths 0)
  /\ (p = p' ->
      readFields (packed p t r) partitionWidths 50
      = readFields (packed p' t' r') partitionWidths 50)
  /\ (r = r' ->
      readFields (packed p t r) randomWidths 80
      = readFields (packed p' t' r') randomWidths 80).
Proof.
  intros Hlen' Hr'.
  pose proof (packed_bytes p t r Hlen Hr) as Hb.
  pose proof (packed_bytes p' t' r' Hlen' Hr') as Hb'.
  destruct widths_ok as [W1 _]. destruct region_widths as [W2 W3].
  split; [|split]; intros <-; apply readFields_ext; try assumption; try lia;
    intros k Hk; rewrite !tb_packed by lia.
  - change (widthSum timestampWidths) with 48 in Hk.
    destruct (Z.ltb_spec k 48); [reflexivity|lia].
  - change (widthSum partitionWidths) with 30 in Hk.
    destruct (Z.ltb_spec k 48); [lia|].
    destruct (Z.ltb_spec k 80); [reflexivity|lia].
  - change (widthSum randomWidths) with 80 in Hk.
    destruct (Z.ltb_spec k 48); [lia|].
    destruct (Z.ltb_spec k 80); [lia|reflexivity].
Qed.

End Regions.

(** X10.  The text is laid out as time, partition, randomness: the first ten
    characters of a generated identifier depend on the timestamp only,
    the next six on the partition only, the last sixteen on the random
    bytes only. *)
Theorem text_regions (p t p' t' : Z) (r r' : Buffer) :
  0 <= p <= 2 ^ 30 - 1 -> 0 <= t <= 2 ^ 48 - 1 ->
  length r = 10%nat -> bytes r ->
  0 <= p' <= 2 ^ 30 - 1 -> 0 <= t' <= 2 ^ 48 - 1 ->
  length r' = 10%nat -> bytes r' ->
  exists a b,
    generateWithTimestamp (Integral p) (Integral t) r = inr a
    /\ generateWithTimestamp (Integral p') (Integral t') r' = inr b
    /\ (t = t' -> firstn 10 a = firstn 10 b)
    /\ (p = p' -> substring a 10 16 = substring b 10 16)
    /\ (r = r' -> skipn 16 a = skipn 16 b).
Proof.
  intros Hp Ht Hlen Hr Hp' Ht' Hlen' Hr'.
  exists (unsafeEncode (packed p t r)), (unsafeEncode (packed p' t' r')).
  split; [apply generateWithTimestamp_packed; assumption|].
  split; [apply generateWithTimestamp_packed; assumption|].
  destruct (packed_symbols p t r Hlen Hr) as (-> & _).
  destruct (packed_symbols p' t' r' Hlen' Hr') as (-> & _).
  destruct (region_fields p t r Hlen Hr p' t' r' Hlen' Hr') as (F1 & F2 & F3).
  rewrite !values_regions. unfold substring.
  split; [|split]; intros E.
  - specialize (F1 E).
    change (firstn 10 (map symbol
              (map fst (readFields (packed p t r) timestampWidths 0) ++ _)))
      with (map symbol (map fst (readFields (packed p t r) timestampWidths 0))).
    change (firstn 10 (map symbol
              (map fst (readFields (packed p' t' r') timestampWidths 0) ++ _)))
      with (map symbol (map fst (readFields (packed p' t' r') timestampWidths 0))).
    rewrite F1. reflexivity.
  - specialize (F2 E).
    change (firstn (16 - 10) (skipn 10 (map symbol
              (_ ++ map fst (readFields (packed p t r) partitionWidths 50) ++ _))))
      with (map symbol (map fst (readFields (packed p t r) partitionWidths 50))).
    change (firstn (16 - 10) (skipn 10 (map symbol
              (_ ++ map fst (readFields (packed p' t' r') partitionWidths 50) ++ _))))
      with (map symbol (map fst (readFields (packed p' t' r') partitionWidths 50))).
    rewrite F2. reflexivity.
  - specialize (F3 E).
    change (skipn 16 (map symbol
              (_ ++ _ ++ map fst (readFields (packed p t r) randomWidths 80))))
      with (map symbol (map fst (readFields (packed p t r) randomWidths 80))).
    change (skipn 16 (map symbol
              (_ ++ _ ++ map fst (readFields (packed p' t' r') randomWidths 80))))
      with (map symbol (map fst (readFields (packed p' t' r') randomWidths 80))).
    rewrite F3. reflexivity.
Qed.

Lemma text_regions_witness :
  exists a b,
    generateWithTimestamp (Integral 5) (Integral 1700000000000) (repeat 1 10)
    = inr a
    /\ generateWithTimestamp (Integral 5) (Integral 1700000000000) (repeat 2 10)
       = inr b
    /\ (1700000000000 = 1700000000000 -> firstn 10 a = firstn 10 b)
    /\ (5 = 5 -> substring a 10 16 = substring b 10 16)
    /\ (repeat 1 10 = repeat 2 10 -> skipn 16 a = skipn 16 b).
Proof.
  apply (text_regions 5 1700000000000 5 1700000000000 (repeat 1 10) (repeat 2 10));
    try lia; try reflexivity; apply bytes_repeat; lia.
Defined.

(** ** Order *)

Section Order.

Lemma split_bits (v T N j : Z) :
  0 <= T -> 0 <= N < 2 ^ T -> 0 <= j ->
  Z.testbit (v * 2 ^ T + N) j
  = if j <? T then Z.testbit N j else Z.testbit v (j - T).
Proof.
  intros HT HN Hj.
  assert (Hp : 0 < 2 ^ T) by (apply Z.pow_pos_nonneg; lia).
  destruct (Z.ltb_spec j T).
  - rewrite <- (Z.mod_pow2_bits_low (v * 2 ^ T + N) T j) by lia.
    rewrite Z.add_comm, Z.mod_add, Z.mod_small by lia. reflexivity.
  - replace j with (j - T + T) at 1 by lia.
    rewrite <- Z.div_pow2_bits by lia.
    rewrite Z.div_add_l, Z.div_small by lia. f_equal. lia.
Qed.

Lemma num_range (fs : list field) :
  fitting fs -> 0 <= num fs < 2 ^ total fs.
Proof.
  unfold total. induction 1 as [|[v n] fs [Hv _] _ IH]; cbn [num map snd widthSum].
  - change (2 ^ 0) with 1. lia.
  - cbn [fst snd] in Hv. fold (total fs) in *.
    pose proof (widthSum_nonneg (map snd fs)) as Hs. fold (total fs) in Hs.
    rewrite Z.pow_add_r by lia.
    assert (0 < 2 ^ total fs) by (apply Z.pow_pos_nonneg; lia). nia.
Qed.

Lemma num_testbit (fs : list field) :
  fitting fs ->
  forall j, 0 <= j ->
    Z.testbit (num fs) j
    = if j <? total fs then sbit fs (total fs - 1 - j) else false.
Proof.
  induction 1 as [|[v n] fs [Hv Hn] Hf IH]; intros j Hj.
  - cbn. rewrite Z.testbit_0_l. destruct (j <? 0); reflexivity.
  - cbn [fst snd] in Hv. cbn [num sbit].
    pose proof (widthSum_nonneg (map snd fs)) as Hs. fold (total fs) in Hs.
    change (total ((v, n) :: fs)) with (Z.of_nat n + total fs).
    rewrite split_bits by (try apply num_range; assumption || lia).
    destruct (Z.ltb_spec j (total fs)).
    + rewrite IH by lia.
      destruct (Z.ltb_spec j (total fs)); [|lia].
      destruct (Z.ltb_spec j (Z.of_nat n + total fs)); [|lia].
      destruct (Z.ltb_spec (Z.of_nat n + total fs - 1 - j) (Z.of_nat n)); [lia|].
      f_equal. lia.
    + destruct (Z.ltb_spec j (Z.of_nat n + total fs)).
      * destruct (Z.ltb_spec (Z.of_nat n + total fs - 1 - j) (Z.of_nat n)); [|lia].
        f_equal. lia.
      * apply testbit_above with (n := Z.of_nat n); lia.
Qed.

(** The ten timestamp fields spell the timestamp, the six partition fields
    the partition. *)
Lemma num_packed (p t : Z) (r : Buffer) :
  0 <= p <= 2 ^ 30 - 1 -> 0 <= t <= 2 ^ 48 - 1 ->
  length r = 10%nat -> bytes r ->
  num (readFields (packed p t r) timestampWidths 0) = t
  /\ num (readFields (packed p t r) partitionWidths 50) = p.
Proof.
  intros Hp Ht Hlen Hr.
  pose proof (packed_bytes p t r Hlen Hr) as Hb.
  destruct widths_ok as [W1 _]. destruct region_widths as [W2 _].
  pose proof (fitting_readFields _ _ Hb W1 0 ltac:(lia)) as F1.
  pose proof (fitting_readFields _ _ Hb W2 50 ltac:(lia)) as F2.
  split; apply Z.bits_inj'; intros j Hj;
    rewrite num_testbit, total_readFields by assumption.
  - change (widthSum timestampWidths) with 48.
    destruct (Z.ltb_spec j 48).
    + rewrite sbit_readFields
        by (try assumption; change (widthSum timestampWidths) with 48; lia).
      rewrite tb_packed by lia.
      destruct (Z.ltb_spec (0 + (48 - 1 - j)) 48); [|lia]. f_equal. lia.
    + symmetry. apply testbit_above with (n := 48); lia.
  - change (widthSum partitionWidths) with 30.
    destruct (Z.ltb_spec j 30).
    + rewrite sbit_readFields
        by (try assumption; change (widthSum partitionWidths) with 30; lia).
      rewrite tb_packed by lia.
      destruct (Z.ltb_spec (50 + (30 - 1 - j)) 48); [lia|].
      destruct (Z.ltb_spec (50 + (30 - 1 - j)) 80); [|lia]. f_equal. lia.
    + symmetry. apply testbit_above with (n := 30); lia.
Qed.

Lemma symbol_step (v : Z) : 0 <= v < 31 -> symbol v < symbol (v + 1).
Proof.
  intros Hv. rewrite <- (Z2Nat.id v) by lia.
  assert (Hn : (Z.to_nat v < 31)%nat) by lia.
  revert Hn. generalize (Z.to_nat v) as n. intros n Hn.
  do 31 (destruct n as [|n]; [vm_compute; reflexivity|]). exfalso; lia.
Qed.

(** The alphabet is in increasing code-unit order. *)
Lemma symbol_mono (v w : Z) : 0 <= v -> v < w -> w < 32 -> symbol v < symbol w.
Proof.
  intros Hv Hvw Hw.
  replace w with (v + 1 + Z.of_nat (Z.to_nat (w - v - 1))) in * by lia.
  generalize dependent (Z.to_nat (w - v - 1)). intros n.
  induction n as [|n IH]; intros Hvw Hw.
  - rewrite Z.add_0_r. apply symbol_step. lia.
  - specialize (IH ltac:(lia) ltac:(lia)).
    pose proof (symbol_step (v + 1 + Z.of_nat n) ltac:(lia)) as St.
    replace (v + 1 + Z.of_nat (S n)) with (v + 1 + Z.of_nat n + 1) by lia. lia.
Qed.

(** Fields of equal widths compare as the numbers they spell. *)
Lemma num_lt_string (fs1 : list field) :
  forall fs2 l1 l2,
    fitting fs1 -> fitting fs2 -> map snd fs1 = map snd fs2 ->
    Forall (fun f => fst f < 32) fs1 -> Forall (fun f => fst f < 32) fs2 ->
    num fs1 < num fs2 ->
    string_ltb (map symbol (map fst fs1 ++ l1)) (map symbol (map fst fs2 ++ l2))
    = true.
Proof.
  induction fs1 as [|[v1 n1] fs1 IH]; intros [|[v2 n2] fs2] l1 l2 F1 F2 W S1 S2 H;
    try discriminate W.
  - cbn in H. lia.
  - inversion F1 as [|? ? [Hv1 _] F1']; inversion F2 as [|? ? [Hv2 _] F2'];
      inversion S1 as [|? ? Hs1 S1']; inversion S2 as [|? ? Hs2 S2']; subst.
    cbn [fst snd] in *. cbn [map snd] in W. injection W as -> W.
    cbn [num] in H. cbn [map fst app string_ltb].
    assert (T : total fs1 = total fs2) by (unfold total; rewrite W; reflexivity).
    rewrite T in H.
    pose proof (num_range fs1 F1') as R1. pose proof (num_range fs2 F2') as R2.
    rewrite T in R1.
    assert (0 < 2 ^ total fs2).
    { apply Z.pow_pos_nonneg; [lia|]. unfold total. apply widthSum_nonneg. }
    destruct (Z.lt_trichotomy v1 v2) as [L|[E|G]].
    + pose proof (symbol_mono v1 v2 ltac:(lia) L Hs2) as M.
      destruct (Z.ltb_spec (symbol v1) (symbol v2)); [reflexivity|lia].
    + subst v2. rewrite Z.eqb_refl. cbn [andb].
      rewrite (IH fs2 l1 l2) by (assumption || lia). apply orb_true_r.
    + exfalso. nia.
Qed.

Lemma string_ltb_asym (a : jsstring) :
  forall b, string_ltb a b = true -> string_ltb b a = false.
Proof.
  induction a as [|x a IH]; intros [|y b]; cbn [string_ltb]; try discriminate;
    try reflexivity.
  intros H. apply orb_true_iff in H.
  destruct (Z.ltb_spec y x); destruct (Z.ltb_spec x y); destruct (Z.eqb_spec y x);
    destruct (Z.eqb_spec x y); cbn [orb andb] in *; try lia; try reflexivity;
    destruct H as [H|H]; try discriminate; apply IH, H.
Qed.

Lemma readFields_small (b : Buffer) (ws : list nat) :
  bytes b -> Forall (fun n => (n <= 5)%nat) ws ->
  forall off, 0 <= off -> Forall (fun f => fst f < 32) (readFields b ws off).
Proof.
  intros Hb Hws. induction Hws as [|n ws Hn _ IH]; intros off Hoff;
    cbn [readFields]; constructor.
  - cbn [fst]. pose proof (rd_range b n off Hb Hoff ltac:(lia)) as R.
    assert (2 ^ Z.of_nat n <= 2 ^ 5) by (apply Z.pow_le_mono_r; lia). lia.
  - apply IH. lia.
Qed.

End Order.

(** X11.  Identifiers sort by time: of two generated identifiers the one with
    the smaller timestamp is the smaller string, whatever the partitions
    and the random bytes. *)
Theorem generateWithTimestamp_sorted (p t p' t' : Z) (r r' : Buffer) :
  0 <= p <= 2 ^ 30 - 1 -> 0 <= t <= 2 ^ 48 - 1 ->
  length r = 10%nat -> bytes r ->
  0 <= p' <= 2 ^ 30 - 1 -> 0 <= t' <= 2 ^ 48 - 1 ->
  length r' = 10%nat -> bytes r' ->
  t < t' ->
  exists a b,
    generateWithTimestamp (Integral p) (Integral t) r = inr a
    /\ generateWithTimestamp (Integral p') (Integral t') r' = inr b
    /\ string_ltb a b = true
    /\ string_ltb b a = false.
Proof.
  intros Hp Ht Hlen Hr Hp' Ht' Hlen' Hr' Lt.
  exists (unsafeEncode (packed p t r)), (unsafeEncode (packed p' t' r')).
  split; [apply generateWithTimestamp_packed; assumption|].
  split; [apply generateWithTimestamp_packed; assumption|].
  destruct (packed_symbols p t r Hlen Hr) as (-> & _).
  destruct (packed_symbols p' t' r' Hlen' Hr') as (-> & _).
  rewrite !values_regions.
  pose proof (packed_bytes p t r Hlen Hr) as Hb.
  pose proof (packed_bytes p' t' r' Hlen' Hr') as Hb'.
  destruct widths_ok as [W1 _].
  pose proof (fitting_readFields _ _ Hb W1 0 ltac:(lia)) as F.
  pose proof (fitting_readFields _ _ Hb' W1 0 ltac:(lia)) as F'.
  destruct (num_packed p t r Hp Ht Hlen Hr) as (N & _).
  destruct (num_packed p' t' r' Hp' Ht' Hlen' Hr') as (N' & _).
  assert (A : string_ltb
                (map symbol
                   (map fst (readFields (packed p t r) timestampWidths 0)
                    ++ map fst (readFields (packed p t r) partitionWidths 50)
                    ++ map fst (readFields (packed p t r) randomWidths 80)))
                (map symbol
                   (map fst (readFields (packed p' t' r') timestampWidths 0)
                    ++ map fst (readFields (packed p' t' r') partitionWidths 50)
                    ++ map fst (readFields (packed p' t' r') randomWidths 80)))
              = true).
  { apply num_lt_string; try assumption.
    - reflexivity.
    - apply readFields_small; [assumption| |lia].
      unfold timestampWidths. repeat (constructor; [lia|]). constructor.
    - apply readFields_small; [assumption| |lia].
      unfold timestampWidths. repeat (constructor; [lia|]). constructor.
    - lia. }
  split; [exact A|]. apply string_ltb_asym, A.
Qed.

Lemma generateWithTimestamp_sorted_witness :
  exists a b,
    generateWithTimestamp (Integral 1073741823) (Integral 1699999999999)
      (repeat 255 10) = inr a
    /\ generateWithTimestamp (Integral 0) (Integral 1700000000000)
         (repeat 0 10) = inr b
    /\ string_ltb a b = true
    /\ string_ltb b a = false.
Proof.
  apply (generateWithTimestamp_sorted 1073741823 1699999999999 0 1700000000000
           (repeat 255 10) (repeat 0 10));
    try lia; try reflexivity; apply bytes_repeat; lia.
Defined.

(** ** Canonical form *)

Section Canonical.

Lemma decode_inv (s : jsstring) (b : Buffer) :
  decode s = Ok b ->
  length s = 32%nat /\ firstOutOfRange s = false
  /\ Forall (fun c => In (toLowerCase c) ENCODE_CHARS) s.
Proof.
  unfold decode.
  destruct (Nat.eqb_spec (length s) 32) as [Hlen|]; [|discriminate].
  cbn [negb]. destruct (firstOutOfRange s); [discriminate|].
  rewrite unsafeDecode_decodeAll by exact Hlen.
  destruct (decodeAll s) as [e|vs] eqn:E; [discriminate|]. intros _.
  split; [exact Hlen|]. split; [reflexivity|].
  apply decodeAll_inv in E. clear Hlen.
  induction E as [|c v cs vs' H _ IH]; constructor; [|exact IH].
  apply decodeChar_accepts. exists v. exact H.
Qed.

(** What [decode] accepts is, in lower case, what [isPfid] accepts. *)
Lemma decode_isPfid_lower (s : jsstring) (b : Buffer) :
  decode s = Ok b -> isPfid (map toLowerCase s) = true.
Proof.
  intros H. destruct (decode_inv s b H) as (Hlen & Hf & Hall).
  apply isPfid_iff. split; [rewrite length_map; exact Hlen|]. split.
  - rewrite <- firstOutOfRange_lower in Hf.
    destruct s as [|c rest]; [discriminate|].
    cbn [map hd]. unfold firstOutOfRange in Hf.
    change (charAt (map toLowerCase (c :: rest)) 0)
      with (Some (toLowerCase c)) in Hf.
    cbv beta iota in Hf. apply orb_false_iff in Hf. destruct Hf as [H1 H2].
    apply Z.ltb_ge in H1. apply Z.ltb_ge in H2. lia.
  - apply Forall_forall. intros c Hc. apply in_map_iff in Hc.
    destruct Hc as (x & <- & Hx). rewrite Forall_forall in Hall.
    apply Hall, Hx.
Qed.

End Canonical.

(** X12.  [encode] after [decode] is the lower-case form: whenever [decode]
    accepts a string, in whatever case, the binary it returns has 20
    bytes and clear padding bits, and encodes to the string in lower case,
    which [isPfid] accepts. *)
Theorem encode_decode_canonical (s : jsstring) (b : Buffer) :
  decode s = Ok b ->
  length b = 20%nat /\ bytes b /\ get b 6 < 64
  /\ isPfid (map toLowerCase s) = true
  /\ encode b = Ok (map toLowerCase s).
Proof.
  intros H. pose proof (decode_isPfid_lower s b H) as V.
  rewrite <- decode_lower in H.
  destruct (encode_decode_valid _ V) as (D & Hb & Hl & E).
  rewrite D in H. injection H as <-.
  split; [exact Hl|]. split; [exact Hb|]. split; [|split; [exact V|exact E]].
  destruct (decode_unsafeEncode _ Hb Hl) as (E' & _ & D').
  rewrite E in E'. injection E' as E'. rewrite <- E', D in D'.
  injection D' as D'.
  assert (G : get (clearPadding (decoded (map toLowerCase s))) 6
              = get (decoded (map toLowerCase s)) 6) by (rewrite <- D'; reflexivity).
  unfold clearPadding in G. rewrite get_set_same in G by (rewrite Hl; lia).
  pose proof (get_range _ 6 Hb) as Hx.
  pose proof (land_range (get (decoded (map toLowerCase s)) 6) 63 6
                ltac:(lia) ltac:(lia) ltac:(lia)) as Hland.
  change (2 ^ 6) with 64 in Hland. rewrite Z.mod_small in G by lia. lia.
Qed.

Lemma encode_decode_canonical_witness :
  let s := lit "7ZZZZZZZZZABCDEFzzzzzzzzzzzzzzzz" in
  let b := decoded (map toLowerCase s) in
  length b = 20%nat /\ bytes b /\ get b 6 < 64
  /\ isPfid (map toLowerCase s) = true
  /\ encode b = Ok (map toLowerCase s).
Proof.
  cbv zeta.
  apply (encode_decode_canonical (lit "7ZZZZZZZZZABCDEFzzzzzzzzzzzzzzzz")).
  vm_compute. reflexivity.
Defined.

(** X13.  Two strings decode to the same binary only if they are equal up to
    case. *)
Theorem decode_injective (s1 s2 : jsstring) (b : Buffer) :
  decode s1 = Ok b -> decode s2 = Ok b ->
  map toLowerCase s1 = map toLowerCase s2.
Proof.
  intros H1 H2.
  pose proof (decode_isPfid_lower s1 b H1) as V1.
  pose proof (decode_isPfid_lower s2 b H2) as V2.
  rewrite <- decode_lower in H1, H2.
  destruct (encode_decode_valid _ V1) as (D1 & _ & _ & E1).
  destruct (encode_decode_valid _ V2) as (D2 & _ & _ & E2).
  assert (Eq : decoded (map toLowerCase s1) = decoded (map toLowerCase s2))
    by congruence.
  rewrite Eq in E1. congruence.
Qed.

Lemma decode_injective_witness :
  map toLowerCase (lit "0A0000000000000000000000000000zZ")
  = map toLowerCase (lit "0a0000000000000000000000000000Zz").
Proof.
  apply (decode_injective _ _
           (decoded (lit "0a0000000000000000000000000000zz")));
    vm_compute; reflexivity.
Defined.

(** ** Base 32 *)

Section Base32.

Lemma num_base32 (fs : list field) :
  Forall (fun f => 0 <= fst f < 32) fs -> Forall (fun f => snd f = 5%nat) fs ->
  total fs = 5 * Z.of_nat (length fs)
  /\ num fs = base32 (map symbol (map fst fs)).
Proof.
  unfold total.
  induction 1 as [|[v n] fs Hv _ IH]; intros Hw; [split; reflexivity|].
  inversion Hw as [|? ? Hn Hw']; subst. cbn [fst snd] in *. subst n.
  destruct (IH Hw') as (T & N).
  cbn [map snd fst widthSum num base32 length]. fold (total fs).
  unfold total. rewrite T, N, valueOf_symbol, !length_map by exact Hv.
  split; [lia|].
  assert (P : forall m, 0 <= m -> 2 ^ (5 * m) = 32 ^ m).
  { intros m Hm. change 32 with (2 ^ 5). rewrite <- Z.pow_mul_r by lia.
    reflexivity. }
  rewrite P by lia. reflexivity.
Qed.


(** Bytes 6-9 of a binary with clear padding bits spell the same number as
    its six partition fields. *)
Lemma partition_fields_value (b : Buffer) :
  bytes b -> length b = 20%nat -> get b 6 < 64 ->
  num (readFields b partitionWidths 50) = readUInt32BE b 6.
Proof.
  intros Hb Hlen H6.
  pose proof (get_range b 6 Hb) as R6. pose proof (get_range b 7 Hb) as R7.
  pose proof (get_range b 8 Hb) as R8. pose proof (get_range b 9 Hb) as R9.
  set (q := readUInt32BE b 6).
  assert (Eq : q = get b 6 * 2 ^ 24 + get b 7 * 2 ^ 16 + get b 8 * 2 ^ 8 + get b 9)
    by reflexivity.
  assert (Hq : 0 <= q <= 2 ^ 30 - 1) by lia.
  pose proof (bytes_repeat 0 10 ltac:(lia)) as Hz.
  destruct (num_packed q 0 (repeat 0 10) Hq ltac:(lia) eq_refl Hz) as (_ & N).
  rewrite <- N. f_equal.
  destruct region_widths as [W2 _].
  apply readFields_ext;
    [exact Hb|apply packed_bytes; [reflexivity|exact Hz]|exact W2|lia|].
  change (widthSum partitionWidths) with 30. intros k Hk. unfold tb.
  assert (G6 : get (packed q 0 (repeat 0 10)) 6 = get b 6).
  { change (get (packed q 0 (repeat 0 10)) 6) with ((q / 2 ^ 24) mod 256).
    replace (q / 2 ^ 24) with (get b 6)
      by (apply Z.div_unique with (r := q - get b 6 * 2 ^ 24); lia).
    apply Z.mod_small. lia. }
  assert (G7 : get (packed q 0 (repeat 0 10)) 7 = get b 7).
  { change (get (packed q 0 (repeat 0 10)) 7) with ((q / 2 ^ 16) mod 256).
    replace (q / 2 ^ 16) with (get b 6 * 2 ^ 8 + get b 7)
      by (apply Z.div_unique with (r := get b 8 * 2 ^ 8 + get b 9); lia).
    symmetry. apply Z.mod_unique with (q := get b 6); lia. }
  assert (G8 : get (packed q 0 (repeat 0 10)) 8 = get b 8).
  { change (get (packed q 0 (repeat 0 10)) 8) with ((q / 2 ^ 8) mod 256).
    replace (q / 2 ^ 8) with (get b 6 * 2 ^ 16 + get b 7 * 2 ^ 8 + get b 8)
      by (apply Z.div_unique with (r := get b 9); lia).
    symmetry. apply Z.mod_unique with (q := get b 6 * 2 ^ 8 + get b 7); lia. }
  assert (G9 : get (packed q 0 (repeat 0 10)) 9 = get b 9).
  { change (get (packed q 0 (repeat 0 10)) 9) with (q mod 256).
    symmetry.
    apply Z.mod_unique
      with (q := get b 6 * 2 ^ 16 + get b 7 * 2 ^ 8 + get b 8); lia. }
  pose proof (Z.div_mod k 8 ltac:(lia)) as Hd.
  pose proof (Z.mod_pos_bound k 8 ltac:(lia)) as Hm.
  assert (E : k / 8 = 6 \/ k / 8 = 7 \/ k / 8 = 8 \/ k / 8 = 9) by lia.
  destruct E as [E|[E|[E|E]]]; rewrite E; congruence.
Qed.

Lemma map_snd_readFields (b : Buffer) (ws : list nat) (off : Z) :
  map snd (readFields b ws off) = ws.
Proof.
  revert off. induction ws as [|n ws IH]; intros off; cbn [readFields map snd];
    [reflexivity|]. rewrite IH. reflexivity.
Qed.

Lemma num_base32_head (v : Z) (n : nat) (fs : list field) :
  0 <= v < 32 ->
  Forall (fun f => 0 <= fst f < 32) fs -> Forall (fun f => snd f = 5%nat) fs ->
  num ((v, n) :: fs) = base32 (map symbol (v :: map fst fs)).
Proof.
  intros Hv Hr Hw. destruct (num_base32 fs Hr Hw) as (T & N).
  cbn [num map base32]. rewrite T, N, valueOf_symbol, !length_map by exact Hv.
  assert (P : forall m, 0 <= m -> 2 ^ (5 * m) = 32 ^ m).
  { intros m Hm. change 32 with (2 ^ 5). rewrite <- Z.pow_mul_r by lia.
    reflexivity. }
  rewrite P by lia. reflexivity.
Qed.

Lemma readFields_fives (b : Buffer) (k : nat) (off : Z) :
  bytes b -> 0 <= off ->
  Forall (fun f => 0 <= fst f < 32) (readFields b (repeat 5%nat k) off)
  /\ Forall (fun f => snd f = 5%nat) (readFields b (repeat 5%nat k) off).
Proof.
  intros Hb. revert off. induction k as [|k IH]; intros off Hoff;
    cbn [repeat readFields]; [split; constructor|].
  destruct (IH (off + Z.of_nat 5) ltac:(lia)) as (R & W).
  split; constructor; try assumption; [|reflexivity].
  cbn [fst]. apply (rd_range b 5 off Hb Hoff). lia.
Qed.

(** A valid text decodes to a binary with clear padding bits. *)
Lemma decoded_padding (s : jsstring) :
  isPfid s = true -> get (decoded s) 6 < 64.
Proof.
  intros V. destruct (encode_decode_valid _ V) as (D & Hb & Hl & E).
  destruct (decode_unsafeEncode _ Hb Hl) as (E' & _ & D').
  assert (Es : unsafeEncode (decoded s) = s) by congruence.
  rewrite Es in D'.
  assert (C : clearPadding (decoded s) = decoded s) by congruence.
  assert (G : get (clearPadding (decoded s)) 6 = get (decoded s) 6)
    by (rewrite C; reflexivity).
  unfold clearPadding in G. rewrite get_set_same in G by (rewrite Hl; lia).
  pose proof (get_range _ 6 Hb) as Hx.
  pose proof (land_range (get (decoded s) 6) 63 6
                ltac:(lia) ltac:(lia) ltac:(lia)) as Hland.
  change (2 ^ 6) with 64 in Hland. rewrite Z.mod_small in G by lia. lia.
Qed.

(** The value [decodePartition] assembles from six symbol values. *)
Lemma partition_value (p1 p2 p3 p4 p5 p6 : Z) :
  0 <= p1 < 32 -> 0 <= p2 < 32 -> 0 <= p3 < 32 ->
  0 <= p4 < 32 -> 0 <= p5 < 32 -> 0 <= p6 < 32 ->
  band (readUInt32BE
          [ (bor (bor (shl 0 6) (shl p1 1)) (shr p2 4)) mod 256;
            (bor (shl (band p2 15) 4) (shr p3 1)) mod 256;
            (bor (bor (shl (band p3 1) 7) (shl p4 2)) (shr p5 3)) mod 256;
            (bor (shl (band p5 7) 5) (shr p6 0)) mod 256 ] 0)
    1073741823
  = p1 * 32 ^ 5 + p2 * 32 ^ 4 + p3 * 32 ^ 3 + p4 * 32 ^ 2 + p5 * 32 + p6.
Proof.
  intros H1 H2 H3 H4 H5 H6.
  set (vs := repeat 0 10 ++ [p1; p2; p3; p4; p5; p6] ++ repeat 0 16).
  set (s := map symbol vs).
  assert (Hvs : Forall (fun v => 0 <= v < 32) vs).
  { unfold vs. cbn [repeat app]. repeat (constructor; [lia|]). constructor. }
  assert (V : isPfid s = true).
  { apply isPfid_symbols; [reflexivity|exact Hvs|cbn; lia]. }
  destruct (partition_of_valid s V) as (p & DP & PD & _).
  change (substring s 10 16)
    with [symbol p1; symbol p2; symbol p3; symbol p4; symbol p5; symbol p6] in DP.
  rewrite (decodePartition_eq _ _ _ _ _ _ p1 p2 p3 p4 p5 p6) in DP
    by (apply decodeChar_symbol; assumption).
  destruct (encode_decode_valid _ V) as (D & Hb & Hl & _).
  rewrite (partitionOfDecoded_ok _ _ D) in PD.
  match type of DP with
  | Ok ?x = Ok p =>
      match type of PD with
      | Ok ?y = Ok p => assert (Exy : x = y) by congruence
      end
  end.
  rewrite Exy. clear DP PD Exy p.
  pose proof (decoded_padding s V) as H64.
  rewrite <- (partition_fields_value _ Hb Hl H64).
  pose proof (values_valid s V) as Ev.
  unfold s in Ev at 2. rewrite map_valueOf_symbol in Ev by exact Hvs.
  assert (Ep : map fst (readFields (decoded s) partitionWidths 50)
               = [p1; p2; p3; p4; p5; p6]).
  { change (map fst (readFields (decoded s) partitionWidths 50))
      with (firstn 6 (skipn 10 (values (decoded s)))).
    rewrite Ev. reflexivity. }
  destruct (readFields_fives (decoded s) 6 50 Hb ltac:(lia)) as (R & W).
  fold partitionWidths in R, W.
  destruct (readFields (decoded s) partitionWidths 50) as [|[v n] fs] eqn:Ef;
    [discriminate|].
  inversion R as [|? ? Rv Rfs]; inversion W as [|? ? _ Wfs]; subst.
  etransitivity;
    [apply (f_equal (fun x => band x 1073741823));
     exact (num_base32_head v n fs Rv Rfs Wfs)|].
  cbn [map fst] in Ep. rewrite Ep.
  cbn [map base32 length].
  rewrite !valueOf_symbol by assumption.
  cbn [Z.of_nat Pos.of_succ_nat Pos.succ].
  match goal with
  | |- band ?e _ = ?rhs => replace e with rhs by ring
  end.
  apply mask30. lia.
Qed.

Lemma decodeChar_valueOf (c : codeunit) :
  In (toLowerCase c) ENCODE_CHARS ->
  decodeChar (Some c) = inr (valueOf c) /\ 0 <= valueOf c < 32.
Proof.
  intros H. pose proof (lower_symbol (toLowerCase c)) as L.
  specialize (L (proj2 (inClass_In _ _) H)).
  destruct L as (R & _ & D).
  unfold decodeChar, valueOf in *. rewrite toLowerCase_idem in *.
  destruct (lookup DECODE_MAP (toLowerCase c)); [|discriminate].
  split; [reflexivity|exact R].
Qed.

End Base32.

Lemma decodePartition_base32 (cs : jsstring) :
  length cs = 6%nat ->
  Forall (fun c => In (toLowerCase c) ENCODE_CHARS) cs ->
  decodePartition cs = Ok (base32 cs) /\ 0 <= base32 cs <= 2 ^ 30 - 1.
Proof.
  intros Hlen Hall.
  do 6 (destruct cs as [|? cs]; [discriminate|]).
  destruct cs; [|discriminate]. clear Hlen.
  repeat match goal with
         | H : Forall _ (_ :: _) |- _ =>
             let A := fresh "A" in
             apply Forall_cons_iff in H; destruct H as [A H];
             apply decodeChar_valueOf in A; destruct A
         end.
  erewrite decodePartition_eq by eassumption.
  rewrite partition_value by assumption.
  cbn [base32 length Z.of_nat Pos.of_succ_nat Pos.succ].
  split; [f_equal; ring|lia].
Qed.

(** X14.  [decodePartition] reads its six characters as a base-32 number, most
    significant first, upper case counting as lower case: the result is
    that number, within [0, 2^30 - 1]. *)
Theorem decodePartition_value (cs : jsstring) :
  length cs = 6%nat ->
  Forall (fun c => In (toLowerCase c) ENCODE_CHARS) cs ->
  decodePartition cs = Ok (base32 cs) /\ 0 <= base32 cs <= 2 ^ 30 - 1.
Proof. exact (decodePartition_base32 cs). Qed.

Lemma decodePartition_value_witness :
  decodePartition (lit "3NQk8n") = Ok (base32 (lit "3NQk8n"))
  /\ 0 <= base32 (lit "3NQk8n") <= 2 ^ 30 - 1.
Proof.
  apply (decodePartition_value (lit "3NQk8n")).
  - reflexivity.
  - apply Forall_forall. intros c Hc. apply alphabet_ignoring_case.
    revert Hc.
    cbv [ENCODE_CHARS lit map list_ascii_of_string code N_of_ascii
         N_of_digits Z.of_N N.add N.mul Pos.add Pos.mul Pos.succ In].
    lia.
Defined.



(** X16.  The digits of a generated identifier: read as base-32 numbers, most
    significant digit first, its first ten characters are the timestamp
    and its next six characters are the partition. *)
Theorem generateWithTimestamp_digits (p t : Z) (r : Buffer) :
  0 <= p <= 2 ^ 30 - 1 -> 0 <= t <= 2 ^ 48 - 1 ->
  length r = 10%nat -> bytes r ->
  exists a,
    generateWithTimestamp (Integral p) (Integral t) r = inr a
    /\ base32 (firstn 10 a) = t
    /\ base32 (substring a 10 16) = p.
Proof.
  intros Hp Ht Hlen Hr.
  exists (unsafeEncode (packed p t r)).
  split; [apply generateWithTimestamp_packed; assumption|].
  pose proof (packed_bytes p t r Hlen Hr) as Hb.
  destruct (packed_symbols p t r Hlen Hr) as (-> & _).
  destruct (num_packed p t r Hp Ht Hlen Hr) as (Nt & Np).
  rewrite values_regions. unfold substring.
  change (firstn 10 (map symbol
            (map fst (readFields (packed p t r) timestampWidths 0) ++ _)))
    with (map symbol (map fst (readFields (packed p t r) timestampWidths 0))).
  change (firstn (16 - 10) (skipn 10 (map symbol
            (_ ++ map fst (readFields (packed p t r) partitionWidths 50) ++ _))))
    with (map symbol (map fst (readFields (packed p t r) partitionWidths 50))).
  split.
  - rewrite <- Nt at 2.
    change (readFields (packed p t r) timestampWidths 0)
      with ((rd (packed p t r) 0 3, 3%nat)
              :: readFields (packed p t r) (repeat 5%nat 9) (0 + Z.of_nat 3)).
    destruct (readFields_fives (packed p t r) 9 (0 + Z.of_nat 3) Hb ltac:(lia))
      as (R & W).
    symmetry. apply num_base32_head; try assumption.
    pose proof (rd_range (packed p t r) 3 0 Hb ltac:(lia) ltac:(lia)) as H3.
    change (2 ^ Z.of_nat 3) with 8 in H3. lia.
  - rewrite <- Np at 2.
    destruct (readFields_fives (packed p t r) 6 50 Hb ltac:(lia)) as (R & W).
    symmetry. apply num_base32; assumption.
Qed.

Lemma generateWithTimestamp_digits_witness :
  exists a,
    generateWithTimestamp (Integral 123456789) (Integral 1234567890000)
      (repeat 7 10) = inr a
    /\ base32 (firstn 10 a) = 1234567890000
    /\ base32 (substring a 10 16) = 123456789.
Proof.
  apply (generateWithTimestamp_digits 123456789 1234567890000 (repeat 7 10));
    try lia; try reflexivity; apply bytes_repeat; lia.
Defined.

(** X17.  [extractPartition] of a valid identifier is the number its
    characters 10 to 15 spell in base 32. *)
Theorem extractPartition_digits (s : jsstring) :
  isPfid s = true ->
  extractPartition s = Ok (base32 (substring s 10 16)).
Proof.
  intros V. apply isPfid_iff in V as V'. destruct V' as (Hlen & _ & Hall).
  unfold extractPartition. rewrite V. cbn [negb]. cbv zeta.
  destruct (decodePartition_base32 (substring s 10 16)) as (E & _).
  - unfold substring. rewrite length_firstn, length_skipn, Hlen. reflexivity.
  - unfold substring. apply Forall_take, Forall_drop.
    apply Forall_forall. intros c Hc. rewrite Forall_forall in Hall.
    apply alphabet_ignoring_case. left. apply Hall, Hc.
  - rewrite E. reflexivity.
Qed.

Lemma extractPartition_digits_witness :
  extractPartition (lit "013xrzp12g3nqk8n0000000000000000")
  = Ok (base32 (substring (lit "013xrzp12g3nqk8n0000000000000000") 10 16)).
Proof.
  apply (extractPartition_digits (lit "013xrzp12g3nqk8n0000000000000000")).
  vm_compute. reflexivity.
Defined.

(** X18.  [decode] accepts exactly the strings whose lower-case form [isPfid]
    accepts; every other string fails with [invalid_pfid]. *)
Theorem decode_outcome (s : jsstring) :
  (isPfid (map toLowerCase s) = true ->
   decode s = Ok (decoded (map toLowerCase s)))
  /\ (isPfid (map toLowerCase s) = false -> decode s = Failure invalid_pfid).
Proof.
  split.
  - intros V. rewrite <- decode_lower.
    apply (encode_decode_valid _ V).
  - intros V. destruct (decode s) as [b|e] eqn:D.
    + apply decode_isPfid_lower in D. congruence.
    + revert D. unfold decode.
      destruct (negb _); [congruence|].
      destruct (firstOutOfRange s); [congruence|].
      destruct (unsafeDecode s); congruence.
Qed.

Lemma decode_outcome_witness :
  decode (lit "7ZZZZZZZZZABCDEFzzzzzzzzzzzzzzzz")
  = Ok (decoded (map toLowerCase (lit "7ZZZZZZZZZABCDEFzzzzzzzzzzzzzzzz")))
  /\ decode (lit "8zzzzzzzzzabcdefzzzzzzzzzzzzzzzz") = Failure invalid_pfid.
Proof.
  split.
  - apply (proj1 (decode_outcome (lit "7ZZZZZZZZZABCDEFzzzzzzzzzzzzzzzz"))).
    vm_compute. reflexivity.
  - apply (proj2 (decode_outcome (lit "8zzzzzzzzzabcdefzzzzzzzzzzzzzzzz"))).
    vm_compute. reflexivity.
Defined.

(** X19.  Two 20-byte binaries have the same text only if they are equal except
    for the two padding bits, the top bits of byte 6. *)
Theorem encode_injective (b1 b2 : Buffer) (s : jsstring) :
  bytes b1 -> bytes b2 ->
  encode b1 = Ok s -> encode b2 = Ok s ->
  clearPadding b1 = clearPadding b2.
Proof.
  intros H1 H2 E1 E2.
  assert (L : forall b, encode b = Ok s -> length b = 20%nat).
  { intros b. unfold encode.
    destruct (Nat.eqb_spec (length b) 20); [auto|discriminate]. }
  destruct (decode_unsafeEncode b1 H1 (L _ E1)) as (E1' & _ & D1).
  destruct (decode_unsafeEncode b2 H2 (L _ E2)) as (E2' & _ & D2).
  assert (U : unsafeEncode b1 = unsafeEncode b2) by congruence.
  rewrite U in D1. congruence.
Qed.

Lemma encode_injective_witness :
  clearPadding (repeat 0 6 ++ 192 :: repeat 0 13) = clearPadding (repeat 0 20).
Proof.
  apply (encode_injective (repeat 0 6 ++ 192 :: repeat 0 13) (repeat 0 20)
           (lit "00000000000000000000000000000000")).
  - repeat constructor; lia.
  - apply bytes_repeat. lia.
  - vm_compute. reflexivity.
  - vm_compute. reflexivity.
Defined.

(** ** The zero identifier and the example *)

Lemma least_string (n : nat) (s : jsstring) :
  length s = n -> Forall (fun c => 48 <= c) s ->
  string_ltb s (repeat 48 n) = false
  /\ (s <> repeat 48 n -> string_ltb (repeat 48 n) s = true).
Proof.
  revert s. induction n as [|n IH]; intros [|c s] Hlen Hall;
    try discriminate; cbn [repeat string_ltb].
  - split; [reflexivity|]. intros H. contradiction H. reflexivity.
  - inversion Hall as [|? ? Hc Hs]; subst.
    injection Hlen as Hlen. destruct (IH s Hlen Hs) as (L1 & L2).
    split.
    + rewrite L1, andb_false_r, orb_false_r. apply Z.ltb_ge. exact Hc.
    + intros Hne. destruct (Z.ltb_spec 48 c) as [|Hle]; [reflexivity|].
      assert (c = 48) by lia. subst c. cbn [orb].
      rewrite Z.eqb_refl. cbn [andb]. apply L2.
      intros ->. apply Hne. reflexivity.
Qed.

(** X20.  [zero] is accepted by [isPfid] and is the least valid identifier: no
    valid identifier sorts before it and every other one sorts after
    it. *)
Theorem zero_least (s : jsstring) :
  isPfid s = true ->
  isPfid zero = true
  /\ string_ltb s zero = false
  /\ (s <> zero -> string_ltb zero s = true).
Proof.
  intros V. split; [vm_compute; reflexivity|].
  apply isPfid_iff in V. destruct V as (Hlen & _ & Hall).
  change zero with (repeat 48 32). apply least_string; [exact Hlen|].
  apply Forall_forall. intros c Hc. rewrite Forall_forall in Hall.
  specialize (Hall c Hc). revert Hall.
  cbv [ENCODE_CHARS lit map list_ascii_of_string code N_of_ascii
       N_of_digits Z.of_N N.add N.mul Pos.add Pos.mul Pos.succ In].
  lia.
Qed.

Lemma zero_least_witness :
  isPfid zero = true
  /\ string_ltb (lit "013xrzp12g3nqk8n0000000000000000") zero = false
  /\ (lit "013xrzp12g3nqk8n0000000000000000" <> zero ->
      string_ltb zero (lit "013xrzp12g3nqk8n0000000000000000") = true).
Proof.
  apply (zero_least (lit "013xrzp12g3nqk8n0000000000000000")).
  vm_compute. reflexivity.
Defined.

(** X21.  Whatever the random bytes, [generateExample] returns a valid
    identifier that starts with 013xrzp12g3nqk8n, the text of the
    timestamp 1234567890000 and the partition 123456789, and whose
    partition is 123456789. *)
Theorem generateExample_prefix (r : Buffer) :
  length r = 10%nat -> bytes r ->
  exists a,
    generateExample r = inr a
    /\ isPfid a = true
    /\ firstn 16 a = lit "013xrzp12g3nqk8n"
    /\ extractPartition a = Ok 123456789.
Proof.
  intros Hlen Hr.
  set (p := 123456789). set (t := 1234567890000).
  assert (Hp : 0 <= p <= 2 ^ 30 - 1) by (unfold p; lia).
  assert (Ht : 0 <= t <= 2 ^ 48 - 1) by (unfold t; lia).
  exists (unsafeEncode (packed p t r)).
  split; [apply generateWithTimestamp_packed; assumption|].
  destruct (packed_text p t r Hp Hlen Hr) as (V & _ & X).
  split; [exact V|]. split; [|exact X].
  destruct (packed_symbols p t r Hlen Hr) as (-> & _).
  assert (H0 : bytes (repeat 0 10)) by (apply bytes_repeat; lia).
  destruct (region_fields p t r Hlen Hr p t (repeat 0 10) eq_refl H0)
    as (F1 & F2 & _).
  rewrite values_regions.
  change (firstn 16 (map symbol
            (map fst (readFields (packed p t r) timestampWidths 0)
             ++ map fst (readFields (packed p t r) partitionWidths 50) ++ _)))
    with (map symbol
            (map fst (readFields (packed p t r) timestampWidths 0)
             ++ map fst (readFields (packed p t r) partitionWidths 50))).
  rewrite (F1 eq_refl), (F2 eq_refl). vm_compute. reflexivity.
Qed.

Lemma generateExample_prefix_witness :
  exists a,
    generateExample (repeat 255 10) = inr a
    /\ isPfid a = true
    /\ firstn 16 a = lit "013xrzp12g3nqk8n"
    /\ extractPartition a = Ok 123456789.
Proof.
  apply (generateExample_prefix (repeat 255 10));
    [reflexivity|apply bytes_repeat; lia].
Defined.

(** ** The alphabet *)

Lemma decodeChar_upper (v : Z) :
  0 <= v < 32 -> decodeChar (Some (toUpperCase (symbol v))) = inr v.
Proof.
  revert v. apply symbol_cases. intros n Hn.
  do 32 (destruct n as [|n]; [reflexivity|]). exfalso. lia.
Qed.

(** X22.  The two tables are inverse to each other: [encodeChar] of a value in
    [0, 31] is one character, which [decodeChar] maps back to the value,
    in lower and in upper case; and whatever [decodeChar] accepts has a
    value in [0, 31] that [encodeChar] maps to its lower-case form. *)
Theorem encodeChar_decodeChar (v : Z) (c : codeunit) :
  (0 <= v < 32 ->
   encodeChar v = [symbol v]
   /\ decodeChar (Some (symbol v)) = inr v
   /\ decodeChar (Some (toUpperCase (symbol v))) = inr v)
  /\ (decodeChar (Some c) = inr v ->
      0 <= v < 32 /\ encodeChar v = [toLowerCase c]).
Proof.
  split.
  - intros Hv. split; [apply encodeChar_symbol, Hv|].
    split; [apply decodeChar_symbol, Hv|apply decodeChar_upper, Hv].
  - intros D.
    assert (A : In (toLowerCase c) ENCODE_CHARS)
      by (apply decodeChar_accepts; exists v; exact D).
    destruct (decodeChar_valueOf c A) as (D' & R).
    assert (E : v = valueOf c) by congruence. subst v.
    split; [exact R|]. rewrite encodeChar_symbol by exact R.
    destruct (lower_symbol (toLowerCase c) (proj2 (inClass_In _ _) A))
      as (_ & S & _).
    unfold valueOf in S. rewrite toLowerCase_idem in S. f_equal. exact S.
Qed.

Lemma encodeChar_decodeChar_witness :
  (encodeChar 19 = [symbol 19]
   /\ decodeChar (Some (symbol 19)) = inr 19
   /\ decodeChar (Some (toUpperCase (symbol 19))) = inr 19)
  /\ (0 <= 19 < 32 /\ encodeChar 19 = [toLowerCase 8490]).
Proof.
  split.
  - apply (proj1 (encodeChar_decodeChar 19 0)). lia.
  - apply (proj2 (encodeChar_decodeChar 19 8490)). reflexivity.
Defined.

(** ** What the validator accepts is what the generator produces *)

Lemma digit (hi x lo d : Z) :
  0 < d -> 0 <= lo < d -> 0 <= x < 256 ->
  (((hi * 256 + x) * d + lo) / d) mod 256 = x.
Proof.
  intros Hd Hlo Hx.
  rewrite Z.div_add_l, (Z.div_small lo d), Z.add_0_r by lia.
  rewrite Z.add_comm, Z.mod_add by lia. apply Z.mod_small, Hx.
Qed.

Lemma digit0 (hi x : Z) : 0 <= x < 256 -> (hi * 256 + x) mod 256 = x.
Proof.
  intros Hx. rewrite Z.add_comm, Z.mod_add by lia. apply Z.mod_small, Hx.
Qed.

(** A 20-byte binary is the packing of the three fields read off it. *)
Lemma packed_unpack (b : Buffer) :
  bytes b -> length b = 20%nat ->
  packed (readUInt32BE b 6) (readTimestamp b) (skipn 10 b) = b.
Proof.
  intros Hb Hlen.
  do 20 (destruct b as [|? b]; [discriminate|]).
  destruct b; [|discriminate]. clear Hlen.
  unfold bytes in Hb.
  repeat match goal with
         | H : Forall _ (_ :: _) |- _ =>
             let A := fresh "A" in
             apply Forall_cons_iff in H; destruct H as [A H]
         end.
  match goal with
  | |- packed (readUInt32BE ?l 6) _ _ = _ =>
      match l with
      | [?b0; ?b1; ?b2; ?b3; ?b4; ?b5; ?b6; ?b7; ?b8; ?b9; _; _; _; _; _; _; _; _; _; _] =>
          change (readUInt32BE l 6)
            with (b6 * 2 ^ 24 + b7 * 2 ^ 16 + b8 * 2 ^ 8 + b9);
          change (readTimestamp l)
            with (b0 * 2 ^ 40 + b1 * 2 ^ 32 + b2 * 2 ^ 24
                  + b3 * 2 ^ 16 + b4 * 2 ^ 8 + b5);
          unfold packed; cbn [skipn app];
          set (P := b6 * 2 ^ 24 + b7 * 2 ^ 16 + b8 * 2 ^ 8 + b9);
          set (T := b0 * 2 ^ 40 + b1 * 2 ^ 32 + b2 * 2 ^ 24
                    + b3 * 2 ^ 16 + b4 * 2 ^ 8 + b5);
          replace ((T / 2 ^ 40) mod 256) with b0
            by (symmetry; replace T with ((0 * 256 + b0) * 2 ^ 40
                   + (b1 * 2 ^ 32 + b2 * 2 ^ 24 + b3 * 2 ^ 16 + b4 * 2 ^ 8 + b5))
                  by (unfold T; ring); apply digit; lia);
          replace ((T / 2 ^ 32) mod 256) with b1
            by (symmetry; replace T with ((b0 * 256 + b1) * 2 ^ 32
                   + (b2 * 2 ^ 24 + b3 * 2 ^ 16 + b4 * 2 ^ 8 + b5))
                  by (unfold T; ring); apply digit; lia);
          replace ((T / 2 ^ 24) mod 256) with b2
            by (symmetry; replace T with (((b0 * 2 ^ 8 + b1) * 256 + b2) * 2 ^ 24
                   + (b3 * 2 ^ 16 + b4 * 2 ^ 8 + b5))
                  by (unfold T; ring); apply digit; lia);
          replace ((T / 2 ^ 16) mod 256) with b3
            by (symmetry; replace T with (((b0 * 2 ^ 16 + b1 * 2 ^ 8 + b2) * 256 + b3) * 2 ^ 16
                   + (b4 * 2 ^ 8 + b5))
                  by (unfold T; ring); apply digit; lia);
          replace ((T / 2 ^ 8) mod 256) with b4
            by (symmetry; replace T with (((b0 * 2 ^ 24 + b1 * 2 ^ 16 + b2 * 2 ^ 8 + b3) * 256 + b4) * 2 ^ 8
                   + b5)
                  by (unfold T; ring); apply digit; lia);
          replace (T mod 256) with b5
            by (symmetry; replace T with ((b0 * 2 ^ 32 + b1 * 2 ^ 24 + b2 * 2 ^ 16 + b3 * 2 ^ 8 + b4) * 256 + b5)
                  by (unfold T; ring); apply digit0; lia);
          replace ((P / 2 ^ 24) mod 256) with b6
            by (symmetry; replace P with ((0 * 256 + b6) * 2 ^ 24
                   + (b7 * 2 ^ 16 + b8 * 2 ^ 8 + b9))
                  by (unfold P; ring); apply digit; lia);
          replace ((P / 2 ^ 16) mod 256) with b7
            by (symmetry; replace P with ((b6 * 256 + b7) * 2 ^ 16
                   + (b8 * 2 ^ 8 + b9))
                  by (unfold P; ring); apply digit; lia);
          replace ((P / 2 ^ 8) mod 256) with b8
            by (symmetry; replace P with (((b6 * 2 ^ 8 + b7) * 256 + b8) * 2 ^ 8 + b9)
                  by (unfold P; ring); apply digit; lia);
          replace (P mod 256) with b9
            by (symmetry; replace P with ((b6 * 2 ^ 16 + b7 * 2 ^ 8 + b8) * 256 + b9)
                  by (unfold P; ring); apply digit0; lia)
      end
  end.
  reflexivity.
Qed.

Lemma fields_range (b : Buffer) :
  bytes b -> length b = 20%nat -> get b 6 < 64 ->
  0 <= readUInt32BE b 6 <= 2 ^ 30 - 1 /\ 0 <= readTimestamp b <= 2 ^ 48 - 1.
Proof.
  intros Hb Hlen H6. unfold readUInt32BE, readTimestamp.
  pose proof (get_range b 0 Hb). pose proof (get_range b 1 Hb).
  pose proof (get_range b 2 Hb). pose proof (get_range b 3 Hb).
  pose proof (get_range b 4 Hb). pose proof (get_range b 5 Hb).
  pose proof (get_range b 6 Hb). pose proof (get_range b (6 + 1) Hb).
  pose proof (get_range b (6 + 2) Hb). pose proof (get_range b (6 + 3) Hb).
  lia.
Qed.

(** X23.  [isPfid] accepts exactly what the generator can produce: every
    valid identifier is the outcome of [generateWithTimestamp] on a valid
    partition, a valid timestamp and ten random bytes. *)
Theorem isPfid_generated (s : jsstring) :
  isPfid s = true ->
  exists p t r,
    0 <= p <= 2 ^ 30 - 1 /\ 0 <= t <= 2 ^ 48 - 1
    /\ length r = 10%nat /\ bytes r
    /\ generateWithTimestamp (Integral p) (Integral t) r = inr s.
Proof.
  intros V.
  destruct (encode_decode_valid s V) as (_ & Hb & Hl & _).
  pose proof (decoded_padding s V) as H6.
  destruct (fields_range _ Hb Hl H6) as (Rp & Rt).
  exists (readUInt32BE (decoded s) 6), (readTimestamp (decoded s)),
    (skipn 10 (decoded s)).
  assert (Hlen : length (skipn 10 (decoded s)) = 10%nat)
    by (rewrite length_skipn, Hl; reflexivity).
  assert (Hr : bytes (skipn 10 (decoded s))) by (apply Forall_drop, Hb).
  split; [exact Rp|]. split; [exact Rt|]. split; [exact Hlen|].
  split; [exact Hr|].
  rewrite generateWithTimestamp_packed by assumption.
  rewrite packed_unpack by assumption.
  rewrite (unsafeEncode_valid s V). reflexivity.
Qed.

Lemma isPfid_generated_witness :
  exists p t r,
    0 <= p <= 2 ^ 30 - 1 /\ 0 <= t <= 2 ^ 48 - 1
    /\ length r = 10%nat /\ bytes r
    /\ generateWithTimestamp (Integral p) (Integral t) r
       = inr (lit "7zzzzzzzzzzzzzzzabcdefghjkmnpqrs").
Proof.
  apply (isPfid_generated (lit "7zzzzzzzzzzzzzzzabcdefghjkmnpqrs")).
  vm_compute. reflexivity.
Defined.

(** ** Upper case *)

Lemma toLowerCase_alphabet (c : codeunit) :
  In c ENCODE_CHARS -> toLowerCase c = c.
Proof.
  intros H.
  cbv [ENCODE_CHARS lit map list_ascii_of_string code N_of_ascii
       N_of_digits Z.of_N N.add N.mul Pos.add Pos.mul Pos.succ In] in H.
  unfold toLowerCase. change (code "A") with 65. change (code "Z") with 90.
  destruct (Z.leb_spec 65 c); destruct (Z.leb_spec c 90); cbn [andb];
    try destruct (Z.eqb_spec c 8490); lia.
Qed.

(** X24.  The entry points disagree on upper case: a string with an
    upper-case letter whose lower-case form is a valid identifier is
    decoded by [decode], while [isPfid] rejects it, [extractPartition]
    fails on it with [invalid_pfid], and [generateRelated] throws that
    error. *)
Theorem upper_case_disagreement (s : jsstring) (now : Z) (random : Buffer) :
  isPfid (map toLowerCase s) = true -> map toLowerCase s <> s ->
  decode s = decode (map toLowerCase s)
  /\ (exists b, decode s = Ok b)
  /\ isPfid s = false
  /\ extractPartition s = Failure invalid_pfid
  /\ generateRelated s now random = inl (ThrownPfidError invalid_pfid).
Proof.
  intros V Hne.
  assert (F : isPfid s = false).
  { destruct (isPfid s) eqn:E; [|reflexivity].
    exfalso. apply Hne. apply isPfid_iff in E. destruct E as (_ & _ & Hall).
    clear V Hne. induction Hall as [|c cs Hc _ IH]; [reflexivity|].
    cbn [map]. rewrite IH, (toLowerCase_alphabet c Hc). reflexivity. }
  split; [symmetry; apply decode_lower|].
  split.
  - exists (decoded (map toLowerCase s)). rewrite <- decode_lower.
    apply (encode_decode_valid _ V).
  - split; [exact F|].
    assert (X : extractPartition s = Failure invalid_pfid)
      by (unfold extractPartition; rewrite F; reflexivity).
    split; [exact X|].
    unfold generateRelated, extractPartitionOrThrow. rewrite X. reflexivity.
Qed.

Lemma upper_case_disagreement_witness :
  decode (lit "013XRZP12G3NQK8N0000000000000000")
  = decode (map toLowerCase (lit "013XRZP12G3NQK8N0000000000000000"))
  /\ (exists b, decode (lit "013XRZP12G3NQK8N0000000000000000") = Ok b)
  /\ isPfid (lit "013XRZP12G3NQK8N0000000000000000") = false
  /\ extractPartition (lit "013XRZP12G3NQK8N0000000000000000")
     = Failure invalid_pfid
  /\ generateRelated (lit "013XRZP12G3NQK8N0000000000000000") 0 []
     = inl (ThrownPfidError invalid_pfid).
Proof.
  apply (upper_case_disagreement (lit "013XRZP12G3NQK8N0000000000000000") 0 []).
  - vm_compute. reflexivity.
  - vm_compute. discriminate.
Defined.
